(** * Managing network interfaces on Azure: the provisioning script

    A shallow embedding of the two variants of the sample program
    ([example.go], sequential, and its later revision, which creates the
    storage account in a goroutine joined by a wait group and whose error
    handler attempts to delete the resource group before exiting), and the
    properties its specification states about them.

    The script is a sequence of calls into the Azure management SDK.  The
    SDK and the service behind it are a collaborator: a program is a tree of
    operations ([Prog]), and its meaning is given against an arbitrary
    collaborator ([Oracle]) that answers every remote call. *)

From Stdlib Require Import ZArith Ascii String DecimalString.
From stdpp Require Import base tactics option list strings.

Local Open Scope string_scope.
Local Open Scope list_scope.

(** ** Constants of the script *)

Definition westUS : string := "westus".
Definition groupName : string := "your-azure-sample-group".
Definition vNetName : string := "vNet".
Definition nicNameFrontEnd : string := "nic1".
Definition nicNameMidTier : string := "nic2".
Definition nicNameBackEnd : string := "nic3".
Definition accountName : string := "golangrocksonazure".
Definition vmName : string := "vm".

(** The two source files. *)
Inductive Variant := Sequential | Concurrent.

(** ** Formatting *)

Definition nl : string := String "010"%char EmptyString.
Definition tab : string := String "009"%char EmptyString.

(** [%v] of a non-negative [int]. *)
Definition fmt_int (n : nat) : string := NilEmpty.string_of_uint (Nat.to_uint n).

(** [%t] of a [bool]. *)
Definition fmt_bool (b : bool) : string := if b then "true" else "false".

(** ** Data model

    The SDK's structs, with the fields the script reads or writes.  A Go
    pointer field is an [option]; a struct embedded by pointer (the
    [...PropertiesFormat] structs) is an [option] of the embedded record,
    and reaching a promoted field through it dereferences that pointer. *)

Definition Error := string.

Record SubnetPropertiesFormat := {
  AddressPrefix : option string
}.

Record Subnet := {
  sub_ID : option string;
  sub_Name : option string;
  sub_props : option SubnetPropertiesFormat
}.

Record PublicIPAddressDNSSettings := {
  DomainNameLabel : option string
}.

Record PublicIPAddressPropertiesFormat := {
  DNSSettings : option PublicIPAddressDNSSettings
}.

Record PublicIPAddress := {
  pip_ID : option string;
  pip_Name : option string;
  pip_Location : option string;
  pip_props : option PublicIPAddressPropertiesFormat
}.

(** In the SDK [IPAllocationMethod] is a string type. *)
Definition IPAllocationMethod := string.
Definition Dynamic : IPAllocationMethod := "Dynamic".

Record InterfaceIPConfigurationPropertiesFormat := {
  PrivateIPAddress : option string;
  PrivateIPAllocationMethod : IPAllocationMethod;
  ipc_Subnet : option Subnet;
  ipc_Primary : option bool;
  ipc_PublicIPAddress : option PublicIPAddress
}.

Record InterfaceIPConfiguration := {
  ipc_Name : option string;
  ipc_props : option InterfaceIPConfigurationPropertiesFormat
}.

Record InterfacePropertiesFormat := {
  IPConfigurations : option (list InterfaceIPConfiguration);
  MacAddress : option string;
  EnableIPForwarding : option bool
}.

Record Interface := {
  nic_ID : option string;
  nic_Name : option string;
  nic_Location : option string;
  nic_props : option InterfacePropertiesFormat
}.

Record InterfaceListResult := {
  Value : option (list Interface)
}.

Record NetworkInterfaceReferenceProperties := {
  nir_Primary : option bool
}.

Record NetworkInterfaceReference := {
  nir_ID : option string;
  nir_props : option NetworkInterfaceReferenceProperties
}.

Record VirtualNetwork := {
  vnet_Location : option string;
  AddressPrefixes : option (list string)
}.

Record ImageReference := {
  Publisher : option string;
  Offer : option string;
  Sku : option string;
  Version : option string
}.

Record OSDisk := {
  osd_Name : option string;
  VhdURI : option string;
  CreateOption : string
}.

Record OSProfile := {
  ComputerName : option string;
  AdminUsername : option string;
  AdminPassword : option string
}.

Record VirtualMachine := {
  vm_Location : option string;
  VMSize : string;
  vm_ImageReference : option ImageReference;
  OsDisk : option OSDisk;
  OsProfile : option OSProfile;
  NetworkInterfaces : option (list NetworkInterfaceReference)
}.

(** ** Remote calls

    One constructor per client method the script uses, with the arguments
    it passes.  [CallResult c] is the type of the value the method returns
    next to its [error]; a result the script discards is [unit]. *)

Inductive Call :=
  | GroupsCreateOrUpdate (group location : string)
  | GroupsDelete (group : string)
  | VirtualNetworksCreateOrUpdate (group name : string) (vNet : VirtualNetwork)
  | SubnetsCreateOrUpdate (group vnet name : string) (subnet : Subnet)
  | SubnetsGet (group vnet name : string)
  | PublicIPAddressesCreateOrUpdate (group name : string) (pip : PublicIPAddress)
  | PublicIPAddressesGet (group name : string)
  | InterfacesCreateOrUpdate (group name : string) (nic : Interface)
  | InterfacesGet (group name : string)
  | InterfacesList (group : string)
  | InterfacesDelete (group name : string)
  | AccountsCreate (group name sku location : string)
  | VirtualMachinesCreateOrUpdate (group name : string) (vm : VirtualMachine)
  | VirtualMachinesDelete (group name : string).

Definition CallResult (c : Call) : Type :=
  match c with
  | SubnetsGet _ _ _ => Subnet
  | PublicIPAddressesGet _ _ => PublicIPAddress
  | InterfacesGet _ _ => Interface
  | InterfacesList _ => InterfaceListResult
  | _ => unit
  end.

Definition Reply (c : Call) : Type := (CallResult c * option Error)%type.

(** ** Programs

    [Issue c] sends the request of call [c]; [Await c] blocks until the
    call has completed and yields its result and error.  A synchronous
    method, and an asynchronous one whose error channel is read at once,
    is [Issue] followed by [Await]; a call whose channels are dropped is
    an [Issue] alone. *)

Inductive Prog (A : Type) : Type :=
  | Ret (a : A)
  | Print (s : string) (k : Prog A)
  | Scanln (k : Prog A)
  | Issue (c : Call) (k : Prog A)
  | Await (c : Call) (k : Reply c → Prog A)
  | Exit (code : Z)
  | Panic
  | WgAdd (delta : Z) (k : Prog A)
  | WgDone (k : Prog A)
  | WgWait (k : Prog A)
  | Go (child : Prog unit) (k : Prog A).

Arguments Ret {A} a.
Arguments Print {A} s k.
Arguments Scanln {A} k.
Arguments Issue {A} c k.
Arguments Await {A} c k.
Arguments Exit {A} code.
Arguments Panic {A}.
Arguments WgAdd {A} delta k.
Arguments WgDone {A} k.
Arguments WgWait {A} k.
Arguments Go {A} child k.

Fixpoint bind {A B : Type} (p : Prog A) (f : A → Prog B) : Prog B :=
  match p with
  | Ret a => f a
  | Print s k => Print s (bind k f)
  | Scanln k => Scanln (bind k f)
  | Issue c k => Issue c (bind k f)
  | Await c k => Await c (λ r, bind (k r) f)
  | Exit code => Exit code
  | Panic => Panic
  | WgAdd d k => WgAdd d (bind k f)
  | WgDone k => WgDone (bind k f)
  | WgWait k => WgWait (bind k f)
  | Go child k => Go child (bind k f)
  end.

#[export] Instance Prog_ret : MRet Prog := @Ret.
#[export] Instance Prog_bind : MBind Prog := λ A B f p, bind p f.

(** ** Helpers shared by the functions of the script *)

Definition Printf (s : string) : Prog unit := Print s (Ret tt).
Definition Println (s : string) : Prog unit := Print (s +:+ nl) (Ret tt).

(** [*p]: a nil pointer dereference panics. *)
Definition deref {A} (p : option A) : Prog A :=
  match p with
  | Some a => Ret a
  | None => Panic
  end.

(** [l[i]]: an index out of range panics. *)
Definition indexAt {A} (l : list A) (i : nat) : Prog A :=
  match l !! i with
  | Some a => Ret a
  | None => Panic
  end.

(** A client method called and waited for. *)
Definition call (c : Call) : Prog (Reply c) := Issue c (Await c Ret).

(** [for i, x := range l { body }], threading the variables the body
    assigns to. *)
Fixpoint forRange {X St} (i : nat) (l : list X) (body : nat → X → St → Prog St)
    (s : St) : Prog St :=
  match l with
  | [] => Ret s
  | x :: l' => s' ← body i x s; forRange (S i) l' body s'
  end.

(** [onErrorFail] prints a failure message and exits the program if [err]
    is not nil; the later revision first starts a deletion of the resource
    group, whose channels it drops. *)
Definition onErrorFail (v : Variant) (err : option Error) (message : string)
    : Prog unit :=
  match err with
  | Some e =>
      Printf (message +:+ ": " +:+ e +:+ nl);;
      match v with
      | Sequential => Exit 1
      | Concurrent => Issue (GroupsDelete groupName) (Exit 1)
      end
  | None => Ret tt
  end.

(** The first IP configuration of [nic], read: Go's [nic.IPConfigurations],
    dereferenced and indexed at 0. *)
Definition ipConfiguration0 (nic : Interface) : Prog InterfaceIPConfiguration :=
  props ← deref (nic_props nic);
  configs ← deref (IPConfigurations props);
  indexAt configs 0.

(** The first IP configuration of [nic], written, once the path to it is
    known to exist: the slice is shared, so the interface sees the new
    element. *)
Definition withIPConfiguration0 (nic : Interface) (cfg : InterfaceIPConfiguration)
    : Interface :=
  {| nic_ID := nic_ID nic; nic_Name := nic_Name nic;
     nic_Location := nic_Location nic;
     nic_props :=
       (λ props,
          {| IPConfigurations := <[0 := cfg]> <$> IPConfigurations props;
             MacAddress := MacAddress props;
             EnableIPForwarding := EnableIPForwarding props |})
       <$> nic_props nic |}.

(** Assignment to the [Name] of the first IP configuration. *)
Definition setIPConfigName (nic : Interface) (name : option string) : Prog Interface :=
  cfg ← ipConfiguration0 nic;
  Ret (withIPConfiguration0 nic {| ipc_Name := name; ipc_props := ipc_props cfg |}).

(** Assignment to a field of the first IP configuration that is promoted
    from its embedded properties struct. *)
Definition setIPConfigProps (nic : Interface)
    (f : InterfaceIPConfigurationPropertiesFormat → InterfaceIPConfigurationPropertiesFormat)
    : Prog Interface :=
  cfg ← ipConfiguration0 nic;
  props ← deref (ipc_props cfg);
  Ret (withIPConfiguration0 nic {| ipc_Name := ipc_Name cfg; ipc_props := Some (f props) |}).

Definition setSubnet (s : option Subnet) (p : InterfaceIPConfigurationPropertiesFormat) :=
  {| PrivateIPAddress := PrivateIPAddress p;
     PrivateIPAllocationMethod := PrivateIPAllocationMethod p;
     ipc_Subnet := s; ipc_Primary := ipc_Primary p;
     ipc_PublicIPAddress := ipc_PublicIPAddress p |}.

Definition setPrimary (b : option bool) (p : InterfaceIPConfigurationPropertiesFormat) :=
  {| PrivateIPAddress := PrivateIPAddress p;
     PrivateIPAllocationMethod := PrivateIPAllocationMethod p;
     ipc_Subnet := ipc_Subnet p; ipc_Primary := b;
     ipc_PublicIPAddress := ipc_PublicIPAddress p |}.

Definition setPublicIPAddress (a : option PublicIPAddress)
    (p : InterfaceIPConfigurationPropertiesFormat) :=
  {| PrivateIPAddress := PrivateIPAddress p;
     PrivateIPAllocationMethod := PrivateIPAllocationMethod p;
     ipc_Subnet := ipc_Subnet p; ipc_Primary := ipc_Primary p;
     ipc_PublicIPAddress := a |}.

(** [nic.EnableIPForwarding = b], a field promoted from the embedded
    properties struct. *)
Definition setEnableIPForwarding (nic : Interface) (b : option bool) : Prog Interface :=
  props ← deref (nic_props nic);
  Ret {| nic_ID := nic_ID nic; nic_Name := nic_Name nic;
         nic_Location := nic_Location nic;
         nic_props := Some {| IPConfigurations := IPConfigurations props;
                              MacAddress := MacAddress props;
                              EnableIPForwarding := b |} |}.

(** ** The script *)

Definition createResourceGroup (v : Variant) : Prog unit :=
  Println "Create resource group";;
  '(_, err) ← call (GroupsCreateOrUpdate groupName westUS);
  onErrorFail v err "CreateOrUpdate failed".

Definition createVirtualNetwork (v : Variant) : Prog unit :=
  Println "Create virtual network";;
  let vNet := {| vnet_Location := Some westUS;
                 AddressPrefixes := Some ["172.16.0.0/16"] |} in
  '(_, err) ← call (VirtualNetworksCreateOrUpdate groupName vNetName vNet);
  onErrorFail v err "CreateOrUpdate failed".

Definition subnetNames : list string := ["Front-end"; "Mid-tier"; "Back-end"].

Definition createSubnets (v : Variant) : Prog (list Subnet) :=
  Println "Create subnets";;
  let subnet := {| sub_ID := None; sub_Name := None;
                   sub_props := Some {| AddressPrefix := None |} |} in
  '(_, subnets) ← forRange (St := Subnet * list Subnet) 0 subnetNames (λ i n '(subnet, subnets),
    Printf (tab +:+ "Create subnet: '" +:+ n +:+ "'" +:+ nl);;
    props ← deref (sub_props subnet);
    let subnet := {| sub_ID := sub_ID subnet; sub_Name := sub_Name subnet;
                     sub_props := Some {| AddressPrefix :=
                       Some ("172.16." +:+ fmt_int (i + 1) +:+ ".0/24") |} |} in
    '(_, err) ← call (SubnetsCreateOrUpdate groupName vNetName n subnet);
    onErrorFail v err (tab +:+ "CreateOrUpdate failed");;
    '(subnetInfo, err) ← call (SubnetsGet groupName vNetName n);
    onErrorFail v err (tab +:+ "Get failed");;
    Ret (subnet, subnets ++ [subnetInfo])) (subnet, []);
  Ret subnets.

(** [createPIP] creates a public IP address. *)
Definition createPIP (v : Variant) (pipName : string) : Prog PublicIPAddress :=
  Printf ("Create public IP address: '" +:+ pipName +:+ "'" +:+ nl);;
  let pip := {| pip_ID := None; pip_Name := None; pip_Location := Some westUS;
                pip_props := Some {| DNSSettings := Some {| DomainNameLabel :=
                  Some ("azuresample-" +:+ pipName) |} |} |} in
  '(_, err) ← call (PublicIPAddressesCreateOrUpdate groupName pipName pip);
  onErrorFail v err "CreateOrUpdate failed";;
  Println "Get public IP address";;
  '(pip, err) ← call (PublicIPAddressesGet groupName pipName);
  onErrorFail v err "Get failed";;
  Ret pip.

Definition nicNames : list string := [nicNameFrontEnd; nicNameMidTier; nicNameBackEnd].

Definition createNICs (v : Variant) (subnets : list Subnet) (pip : PublicIPAddress)
    : Prog (list Interface) :=
  Println "Create network interfaces (NICs)";;
  let nic :=
    {| nic_ID := None; nic_Name := None; nic_Location := Some westUS;
       nic_props := Some {|
         IPConfigurations := Some [ {| ipc_Name := None; ipc_props := Some {|
           PrivateIPAddress := None; PrivateIPAllocationMethod := Dynamic;
           ipc_Subnet := None; ipc_Primary := None;
           ipc_PublicIPAddress := None |} |} ];
         MacAddress := None; EnableIPForwarding := None |} |} in
  '(_, nics) ← forRange (St := Interface * list Interface) 0 nicNames (λ i n '(nic, nics),
    subnet ← indexAt subnets i;
    subnetName ← deref (sub_Name subnet);
    Printf (tab +:+ "Create NIC '" +:+ n +:+ "' using subnet '" +:+ subnetName
            +:+ "'" +:+ nl);;
    nic ← setIPConfigName nic (Some ("IPconfig" +:+ fmt_int (i + 1)));
    nic ← setIPConfigProps nic (setSubnet (Some subnet));
    nic ← (if decide (n = nicNameFrontEnd) then
             nic ← setEnableIPForwarding nic (Some true);
             nic ← setIPConfigProps nic (setPrimary (Some true));
             setIPConfigProps nic (setPublicIPAddress (Some pip))
           else
             nic ← setEnableIPForwarding nic None;
             nic ← setIPConfigProps nic (setPrimary None);
             setIPConfigProps nic (setPublicIPAddress None));
    '(_, err) ← call (InterfacesCreateOrUpdate groupName n nic);
    onErrorFail v err "CreateOrUpdate failed";;
    '(nicInfo, err) ← call (InterfacesGet groupName n);
    onErrorFail v err "Get failed";;
    Ret (nic, nics ++ [nicInfo])) (nic, []);
  Ret nics.

(** The storage account is created by the main flow in the sequential
    variant and by a goroutine, which signals the wait group when it is
    done, in the concurrent one. *)
Definition createStorageAccount (v : Variant) : Prog unit :=
  match v with
  | Sequential =>
      Println "Create storage account";;
      '(_, err) ← call (AccountsCreate groupName accountName "Standard_LRS" westUS);
      onErrorFail v err "Create failed"
  | Concurrent =>
      Println "Starting to create storage account...";;
      '(_, err) ← call (AccountsCreate groupName accountName "Standard_LRS" westUS);
      onErrorFail v err "Create failed";;
      Println "... storage account created";;
      WgDone (Ret tt)
  end.

(** The test [*nic.Name == nicNameFrontEnd]; the later revision guards it
    with [nic.Name != nil]. *)
Definition isFrontEnd (v : Variant) (nic : Interface) : Prog bool :=
  match v with
  | Sequential =>
      name ← deref (nic_Name nic);
      Ret (bool_decide (name = nicNameFrontEnd))
  | Concurrent =>
      match nic_Name nic with
      | Some name => Ret (bool_decide (name = nicNameFrontEnd))
      | None => Ret false
      end
  end.

Definition buildNIRs (v : Variant) (nics : list Interface)
    : Prog (list NetworkInterfaceReference) :=
  Println "Assign NIC to Network Interface References (NIRs) ";;
  forRange 0 nics (λ i nic nirs,
    name ← deref (nic_Name nic);
    Printf (tab +:+ "Assign NIC '" +:+ name +:+ "' to NIR " +:+ fmt_int i +:+ nl);;
    let nir := {| nir_ID := nic_ID nic; nir_props := None |} in
    front ← isFrontEnd v nic;
    nir ← (if front : bool then
             Printf (tab +:+ nicNameFrontEnd +:+ " is assigned to the primary NIR" +:+ nl);;
             Ret {| nir_ID := nir_ID nir;
                    nir_props := Some {| nir_Primary := Some true |} |}
           else
             Ret {| nir_ID := nir_ID nir;
                    nir_props := Some {| nir_Primary := Some false |} |});
    Ret (nirs ++ [nir])) [].

(** [azure.PublicCloud.StorageEndpointSuffix] and [compute.FromImage],
    constants of the SDK. *)
Definition StorageEndpointSuffix : string := "core.windows.net".
Definition FromImage : string := "fromImage".

(** [fmt.Sprintf(vhdURItemplate, ...)]: the later revision takes the
    endpoint suffix from the SDK. *)
Definition vhdURI (v : Variant) : string :=
  match v with
  | Sequential =>
      "https://" +:+ accountName +:+ ".blob.core.windows.net/golangcontainer/"
      +:+ vmName +:+ ".vhd"
  | Concurrent =>
      "https://" +:+ accountName +:+ ".blob." +:+ StorageEndpointSuffix
      +:+ "/golangcontainer/" +:+ vmName +:+ ".vhd"
  end.

Definition createVM (v : Variant) (nirs : list NetworkInterfaceReference) : Prog unit :=
  Println "Create VM with the assigned NIRs";;
  let vm :=
    {| vm_Location := Some westUS;
       VMSize := "Standard_D3_v2";
       vm_ImageReference := Some {| Publisher := Some "Canonical";
                                    Offer := Some "UbuntuServer";
                                    Sku := Some "16.04.0-LTS";
                                    Version := Some "latest" |};
       OsDisk := Some {| osd_Name := Some "osDisk"; VhdURI := Some (vhdURI v);
                         CreateOption := FromImage |};
       OsProfile := Some {| ComputerName := Some vmName;
                            AdminUsername := Some "notadmin";
                            AdminPassword := Some "Pa$$w0rd1975" |};
       NetworkInterfaces := Some [] |} in
  let vm :=
    {| vm_Location := vm_Location vm; VMSize := VMSize vm;
       vm_ImageReference := vm_ImageReference vm; OsDisk := OsDisk vm;
       OsProfile := OsProfile vm; NetworkInterfaces := Some nirs |} in
  '(_, err) ← call (VirtualMachinesCreateOrUpdate groupName vmName vm);
  onErrorFail v err "CreateOrUpdate failed".

(** The slice [nics] is shared with the caller: the function returns its
    contents after the two assignments. *)
Definition updateNICwithPIP (v : Variant) (nicName : string) (nics : list Interface)
    (pip : PublicIPAddress) : Prog (list Interface) :=
  index ← forRange 0 nics (λ i nic index,
    name ← deref (nic_Name nic);
    if decide (name = nicName) then Ret i else Ret index) 0;
  pipName ← deref (pip_Name pip);
  Printf ("Update NIC '" +:+ nicName +:+ "' with PIP '" +:+ pipName +:+ "'" +:+ nl);;
  nic ← indexAt nics index;
  nic ← setIPConfigProps nic (setPublicIPAddress (Some pip));
  let nics := <[index := nic]> nics in
  nic ← indexAt nics index;
  nic ← setIPConfigProps nic (setPrimary (Some true));
  let nics := <[index := nic]> nics in
  nic ← indexAt nics index;
  '(_, err) ← call (InterfacesCreateOrUpdate groupName nicName nic);
  onErrorFail v err "CreateOrUpdate failed";;
  Ret nics.

(** [printNIC] prints basic info about a network interface. *)
Definition printNIC (nic : Interface) : Prog unit :=
  name ← deref (nic_Name nic);
  Printf ("Network interface '" +:+ name +:+ "'" +:+ nl);;
  location ← deref (nic_Location nic);
  Printf (tab +:+ "Location:                    " +:+ location +:+ nl);;
  props ← deref (nic_props nic);
  forwarding ← deref (EnableIPForwarding props);
  Printf (tab +:+ "IP forwarding enabled:       " +:+ fmt_bool forwarding +:+ nl);;
  props ← deref (nic_props nic);
  mac ← deref (MacAddress props);
  Printf (tab +:+ "MAC address:                 " +:+ mac +:+ nl);;
  cfg ← ipConfiguration0 nic;
  cprops ← deref (ipc_props cfg);
  privateIP ← deref (PrivateIPAddress cprops);
  Printf (tab +:+ "Private IP:                  " +:+ privateIP +:+ nl);;
  cfg ← ipConfiguration0 nic;
  cprops ← deref (ipc_props cfg);
  Printf (tab +:+ "Private allocation method:   " +:+ PrivateIPAllocationMethod cprops
          +:+ nl);;
  cfg ← ipConfiguration0 nic;
  cprops ← deref (ipc_props cfg);
  subnet ← deref (ipc_Subnet cprops);
  subnetID ← deref (sub_ID subnet);
  Printf (tab +:+ "Primary virtual network ID:  " +:+ subnetID +:+ nl);;
  Println "".

Definition listNICs (v : Variant) : Prog unit :=
  Println "Listing NICs";;
  '(list, err) ← call (InterfacesList groupName);
  onErrorFail v err "List failed";;
  match Value list with
  | None | Some [] =>
      Printf ("There are no NICs in " +:+ groupName +:+ " resource group" +:+ nl)
  | Some nics => forRange 0 nics (λ _ nic _, printNIC nic) tt
  end.

Definition deleteNIC (v : Variant) (nicName : string) : Prog unit :=
  Println "Delete NIC";;
  Println (tab +:+ "First, delete the VM");;
  '(_, err) ← call (VirtualMachinesDelete groupName vmName);
  onErrorFail v err "Delete failed";;
  Println (tab +:+ "Second, delete the NIC");;
  '(_, err) ← call (InterfacesDelete groupName nicName);
  onErrorFail v err "Delete failed".

Definition deleteResourceGroup (v : Variant) : Prog unit :=
  Println "Deleting resource group";;
  '(_, err) ← call (GroupsDelete groupName);
  onErrorFail v err "Delete failed".

Definition main (v : Variant) : Prog unit :=
  match v with
  | Sequential =>
      createResourceGroup v;;
      createVirtualNetwork v;;
      subnets ← createSubnets v;
      pip1 ← createPIP v "pip1";
      nics ← createNICs v subnets pip1;
      createStorageAccount v;;
      nirs ← buildNIRs v nics;
      createVM v nirs;;
      pip2 ← createPIP v "pip2";
      _ ← updateNICwithPIP v nicNameFrontEnd nics pip2;
      listNICs v;;
      Printf ("Press enter to delete NIC '" +:+ nicNameMidTier +:+ "'..." +:+ nl);;
      Scanln (Ret tt);;
      deleteNIC v nicNameMidTier;;
      Println "Remaining NICs are...";;
      listNICs v;;
      Printf "Press enter to delete all the resources created in this sample...";;
      Scanln (Ret tt);;
      deleteResourceGroup v
  | Concurrent =>
      createResourceGroup v;;
      WgAdd 1 (Ret tt);;
      Go (createStorageAccount v) (Ret tt);;
      createVirtualNetwork v;;
      subnets ← createSubnets v;
      pip1 ← createPIP v "pip1";
      nics ← createNICs v subnets pip1;
      nirs ← buildNIRs v nics;
      WgWait (Ret tt);;
      createVM v nirs;;
      pip2 ← createPIP v "pip2";
      _ ← updateNICwithPIP v nicNameFrontEnd nics pip2;
      listNICs v;;
      Printf ("Press enter to delete NIC '" +:+ nicNameMidTier +:+ "'..." +:+ nl);;
      Scanln (Ret tt);;
      deleteNIC v nicNameMidTier;;
      Println "Remaining NICs are...";;
      listNICs v;;
      Printf "Press enter to delete all the resources created in this sample...";;
      Scanln (Ret tt);;
      deleteResourceGroup v
  end.

(** ** Start-up of the sequential variant ([init] of example.go)

    The process environment and the two constructors of the SDK that
    [init] calls, neither of which contacts the service. *)

Record Env := {
  Getenv : string → string;
  OAuthConfigForTenant : string → option Error;
  NewServicePrincipalToken : string → string → string → option Error
}.

(** [getEnvVarOrExit] returns the value of specified environment variable
    or terminates if it is not defined. *)
Definition getEnvVarOrExit (E : Env) (varName : string) : Prog string :=
  let value := Getenv E varName in
  if decide (value = "") then
    Printf ("Missing environment variable " +:+ varName +:+ nl);;
    Exit 1
  else Ret value.

(** [createClients] stores the subscription and the token in the
    package-level clients, which the calls of this model leave implicit. *)
Definition createClients (subscriptionID : string) : Prog unit := Ret tt.

Definition init (E : Env) : Prog unit :=
  subscriptionID ← getEnvVarOrExit E "AZURE_SUBSCRIPTION_ID";
  tenantID ← getEnvVarOrExit E "AZURE_TENANT_ID";
  let err := OAuthConfigForTenant E tenantID in
  onErrorFail Sequential err "OAuthConfigForTenant failed";;
  clientID ← getEnvVarOrExit E "AZURE_CLIENT_ID";
  clientSecret ← getEnvVarOrExit E "AZURE_CLIENT_SECRET";
  let err := NewServicePrincipalToken E tenantID clientID clientSecret in
  onErrorFail Sequential err "NewServicePrincipalToken failed";;
  createClients subscriptionID.

(** The whole sequential program: Go runs [init] before [main]. *)
Definition program (E : Env) : Prog unit := init E;; main Sequential.

(** ** Semantics

    What a run leaves behind is its log of events, newest first; [trace]
    puts it in the order of time.  Every event carries the goroutine that
    performed it, 0 for the main one. *)

Inductive Event :=
  | EvPrint (tid : nat) (s : string)
  | EvScan (tid : nat)
  | EvIssue (tid : nat) (c : Call)
  | EvReturn (tid : nat) (c : Call) (err : option Error)
  | EvExit (tid : nat) (code : Z)
  | EvPanic (tid : nat)
  | EvWgAdd (tid : nat) (delta : Z)
  | EvWgDone (tid : nat)
  | EvWgWait (tid : nat)
  | EvGo (tid child : nat).

Definition trace (log : list Event) : list Event := reverse log.

(** The collaborator: it answers a call knowing everything that has
    happened so far. *)
Definition Oracle := list Event → ∀ c : Call, Reply c.

Inductive Outcome (A : Type) :=
  | Returned (a : A)
  | Exited (code : Z)
  | Panicked
  | NeedsScheduler.

Arguments Returned {A} a.
Arguments Exited {A} code.
Arguments Panicked {A}.
Arguments NeedsScheduler {A}.

(** A program without goroutines or wait groups, run to its end by the
    main goroutine. *)
Fixpoint exec {A : Type} (w : Oracle) (h : list Event) (p : Prog A) : Outcome A * list Event :=
  match p with
  | Ret a => (Returned a, h)
  | Print s k => exec w (EvPrint 0 s :: h) k
  | Scanln k => exec w (EvScan 0 :: h) k
  | Issue c k => exec w (EvIssue 0 c :: h) k
  | Await c k => let r := w h c in exec w (EvReturn 0 c (r.2) :: h) (k r)
  | Exit code => (Exited code, EvExit 0 code :: h)
  | Panic => (Panicked, EvPanic 0 :: h)
  | WgAdd _ _ | WgDone _ | WgWait _ | Go _ _ => (NeedsScheduler, h)
  end.

(** The state of the process: its goroutines (number 0 is the main one, a
    goroutine that has returned stays as [Ret tt]), the counter of the wait
    group, the log, and the exit status once the process has ended. *)
Record Machine := {
  threads : list (Prog unit);
  wg : Z;
  log : list Event;
  halted : option Z
}.

Definition initial (v : Variant) : Machine :=
  {| threads := [main v]; wg := 0; log := []; halted := None |}.

(** Goroutine [tid] continues as [k], leaving event [ev]. *)
Definition advance (m : Machine) (tid : nat) (k : Prog unit) (ev : Event) : Machine :=
  {| threads := <[tid := k]> (threads m); wg := wg m;
     log := ev :: log m; halted := None |}.

(** The process ends with status [code]. *)
Definition halt (m : Machine) (code : Z) (evs : list Event) : Machine :=
  {| threads := threads m; wg := wg m; log := evs ++ log m; halted := Some code |}.

(** [wg.Add(delta)]; a counter that would become negative panics. *)
Definition wgAdd (m : Machine) (tid : nat) (delta : Z) (k : Prog unit) (ev : Event)
    : Machine :=
  if decide (wg m + delta < 0)%Z then halt m 2 [EvPanic tid]
  else {| threads := <[tid := k]> (threads m); wg := (wg m + delta)%Z;
          log := ev :: log m; halted := None |}.

(** One step of goroutine [tid].  Nothing happens once the process has
    ended, when there is no such goroutine, when it has returned (the
    return of the main goroutine ends the process with status 0), or
    when it waits for a counter that is not zero.  A panic ends the
    process with status 2. *)
Definition step (w : Oracle) (tid : nat) (m : Machine) : Machine :=
  match halted m with
  | Some _ => m
  | None =>
      match threads m !! tid with
      | None => m
      | Some p =>
          match p with
          | Ret _ => if decide (tid = 0) then halt m 0 [] else m
          | Print s k => advance m tid k (EvPrint tid s)
          | Scanln k => advance m tid k (EvScan tid)
          | Issue c k => advance m tid k (EvIssue tid c)
          | Await c k =>
              let r := w (log m) c in
              advance m tid (k r) (EvReturn tid c (r.2))
          | Exit code => halt m code [EvExit tid code]
          | Panic => halt m 2 [EvPanic tid]
          | WgAdd delta k => wgAdd m tid delta k (EvWgAdd tid delta)
          | WgDone k => wgAdd m tid (-1) k (EvWgDone tid)
          | WgWait k =>
              if decide (wg m = 0%Z) then advance m tid k (EvWgWait tid) else m
          | Go child k =>
              {| threads := <[tid := k]> (threads m) ++ [child]; wg := wg m;
                 log := EvGo tid (length (threads m)) :: log m; halted := None |}
          end
      end
  end.

(** A run under a schedule: the goroutine to step, one after the other. *)
Definition run (w : Oracle) (sched : list nat) (m : Machine) : Machine :=
  foldl (λ m tid, step w tid m) m sched.

(** ** Vocabulary of the properties *)

Definition eventTid (ev : Event) : nat :=
  match ev with
  | EvPrint t _ | EvScan t | EvIssue t _ | EvReturn t _ _ | EvExit t _
  | EvPanic t | EvWgAdd t _ | EvWgDone t | EvWgWait t | EvGo t _ => t
  end.

(** The remote calls issued, the lines printed and the errors reported in
    a sequence of events. *)
Definition issued (evs : list Event) : list Call :=
  omap (λ ev, match ev with EvIssue _ c => Some c | _ => None end) evs.

Definition printed (evs : list Event) : list string :=
  omap (λ ev, match ev with EvPrint _ s => Some s | _ => None end) evs.

Definition failures (evs : list Event) : list (Call * Error) :=
  omap (λ ev, match ev with EvReturn _ c (Some e) => Some (c, e) | _ => None end) evs.

(** The events of one goroutine. *)
Definition byThread (tid : nat) (evs : list Event) : list Event :=
  filter (λ ev, eventTid ev = tid) evs.

(** A collaborator that accepts every call and returns empty values. *)
Definition emptyResult (c : Call) : CallResult c :=
  match c with
  | SubnetsGet _ _ _ => {| sub_ID := None; sub_Name := None; sub_props := None |}
  | PublicIPAddressesGet _ _ =>
      {| pip_ID := None; pip_Name := None; pip_Location := None; pip_props := None |}
  | InterfacesGet _ _ =>
      {| nic_ID := None; nic_Name := None; nic_Location := None; nic_props := None |}
  | InterfacesList _ => {| Value := None |}
  | _ => tt
  end.

Definition accepting : Oracle := λ _ c, (emptyResult c, None).

(** The [Primary] flag of a reference, read through its embedded
    properties. *)
Definition primaryFlag (nir : NetworkInterfaceReference) : option bool :=
  nir_props nir ≫= nir_Primary.

Definition named (nic : Interface) : Prop := is_Some (nic_Name nic).

(** A list made of the interfaces [createNICs] creates, in any order. *)
Definition createdInterfaces (nics : list Interface) : Prop :=
  nic_Name <$> nics ≡ₚ Some <$> nicNames.

(** What a loop whose body always returns computes. *)
Fixpoint foldRange {X St} (g : nat → X → St → St) (i : nat) (l : list X) (s : St) : St :=
  match l with
  | [] => s
  | x :: l' => foldRange g (S i) l' (g i x s)
  end.

(** The properties of the first IP configuration of an interface, when
    every pointer on the way to them is set. *)
Definition firstIPConfiguration (nic : Interface)
    : option InterfaceIPConfigurationPropertiesFormat :=
  props ← nic_props nic;
  configs ← IPConfigurations props;
  cfg ← configs !! 0;
  ipc_props cfg.

(** Fields of an interface that sit behind embedded pointers. *)
Definition enableIPForwardingOf (nic : Interface) : option bool :=
  props ← nic_props nic; EnableIPForwarding props.

Definition macAddressOf (nic : Interface) : option string :=
  props ← nic_props nic; MacAddress props.

Definition privateIPAddressOf (nic : Interface) : option string :=
  cprops ← firstIPConfiguration nic; PrivateIPAddress cprops.

Definition subnetIDOf (nic : Interface) : option string :=
  cprops ← firstIPConfiguration nic; subnet ← ipc_Subnet cprops; sub_ID subnet.

Definition primaryOf (nic : Interface) : option bool :=
  cprops ← firstIPConfiguration nic; ipc_Primary cprops.

Definition publicIPAddressOf (nic : Interface) : option PublicIPAddress :=
  cprops ← firstIPConfiguration nic; ipc_PublicIPAddress cprops.

(** The six fields [printNIC] dereferences are all present. *)
Definition fieldsPresent (nic : Interface) : Prop :=
  is_Some (nic_Name nic)
  ∧ is_Some (nic_Location nic)
  ∧ is_Some (enableIPForwardingOf nic)
  ∧ is_Some (macAddressOf nic)
  ∧ is_Some (privateIPAddressOf nic)
  ∧ is_Some (subnetIDOf nic).

#[export] Instance fieldsPresent_dec (nic : Interface) : Decision (fieldsPresent nic).
Proof. unfold fieldsPresent. apply _. Defined.

(** A collaborator that accepts every call and lists the interfaces
    [nics]. *)
Definition listing (nics : list Interface) : Oracle :=
  λ _ c,
    match c return Reply c with
    | InterfacesList _ => ({| Value := Some nics |}, None)
    | c => (emptyResult c, None)
    end.

Definition nic_a : Interface :=
  {| nic_ID := Some "id-a"; nic_Name := Some "nic3"; nic_Location := None;
     nic_props := None |}.
Definition nic_b : Interface :=
  {| nic_ID := Some "id-b"; nic_Name := Some "nic1"; nic_Location := None;
     nic_props := None |}.
Definition nic_c : Interface :=
  {| nic_ID := Some "id-c"; nic_Name := Some "nic2"; nic_Location := None;
     nic_props := None |}.
Definition nic_nameless : Interface :=
  {| nic_ID := Some "id-x"; nic_Name := None; nic_Location := None;
     nic_props := None |}.

Definition pip_2 : PublicIPAddress :=
  {| pip_ID := Some "id-pip2"; pip_Name := Some "pip2"; pip_Location := Some westUS;
     pip_props := None |}.

Definition config_1 : InterfaceIPConfigurationPropertiesFormat :=
  {| PrivateIPAddress := Some "172.16.3.4"; PrivateIPAllocationMethod := Dynamic;
     ipc_Subnet := None; ipc_Primary := None; ipc_PublicIPAddress := None |}.

Definition nic_back : Interface :=
  {| nic_ID := Some "id-3"; nic_Name := Some nicNameBackEnd;
     nic_Location := Some westUS;
     nic_props := Some {|
       IPConfigurations := Some [ {| ipc_Name := Some "IPconfig3";
                                     ipc_props := Some config_1 |} ];
       MacAddress := None; EnableIPForwarding := None |} |}.

(** The subnets asked for in a sequence of events: the name and the
    address prefix of every subnet creation issued, in order. *)
Definition subnetRequests (evs : list Event) : list (string * option string) :=
  omap (λ ev, match ev with
              | EvIssue _ (SubnetsCreateOrUpdate _ _ name subnet) =>
                  Some (name, props ← sub_props subnet; AddressPrefix props)
              | _ => None
              end) evs.

Definition expectedSubnets : list (string * option string) :=
  [("Front-end", Some "172.16.1.0/24");
   ("Mid-tier", Some "172.16.2.0/24");
   ("Back-end", Some "172.16.3.0/24")].

(** The interfaces asked for in a sequence of events: the name and the
    interface of every interface creation or update issued, in order. *)
Definition nicRequests (evs : list Event) : list (string * Interface) :=
  omap (λ ev, match ev with
              | EvIssue _ (InterfacesCreateOrUpdate _ name nic) => Some (name, nic)
              | _ => None
              end) evs.

(** The three settings of the front-end interface: of a request for the
    front-end name they are all made, with the public IP address [pip];
    of any other request none is. *)
Definition frontEndSettings (pip : PublicIPAddress) (request : string * Interface)
    : Prop :=
  if decide (request.1 = nicNameFrontEnd) then
    enableIPForwardingOf request.2 = Some true
    ∧ primaryOf request.2 = Some true
    ∧ publicIPAddressOf request.2 = Some pip
  else
    enableIPForwardingOf request.2 = None
    ∧ primaryOf request.2 = None
    ∧ publicIPAddressOf request.2 = None.

(** The first three subnets exist and have a name. *)
Definition threeNamedSubnets (subnets : list Subnet) : Prop :=
  ∀ i, i < 3 → ∃ subnet, subnets !! i = Some subnet ∧ is_Some (sub_Name subnet).

(** The environment variables [init] requires, in the order it reads
    them. *)
Definition requiredVariables : list string :=
  ["AZURE_SUBSCRIPTION_ID"; "AZURE_TENANT_ID"; "AZURE_CLIENT_ID"; "AZURE_CLIENT_SECRET"].

Definition missingMessage (var : string) : string :=
  "Missing environment variable " +:+ var +:+ nl.

(** The first required variable that is not set, if any. *)
Definition firstMissing (E : Env) : option string :=
  head (filter (λ var, Getenv E var = "") requiredVariables).

(** An environment with a subscription and a tenant and nothing else, and
    an SDK that rejects the tenant. *)
Definition env_rejected_tenant : Env :=
  {| Getenv := λ var,
       if decide (var = "AZURE_SUBSCRIPTION_ID") then "subscription"
       else if decide (var = "AZURE_TENANT_ID") then "%zz"
       else "";
     OAuthConfigForTenant := λ _, Some "invalid URL escape";
     NewServicePrincipalToken := λ _ _ _, None |}.

(** An environment without a client secret. *)
Definition env_no_secret : Env :=
  {| Getenv := λ var, if decide (var = "AZURE_CLIENT_SECRET") then "" else "set";
     OAuthConfigForTenant := λ _, None;
     NewServicePrincipalToken := λ _ _ _, None |}.

(** ** Vocabulary of the error handling *)

(** The context label each call site passes to [onErrorFail]; it depends
    on the client method only. *)
Definition labelOf (c : Call) : string :=
  match c with
  | GroupsCreateOrUpdate _ _ | VirtualNetworksCreateOrUpdate _ _ _
  | PublicIPAddressesCreateOrUpdate _ _ _ | InterfacesCreateOrUpdate _ _ _
  | VirtualMachinesCreateOrUpdate _ _ _ => "CreateOrUpdate failed"
  | SubnetsCreateOrUpdate _ _ _ _ => tab +:+ "CreateOrUpdate failed"
  | SubnetsGet _ _ _ => tab +:+ "Get failed"
  | PublicIPAddressesGet _ _ | InterfacesGet _ _ => "Get failed"
  | InterfacesList _ => "List failed"
  | GroupsDelete _ | InterfacesDelete _ _ | VirtualMachinesDelete _ _ => "Delete failed"
  | AccountsCreate _ _ _ _ => "Create failed"
  end.

(** What [onErrorFail] prints for error [e] of call [c]. *)
Definition failureMessage (c : Call) (e : Error) : string :=
  labelOf c +:+ ": " +:+ e +:+ nl.

(** What is left to do once [onErrorFail] has been given an error. *)
Definition handler {A : Type} (v : Variant) (msg : string) : Prog A :=
  Print msg
    match v with
    | Sequential => Exit 1
    | Concurrent => Issue (GroupsDelete groupName) (Exit 1)
    end.

(** The events the handler leaves when goroutine [tid] runs it. *)
Definition handlerSteps (v : Variant) (tid : nat) (msg : string) : list Event :=
  EvPrint tid msg ::
  match v with
  | Sequential => [EvExit tid 1]
  | Concurrent => [EvIssue tid (GroupsDelete groupName); EvExit tid 1]
  end.

(** The handler after its first [k] steps. *)
Definition handlerFrom (v : Variant) (msg : string) (k : nat) : Prog unit :=
  match k, v with
  | 0, _ => handler v msg
  | 1, Concurrent => Issue (GroupsDelete groupName) (Exit 1)
  | _, _ => Exit 1
  end.

(** A program fails fast when every call it waits for is followed, if it
    reports an error, by the handler with the label of that call; this
    holds of the goroutines it starts too. *)
Fixpoint FailFast (v : Variant) {A : Type} (p : Prog A) : Prop :=
  match p with
  | Ret _ | Exit _ | Panic => True
  | Print _ k | Scanln k | Issue _ k | WgAdd _ k | WgDone k | WgWait k => FailFast v k
  | Await c k =>
      ∀ r : Reply c,
        match r.2 with
        | Some e => k r = handler v (failureMessage c e)
        | None => FailFast v (k r)
        end
  | Go child k => FailFast v child ∧ FailFast v k
  end.

(** The event is the return of a call with an error; to goroutine
    [tid]. *)
Definition isFailure (ev : Event) : Prop :=
  match ev with
  | EvReturn _ _ (Some _) => True
  | _ => False
  end.

Definition failureOf (tid : nat) (ev : Event) : Prop :=
  match ev with
  | EvReturn t _ (Some _) => t = tid
  | _ => False
  end.

(** A collaborator that rejects the creation of the virtual network and
    accepts every other call. *)
Definition rejecting_network : Oracle :=
  λ _ c,
    match c return Reply c with
    | VirtualNetworksCreateOrUpdate _ _ _ => (tt, Some "quota exceeded")
    | c => (emptyResult c, None)
    end.

(** Goroutine [tid], whose program is [p], fails fast in a process with
    log [lg] and exit status [hl]: either it has been reported no error
    and [p] fails fast, or it has been reported exactly one, after which it
    has done the first [k] steps of the handler and nothing else, with the
    rest of the handler as its program, or all of them, the exit being the
    last event of the process. *)
Definition failsFast (v : Variant) (tid : nat) (p : Prog unit) (lg : list Event)
    (hl : option Z) : Prop :=
  (FailFast v p ∧ Forall (λ ev, ¬ failureOf tid ev) lg)
  ∨ ∃ c e newer older k,
      lg = newer ++ EvReturn tid c (Some e) :: older
      ∧ Forall (λ ev, ¬ failureOf tid ev) older
      ∧ byThread tid (reverse newer) = take k (handlerSteps v tid (failureMessage c e))
      ∧ (((k < length (handlerSteps v tid (failureMessage c e)))%nat
          ∧ p = handlerFrom v (failureMessage c e) k)
         ∨ ((length (handlerSteps v tid (failureMessage c e)) ≤ k)%nat
            ∧ hl = Some 1%Z ∧ head lg = Some (EvExit tid 1))).

Definition FailFastMachine (v : Variant) (m : Machine) : Prop :=
  (∀ tid p, threads m !! tid = Some p → failsFast v tid p (log m) (halted m))
  ∧ Forall (λ ev, (eventTid ev < length (threads m))%nat) (log m).

(** The request for the virtual network, and a schedule under which the
    main goroutine is told that this request failed before the goroutine
    of the storage account has issued its own. *)
Definition theVirtualNetwork : Call :=
  VirtualNetworksCreateOrUpdate groupName vNetName
    {| vnet_Location := Some westUS; AddressPrefixes := Some ["172.16.0.0/16"] |}.

Definition theStorageAccount : Call :=
  AccountsCreate groupName accountName "Standard_LRS" westUS.

Definition late_goroutine : list nat := [0; 0; 0; 0; 0; 0; 0; 0; 1; 1; 0; 0; 0].

(** A collaborator that rejects the creation of the storage account and
    accepts every other call with an empty value, and a schedule under
    which the goroutine of the storage account is told of the failure and
    is not scheduled again, the main goroutine running on. *)
Definition rejecting_storage : Oracle :=
  λ _ c,
    match c return Reply c with
    | AccountsCreate _ _ _ _ => (tt, Some "name taken")
    | c => (emptyResult c, None)
    end.

Definition main_runs_on : list nat := replicate 5 0 ++ replicate 3 1 ++ replicate 30 0.

(** ** Vocabulary of the join *)

Definition isVMCreate (c : Call) : Prop :=
  match c with
  | VirtualMachinesCreateOrUpdate _ _ _ => True
  | _ => False
  end.

(** No creation of the virtual machine is issued in a log. *)
Definition nonVMEvent (ev : Event) : Prop :=
  match ev with
  | EvIssue _ c => ¬ isVMCreate c
  | _ => True
  end.

Definition noVM (lg : list Event) : Prop := Forall nonVMEvent lg.

(** Goroutine [t] has been told that the storage account exists. *)
Definition stored (t : nat) (lg : list Event) : Prop :=
  EvReturn t theStorageAccount None ∈ lg.

(** A program that uses neither goroutines nor the wait group, and whose
    calls all satisfy [P]. *)
Fixpoint Plain (P : Call → Prop) {A : Type} (p : Prog A) : Prop :=
  match p with
  | Ret _ | Exit _ | Panic => True
  | Print _ k | Scanln k => Plain P k
  | Issue c k => P c ∧ Plain P k
  | Await c k => ∀ r, Plain P (k r)
  | WgAdd _ _ | WgDone _ | WgWait _ | Go _ _ => False
  end.

(** A plain program that does not issue the creation of the virtual
    machine. *)
Abbreviation Quiet := (Plain (λ c, ¬ isVMCreate c)).

(** The exit status of the process for an outcome of [exec]. *)
Definition statusOf (out : Outcome unit) : option Z :=
  match out with
  | Returned _ => Some 0%Z
  | Exited code => Some code
  | Panicked => Some 2%Z
  | NeedsScheduler => None
  end.

(** The process of the sequential variant is its main goroutine alone,
    and what is left of its run is what [exec] does from here. *)
Definition SequentialMachine (w : Oracle) (m : Machine) : Prop :=
  ∃ p,
    threads m = [p]
    ∧ Plain (λ _, True) p
    ∧ match halted m with
      | None => exec w (log m) p = exec w [] (main Sequential)
      | Some code =>
          ∃ out, exec w [] (main Sequential) = (out, log m) ∧ statusOf out = Some code
      end.

(** The main flow of the sequential variant up to the creation of the
    storage account: no creation of the virtual machine is issued before
    the creation of the storage account has returned without error. *)
Fixpoint BeforeAccount {A : Type} (p : Prog A) : Prop :=
  match p with
  | Print _ k | Scanln k => BeforeAccount k
  | Issue c k => ¬ isVMCreate c ∧ BeforeAccount k
  | Await c k =>
      ∀ r : Reply c, (c = theStorageAccount ∧ r.2 = None) ∨ BeforeAccount (k r)
  | _ => True
  end.

(** A goroutine that creates the storage account: it never issues the
    creation of the virtual machine, and it signals the wait group only
    once the creation of the storage account has returned to it without
    error ([ok]). *)
Fixpoint Storing (ok : Prop) {A : Type} (p : Prog A) : Prop :=
  match p with
  | Ret _ | Exit _ | Panic => True
  | Print _ k | Scanln k => Storing ok k
  | Issue c k => ¬ isVMCreate c ∧ Storing ok k
  | Await c k =>
      ∀ r : Reply c, Storing (ok ∨ (c = theStorageAccount ∧ r.2 = None)) (k r)
  | WgDone k => ok ∧ Storing False k
  | WgAdd _ _ | WgWait _ | Go _ _ => False
  end.

(** The main flow of the concurrent variant up to the join: it adds one
    to the wait group, then ([armed]) starts goroutines that create the
    storage account, and issues no creation of the virtual machine before
    it waits. *)
Fixpoint Joining (armed : bool) {A : Type} (p : Prog A) : Prop :=
  match p with
  | Ret _ | Exit _ | Panic => True
  | Print _ k | Scanln k => Joining armed k
  | Issue c k => ¬ isVMCreate c ∧ Joining armed k
  | Await c k => ∀ r, Joining armed (k r)
  | WgAdd delta k => armed = false ∧ delta = 1%Z ∧ Joining true k
  | WgDone _ => False
  | WgWait _ => armed = true
  | Go child k => armed = true ∧ Storing False child ∧ Joining armed k
  end.

(** The main goroutine has passed the wait, after a goroutine that had
    been told that the storage account exists signalled the wait group;
    no creation of the virtual machine was issued before. *)
Definition Joined (lg : list Event) : Prop :=
  ∃ newer mid older t,
    lg = newer ++ EvWgWait 0 :: mid ++ EvWgDone t :: older
    ∧ stored t older
    ∧ noVM (mid ++ EvWgDone t :: older).

(** A goroutine has signalled the wait group, after it had been told that
    the storage account exists. *)
Definition Signalled (lg : list Event) : Prop :=
  ∃ mid older t, lg = mid ++ EvWgDone t :: older ∧ stored t older.

(** The process before the main goroutine has passed the wait. *)
Definition NotJoined (m : Machine) : Prop :=
  noVM (log m)
  ∧ ∃ armed main,
      threads m !! 0 = Some main
      ∧ Joining armed main
      ∧ (∀ tid a, (1 ≤ tid)%nat → threads m !! tid = Some a →
           ∃ ok : Prop, Storing ok a ∧ (ok → stored tid (log m)))
      ∧ (armed = false → wg m = 0%Z ∧ length (threads m) = 1)
      ∧ (armed = true → wg m = 1%Z ∨ (wg m = 0%Z ∧ Signalled (log m))).

Definition JoinInvariant (m : Machine) : Prop := Joined (log m) ∨ NotJoined m.

(** A collaborator that accepts every call and, asked for a resource,
    returns one with the name it was asked for. *)
Definition faithful : Oracle :=
  λ _ c,
    match c return Reply c with
    | SubnetsGet _ _ name =>
        ({| sub_ID := Some ("subnet-" +:+ name); sub_Name := Some name;
            sub_props := None |}, None)
    | PublicIPAddressesGet _ name =>
        ({| pip_ID := Some ("pip-" +:+ name); pip_Name := Some name;
            pip_Location := Some westUS; pip_props := None |}, None)
    | InterfacesGet _ name =>
        ({| nic_ID := Some ("nic-" +:+ name); nic_Name := Some name;
            nic_Location := Some westUS;
            nic_props := Some {|
              IPConfigurations := Some [ {| ipc_Name := Some "ipconfig";
                                            ipc_props := Some config_1 |} ];
              MacAddress := Some "00-0D-3A-00-00-01";
              EnableIPForwarding := Some false |} |}, None)
    | c => (emptyResult c, None)
    end.

(** A schedule under which the main goroutine runs up to its wait, the
    goroutine of the storage account runs to its end, and the main
    goroutine runs on. *)
Definition storage_at_the_wait : list nat :=
  replicate 120 0 ++ replicate 8 1 ++ replicate 120 0.

(** What has happened before the creation of the virtual machine is
    issued: in the sequential variant the creation of the storage account
    has returned without error; in the concurrent variant it has returned
    without error to a goroutine, which has then signalled the wait group,
    after which the main goroutine has passed its wait. *)
Definition storedBefore (v : Variant) (before : list Event) : Prop :=
  match v with
  | Sequential =>
      ∃ b1 b2, before = b1 ++ EvReturn 0 theStorageAccount None :: b2
  | Concurrent =>
      ∃ t b1 b2 b3 b4,
        before = b1 ++ EvReturn t theStorageAccount None
                 :: b2 ++ EvWgDone t :: b3 ++ EvWgWait 0 :: b4
  end.

(** The reference [buildNIRs] makes of an interface that has a name. *)
Definition referenceOf (nic : Interface) : NetworkInterfaceReference :=
  {| nir_ID := nic_ID nic;
     nir_props := Some {| nir_Primary :=
       Some (bool_decide (nic_Name nic = Some nicNameFrontEnd)) |} |}.

Definition three_subnets : list Subnet :=
  [ {| sub_ID := Some "subnet-1"; sub_Name := Some "Front-end"; sub_props := None |};
    {| sub_ID := Some "subnet-2"; sub_Name := Some "Mid-tier"; sub_props := None |};
    {| sub_ID := Some "subnet-3"; sub_Name := Some "Back-end"; sub_props := None |} ].

(** ** Vocabulary of the further properties *)

(** The lines [printNIC] prints for an interface, when all the fields it
    dereferences are present. *)
Definition report (nic : Interface) : option (list string) :=
  name ← nic_Name nic;
  location ← nic_Location nic;
  forwarding ← enableIPForwardingOf nic;
  mac ← macAddressOf nic;
  privateIP ← privateIPAddressOf nic;
  cprops ← firstIPConfiguration nic;
  subnetID ← subnetIDOf nic;
  Some [ "Network interface '" +:+ name +:+ "'" +:+ nl;
         tab +:+ "Location:                    " +:+ location +:+ nl;
         tab +:+ "IP forwarding enabled:       " +:+ fmt_bool forwarding +:+ nl;
         tab +:+ "MAC address:                 " +:+ mac +:+ nl;
         tab +:+ "Private IP:                  " +:+ privateIP +:+ nl;
         tab +:+ "Private allocation method:   " +:+ PrivateIPAllocationMethod cprops +:+ nl;
         tab +:+ "Primary virtual network ID:  " +:+ subnetID +:+ nl;
         nl ].

Definition reports (nics : list Interface) : list string :=
  concat (omap report nics).

(** The DNS label asked for a public IP address. *)
Definition dnsLabelOf (pip : PublicIPAddress) : option string :=
  props ← pip_props pip; dns ← DNSSettings props; DomainNameLabel dns.

(** The subnet of the first IP configuration of an interface, the names
    of its IP configurations, and its allocation method. *)
Definition subnetOf (nic : Interface) : option Subnet :=
  cprops ← firstIPConfiguration nic; ipc_Subnet cprops.

Definition configNames (nic : Interface) : option (list (option string)) :=
  props ← nic_props nic;
  configs ← IPConfigurations props;
  Some (ipc_Name <$> (configs : list InterfaceIPConfiguration)).

Definition allocationOf (nic : Interface) : option IPAllocationMethod :=
  PrivateIPAllocationMethod <$> firstIPConfiguration nic.

(** For every interface, whether it has the name of the front end. *)
Definition frontEndFlags (nics : list Interface) : list (option bool) :=
  (λ nic, Some (bool_decide (nic_Name nic = Some nicNameFrontEnd))) <$> nics.

(** Everything [init] needs is there: the four variables are set and the
    two constructors of the SDK accept them. *)
Definition ready (E : Env) : Prop :=
  firstMissing E = None
  ∧ OAuthConfigForTenant E (Getenv E "AZURE_TENANT_ID") = None
  ∧ NewServicePrincipalToken E (Getenv E "AZURE_TENANT_ID") (Getenv E "AZURE_CLIENT_ID")
      (Getenv E "AZURE_CLIENT_SECRET") = None.

(** A collaborator that reports no error and returns every subnet with a
    name and every interface under the name it was asked for. *)
Definition obliging (w : Oracle) : Prop :=
  (∀ h c, (w h c).2 = None)
  ∧ (∀ h n, is_Some (sub_Name (w h (SubnetsGet groupName vNetName n)).1))
  ∧ (∀ h n, nic_Name (w h (InterfacesGet groupName n)).1 = Some n).

(** Interfaces and lists the examples use: an interface with every field
    [printNIC] reads, a second interface named like the front end, and what
    the faithful collaborator returns for the subnets and the interfaces
    of the script. *)
Definition nic_full : Interface :=
  {| nic_ID := Some "id-1"; nic_Name := Some nicNameFrontEnd;
     nic_Location := Some westUS;
     nic_props := Some {|
       IPConfigurations := Some [ {| ipc_Name := Some "IPconfig1"; ipc_props := Some {|
         PrivateIPAddress := Some "172.16.1.4"; PrivateIPAllocationMethod := Dynamic;
         ipc_Subnet := Some {| sub_ID := Some "subnet-1"; sub_Name := Some "Front-end";
                               sub_props := None |};
         ipc_Primary := Some true; ipc_PublicIPAddress := None |} |} ];
       MacAddress := Some "00-0D-3A-00-00-01"; EnableIPForwarding := Some true |} |}.

Definition nic_twin : Interface :=
  {| nic_ID := Some "id-4"; nic_Name := Some nicNameFrontEnd;
     nic_Location := Some westUS;
     nic_props := Some {|
       IPConfigurations := Some [ {| ipc_Name := Some "IPconfig4";
                                     ipc_props := Some config_1 |} ];
       MacAddress := None; EnableIPForwarding := None |} |}.

Definition fetched_subnets : list Subnet :=
  (λ n, (faithful [] (SubnetsGet groupName vNetName n)).1) <$> subnetNames.

Definition fetched_nics : list Interface :=
  (λ n, (faithful [] (InterfacesGet groupName n)).1) <$> nicNames.

(** ** Vocabulary of the script *)

(** The package-level clients. *)
Inductive Client :=
  | groupClient | vNetClient | subnetClient | addressClient
  | interfacesClient | accountClient | vmClient.

(** What a goroutine does, without the data: a request sent through a
    client's method for a resource name, its answer without error, a line
    of input read, and the operations on the wait group and on
    goroutines. *)
Inductive Step :=
  | Request (client : Client) (method resource : string)
  | Response (client : Client) (method resource : string)
  | Prompt
  | Add (delta : Z)
  | Spawn
  | Wait
  | Done.

Definition clientOf (c : Call) : Client :=
  match c with
  | GroupsCreateOrUpdate _ _ | GroupsDelete _ => groupClient
  | VirtualNetworksCreateOrUpdate _ _ _ => vNetClient
  | SubnetsCreateOrUpdate _ _ _ _ | SubnetsGet _ _ _ => subnetClient
  | PublicIPAddressesCreateOrUpdate _ _ _ | PublicIPAddressesGet _ _ => addressClient
  | InterfacesCreateOrUpdate _ _ _ | InterfacesGet _ _ | InterfacesList _
  | InterfacesDelete _ _ => interfacesClient
  | AccountsCreate _ _ _ _ => accountClient
  | VirtualMachinesCreateOrUpdate _ _ _ | VirtualMachinesDelete _ _ => vmClient
  end.

Definition methodOf (c : Call) : string :=
  match c with
  | GroupsCreateOrUpdate _ _ | VirtualNetworksCreateOrUpdate _ _ _
  | SubnetsCreateOrUpdate _ _ _ _ | PublicIPAddressesCreateOrUpdate _ _ _
  | InterfacesCreateOrUpdate _ _ _ | VirtualMachinesCreateOrUpdate _ _ _ => "CreateOrUpdate"
  | SubnetsGet _ _ _ | PublicIPAddressesGet _ _ | InterfacesGet _ _ => "Get"
  | InterfacesList _ => "List"
  | GroupsDelete _ | InterfacesDelete _ _ | VirtualMachinesDelete _ _ => "Delete"
  | AccountsCreate _ _ _ _ => "Create"
  end.

(** The name of the resource a call is about; for the list call, the
    resource group. *)
Definition resourceOf (c : Call) : string :=
  match c with
  | GroupsCreateOrUpdate g _ | GroupsDelete g | InterfacesList g => g
  | VirtualNetworksCreateOrUpdate _ n _ | SubnetsCreateOrUpdate _ _ n _
  | SubnetsGet _ _ n | PublicIPAddressesCreateOrUpdate _ n _
  | PublicIPAddressesGet _ n | InterfacesCreateOrUpdate _ n _ | InterfacesGet _ n
  | InterfacesDelete _ n | AccountsCreate _ n _ _
  | VirtualMachinesCreateOrUpdate _ n _ | VirtualMachinesDelete _ n => n
  end.

Definition requestOf (c : Call) : Step := Request (clientOf c) (methodOf c) (resourceOf c).
Definition responseOf (c : Call) : Step := Response (clientOf c) (methodOf c) (resourceOf c).

Definition stepOf (ev : Event) : option Step :=
  match ev with
  | EvIssue _ c => Some (requestOf c)
  | EvReturn _ c None => Some (responseOf c)
  | EvScan _ => Some Prompt
  | EvWgAdd _ delta => Some (Add delta)
  | EvGo _ _ => Some Spawn
  | EvWgWait _ => Some Wait
  | EvWgDone _ => Some Done
  | EvReturn _ _ (Some _) | EvPrint _ _ | EvExit _ _ | EvPanic _ => None
  end.

Definition stepsOf (evs : list Event) : list Step := omap stepOf evs.

(** A call made and answered without error. *)
Definition exchange (client : Client) (method resource : string) : list Step :=
  [Request client method resource; Response client method resource].

(** The script of the networking resources, of the storage account, and
    of what follows the creation of both. *)
Definition networking : list Step :=
  exchange vNetClient "CreateOrUpdate" vNetName
  ++ (subnetNames ≫= λ n,
        exchange subnetClient "CreateOrUpdate" n ++ exchange subnetClient "Get" n)
  ++ exchange addressClient "CreateOrUpdate" "pip1"
  ++ exchange addressClient "Get" "pip1"
  ++ (nicNames ≫= λ n,
        exchange interfacesClient "CreateOrUpdate" n ++ exchange interfacesClient "Get" n).

Definition storage : list Step := exchange accountClient "Create" accountName.

Definition machineAndTeardown : list Step :=
  exchange vmClient "CreateOrUpdate" vmName
  ++ exchange addressClient "CreateOrUpdate" "pip2"
  ++ exchange addressClient "Get" "pip2"
  ++ exchange interfacesClient "CreateOrUpdate" nicNameFrontEnd
  ++ exchange interfacesClient "List" groupName
  ++ [Prompt]
  ++ exchange vmClient "Delete" vmName
  ++ exchange interfacesClient "Delete" nicNameMidTier
  ++ exchange interfacesClient "List" groupName
  ++ [Prompt]
  ++ exchange groupClient "Delete" groupName.

(** The script of goroutine [tid] of variant [v]: the main goroutine is
    number 0, and every other one creates the storage account. *)
Definition script (v : Variant) (tid : nat) : list Step :=
  match tid, v with
  | 0, Sequential =>
      exchange groupClient "CreateOrUpdate" groupName
      ++ networking ++ storage ++ machineAndTeardown
  | 0, Concurrent =>
      exchange groupClient "CreateOrUpdate" groupName
      ++ [Add 1; Spawn] ++ networking ++ [Wait] ++ machineAndTeardown
  | S _, _ => storage ++ [Done]
  end.

(** The goroutines that goroutine [tid] of variant [v] may start. *)
Definition Child (v : Variant) (tid : nat) (child : Prog unit) : Prop :=
  v = Concurrent ∧ tid = 0 ∧ child = createStorageAccount Concurrent.

(** The request [onErrorFail] sends before it exits, in the concurrent
    variant. *)
Definition cleanup : Step := Request groupClient "Delete" groupName.

(** A program that is failing: it prints, in the concurrent variant it
    sends the deletion of the resource group, and it exits with status
    1. *)
Fixpoint Failing (v : Variant) {A : Type} (p : Prog A) : Prop :=
  match p with
  | Print _ k => Failing v k
  | Issue c k => v = Concurrent ∧ c = GroupsDelete groupName ∧ k = Exit 1
  | Exit code => code = 1%Z
  | _ => False
  end.

(** A program that follows the script [ks]: on every path on which no
    call fails and nothing panics it performs the steps of [ks], in order,
    and returns; when a call fails it is failing from there on. *)
Fixpoint Script (v : Variant) (C : Prog unit → Prop) {A : Type} (ks : list Step)
    (p : Prog A) : Prop :=
  match p with
  | Ret _ => ks = []
  | Panic => True
  | Exit _ => False
  | Print _ k => Script v C ks k
  | Scanln k => ∃ ks', ks = Prompt :: ks' ∧ Script v C ks' k
  | Issue c k => ∃ ks', ks = requestOf c :: ks' ∧ Script v C ks' k
  | Await c k =>
      ∀ r : Reply c,
        match r.2 with
        | None => ∃ ks', ks = responseOf c :: ks' ∧ Script v C ks' (k r)
        | Some _ => Failing v (k r)
        end
  | WgAdd delta k => ∃ ks', ks = Add delta :: ks' ∧ Script v C ks' k
  | WgDone k => ∃ ks', ks = Done :: ks' ∧ Script v C ks' k
  | WgWait k => ∃ ks', ks = Wait :: ks' ∧ Script v C ks' k
  | Go child k => C child ∧ ∃ ks', ks = Spawn :: ks' ∧ Script v C ks' k
  end.

(** Goroutine state [q], after the events [evs], follows the script [ks]:
    either no call has failed, the steps done are the first ones of the
    script and [q] follows the rest; or the answer the script was waiting
    for was an error, the only one, and since then the goroutine has done
    no step, but for the clean-up after which it is about to exit. *)
Definition Follows (v : Variant) (C : Prog unit → Prop) (ks : list Step) {A : Type}
    (q : Prog A) (evs : list Event) : Prop :=
  (∃ rest, ks = stepsOf evs ++ rest ∧ Script v C rest q ∧ failures evs = [])
  ∨ (∃ did rest c e,
       ks = did ++ responseOf c :: rest
       ∧ failures evs = [(c, e)]
       ∧ ((stepsOf evs = did ∧ Failing v q)
          ∨ (v = Concurrent ∧ stepsOf evs = did ++ [cleanup] ∧ q = Exit 1))).

(** One step of a goroutine, seen from the goroutine. *)
Inductive LocalStep {A : Type} (tid : nat) : Prog A → Event → Prog A → Prop :=
  | step_print s k : LocalStep tid (Print s k) (EvPrint tid s) k
  | step_scan k : LocalStep tid (Scanln k) (EvScan tid) k
  | step_issue c k : LocalStep tid (Issue c k) (EvIssue tid c) k
  | step_await c k r : LocalStep tid (Await c k) (EvReturn tid c r.2) (k r)
  | step_add delta k : LocalStep tid (WgAdd delta k) (EvWgAdd tid delta) k
  | step_done k : LocalStep tid (WgDone k) (EvWgDone tid) k
  | step_wait k : LocalStep tid (WgWait k) (EvWgWait tid) k
  | step_go child k n : LocalStep tid (Go child k) (EvGo tid n) k.

(** How a run of [exec] ends, as a state of the program. *)
Definition Ends {A : Type} (out : Outcome A) (q : Prog A) : Prop :=
  match out with
  | Returned a => q = Ret a
  | Exited code => q = Exit code
  | Panicked => q = Panic
  | NeedsScheduler => True
  end.

(** ** Vocabulary of the wait group and of the end of the process *)

#[export] Instance Variant_eq_dec : EqDecision Variant.
Proof. solve_decision. Defined.

#[export] Instance Client_eq_dec : EqDecision Client.
Proof. solve_decision. Defined.

#[export] Instance Step_eq_dec : EqDecision Step.
Proof. solve_decision. Defined.

(** What a step does to the counter of the wait group. *)
Definition gain (k : Step) : Z :=
  match k with
  | Add delta => delta
  | Done => -1
  | _ => 0
  end.

Definition weight (ks : list Step) : Z := foldr (λ k z, (gain k + z)%Z) 0%Z ks.

Definition spawns (ks : list Step) : nat := length (filter (λ k, k = Spawn) ks).

(** What the scripts say of the wait group, at the point where [n] steps
    of the script of goroutine [tid] are done. *)
Definition waitGroupTable (v : Variant) (tid n : nat) : Prop :=
  let pre := take n (script v tid) in
  let post := drop n (script v tid) in
  (spawns pre ≤ 1)%nat
  ∧ (spawns pre = 1%nat → tid = 0 ∧ v = Concurrent ∧ (weight pre = 1)%Z)
  ∧ (Wait ∈ pre → spawns pre = 1%nat)
  ∧ match head post with
    | Some (Add delta) =>
        tid = 0 ∧ delta = 1%Z ∧ weight pre = 0%Z ∧ spawns pre = 0%nat ∧ Wait ∉ pre
    | Some Done => tid ≠ 0 ∧ weight pre = 0%Z
    | Some Wait => tid = 0 ∧ weight pre = 1%Z ∧ spawns pre = 1%nat
    | Some Spawn => tid = 0 ∧ spawns pre = 0%nat
    | _ => True
    end
  ∧ (tid ≠ 0 → weight pre = 0%Z ∨ (weight pre = (-1)%Z ∧ post = []))
  ∧ (tid ≠ 0 → spawns pre = 0%nat)
  ∧ (tid = 0 → (weight pre = 0%Z ∧ Add 1 ∉ pre) ∨ (weight pre = 1%Z ∧ Add 1 ∈ pre))
  ∧ (tid ≠ 0 → (Done ∈ pre ↔ weight pre = (-1)%Z))
  ∧ (tid ≠ 0 → post = [] → weight pre = (-1)%Z)
  ∧ (tid = 0 → post = [] →
       match v with
       | Sequential => spawns pre = 0%nat
       | Concurrent => spawns pre = 1%nat ∧ Wait ∈ pre ∧ weight pre = 1%Z
       end).

#[export] Instance waitGroupTable_dec v tid n : Decision (waitGroupTable v tid n).
Proof.
  unfold waitGroupTable. simpl.
  destruct (head (drop n (script v tid))) as [[]|], v; apply _.
Defined.

(** How the process has ended with status [code]: the main goroutine has
    returned, or a goroutine has exited with status 1 or has panicked,
    and that was the last event. *)
Definition Ended (m : Machine) (code : Z) : Prop :=
  (code = 0%Z ∧ threads m !! 0 = Some (Ret tt))
  ∨ (code = 1%Z ∧ ∃ tid, threads m !! tid = Some (Exit 1)
                         ∧ head (log m) = Some (EvExit tid 1))
  ∨ (code = 2%Z ∧ ∃ tid, threads m !! tid = Some Panic
                         ∧ head (log m) = Some (EvPanic tid)).

(** Every goroutine follows its script; there is one goroutine more than
    the main one has started; the counter of the wait group is what has
    been added to it minus the number of times it has been signalled, and
    it is zero once the main goroutine has waited; the process ends in
    one of the three ways above. *)
Definition Orderly (v : Variant) (m : Machine) : Prop :=
  (∀ tid q, threads m !! tid = Some q →
     Follows v (Child v tid) (script v tid) q (byThread tid (trace (log m))))
  ∧ Forall (λ ev, (eventTid ev < length (threads m))%nat) (log m)
  ∧ (∀ code, halted m = Some code → Ended m code)
  ∧ length (threads m) = S (spawns (stepsOf (byThread 0 (trace (log m)))))
  ∧ wg m = weight (stepsOf (trace (log m)))
  ∧ (Wait ∈ stepsOf (byThread 0 (trace (log m))) → wg m = 0%Z).

(** A goroutine that is not blocked: it has not returned, unless it is
    the main one, and it does not wait for a counter that is not zero. *)
Definition enabled (m : Machine) (tid : nat) (q : Prog unit) : Prop :=
  match q with
  | Ret _ => tid = 0
  | WgWait _ => wg m = 0%Z
  | _ => True
  end.

#[export] Instance enabled_dec m tid q : Decision (enabled m tid q).
Proof. destruct q; simpl; apply _. Defined.

(** The resource group has been created. *)
Definition groupCreated : Step := Response groupClient "CreateOrUpdate" groupName.

(** What the script of the main goroutine says of the resource group, at
    the point where [n] of its steps are done: a request is for the
    resource group or comes after its creation, and so does the start of a
    goroutine. *)
Definition groupTable (v : Variant) (n : nat) : Prop :=
  let pre := take n (script v 0) in
  let post := drop n (script v 0) in
  match head post with
  | Some (Request client method resource) =>
      Request client method resource = Request groupClient "CreateOrUpdate" groupName
      ∨ groupCreated ∈ pre
  | _ => True
  end
  ∧ (spawns pre = 1%nat → groupCreated ∈ pre).

#[export] Instance groupTable_dec v n : Decision (groupTable v n).
Proof.
  unfold groupTable. cbv zeta.
  destruct (head (drop n (script v 0))) as [[]|]; apply _.
Defined.

(** Every request in the log is the creation of the resource group, or
    the clean-up of a goroutine that has been told of an error, or comes
    after the creation of the resource group has returned. *)
Definition GroupFirst (v : Variant) (lg : list Event) : Prop :=
  ∀ before t c after,
    trace lg = before ++ EvIssue t c :: after →
    requestOf c = Request groupClient "CreateOrUpdate" groupName
    ∨ (v = Concurrent ∧ c = GroupsDelete groupName ∧ failures (byThread t before) ≠ [])
    ∨ groupCreated ∈ stepsOf (byThread 0 before).

(** * Properties *)

(** ** Running a sequence of operations *)

Ltac unfold_bind := unfold mbind, Prog_bind, mret, Prog_ret in *.

Lemma exec_bind {A B} (w : Oracle) (p : Prog A) (f : A → Prog B) (h : list Event) :
  exec w h (bind p f) =
    match exec w h p with
    | (Returned a, h') => exec w h' (f a)
    | (Exited code, h') => (Exited code, h')
    | (Panicked, h') => (Panicked, h')
    | (NeedsScheduler, h') => (NeedsScheduler, h')
    end.
Proof.
  revert B f h. induction p; intros B f h; simpl; auto.
Qed.

Lemma exec_forRange_Returned {X St} (w : Oracle) (body : nat → X → St → Prog St)
    (g : nat → X → St → St) (P : X → Prop) :
  (∀ i x s h, P x → ∃ h', exec w h (body i x s) = (Returned (g i x s), h')) →
  ∀ l i s h, Forall P l →
    ∃ h', exec w h (forRange i l body s) = (Returned (foldRange g i l s), h').
Proof.
  intros Hbody l. induction l as [|x l IH]; intros i s h Hl; simpl.
  - eauto.
  - inversion Hl as [|? ? Hx Hl']; subst.
    destruct (Hbody i x s h Hx) as [h1 E1].
    unfold_bind. rewrite exec_bind, E1. apply IH, Hl'.
Qed.

(** ** Building the references of the virtual machine *)

Lemma foldRange_snoc {X Y} (f : X → Y) (l : list X) (i : nat) (acc : list Y) :
  foldRange (λ _ x s, s ++ [f x]) i l acc = acc ++ (f <$> l).
Proof.
  revert i acc. induction l as [|x l IH]; intros i acc; simpl.
  - by rewrite app_nil_r.
  - rewrite IH. by rewrite <- app_assoc.
Qed.

Lemma buildNIRs_Returned (v : Variant) (w : Oracle) (nics : list Interface)
    (h : list Event) :
  Forall named nics →
  ∃ h', exec w h (buildNIRs v nics) = (Returned (referenceOf <$> nics), h').
Proof.
  intros Hnamed. unfold buildNIRs. unfold_bind. simpl.
  match goal with
  | |- context [forRange 0 nics ?body []] =>
      destruct (exec_forRange_Returned w body
                  (λ _ nic nirs, nirs ++ [referenceOf nic]) named) with
        (l := nics) (i := 0) (s := @nil NetworkInterfaceReference)
        (h := EvPrint 0 ("Assign NIC to Network Interface References (NIRs) " +:+ nl) :: h)
        as [h' E]; [|exact Hnamed|]
  end.
  2: { rewrite E, foldRange_snoc. simpl. eauto. }
  intros i [id nm loc props] nirs h0 [name Hname]. simpl in Hname. subst nm.
  unfold referenceOf, isFrontEnd. simpl.
  assert (Hd : bool_decide (Some name = Some nicNameFrontEnd)
               = bool_decide (name = nicNameFrontEnd)).
  { apply bool_decide_ext. split; congruence. }
  rewrite Hd.
  destruct v; unfold_bind; simpl;
    destruct (bool_decide (name = nicNameFrontEnd)); simpl; eauto.
Qed.

Lemma createdInterfaces_named (nics : list Interface) :
  createdInterfaces nics → Forall named nics.
Proof.
  unfold createdInterfaces. intros Hperm. apply Forall_forall. intros nic Hnic.
  assert (Hin : nic_Name nic ∈ Some <$> nicNames).
  { rewrite <- Hperm. by apply list_elem_of_fmap_2. }
  apply list_elem_of_fmap in Hin as (name & Hname & _).
  unfold named. rewrite Hname. eauto.
Qed.

Lemma createdInterfaces_NoDup (nics : list Interface) :
  createdInterfaces nics → NoDup (nic_Name <$> nics).
Proof.
  unfold createdInterfaces. intros Hperm. rewrite Hperm.
  apply (bool_decide_unpack _). by vm_compute.
Qed.

(** C10, amended.  For every list of interfaces that all have a name,
    [buildNIRs] returns a list of the same length whose reference at
    position [i] carries the resource ID of the interface at position [i]:
    nothing is dropped, duplicated or reordered. *)
Theorem buildNIRs_keeps_interfaces (v : Variant) (w : Oracle) (h : list Event)
    (nics : list Interface) :
  Forall named nics →
  ∃ nirs h',
    exec w h (buildNIRs v nics) = (Returned nirs, h')
    ∧ length nirs = length nics
    ∧ ∀ i nic, nics !! i = Some nic → nir_ID <$> nirs !! i = Some (nic_ID nic).
Proof.
  intros Hnamed.
  destruct (buildNIRs_Returned v w nics h Hnamed) as [h' E].
  exists (referenceOf <$> nics), h'. split; [exact E|]. split.
  - apply length_fmap.
  - intros i nic Hi. by rewrite list_lookup_fmap, Hi.
Qed.

Lemma buildNIRs_keeps_interfaces_witness :
  ∃ nirs h',
    exec accepting [] (buildNIRs Concurrent [nic_a; nic_b]) = (Returned nirs, h')
    ∧ length nirs = length [nic_a; nic_b]
    ∧ ∀ i nic, [nic_a; nic_b] !! i = Some nic → nir_ID <$> nirs !! i = Some (nic_ID nic).
Proof.
  apply (buildNIRs_keeps_interfaces Concurrent accepting [] [nic_a; nic_b]).
  repeat constructor; eexists; reflexivity.
Defined.

(** C10 as stated fails: an interface without a name is a value of the
    input type, and on it both variants panic at the first [Printf] of the
    loop instead of returning a list. *)
Lemma buildNIRs_nameless_panics :
  exec accepting [] (buildNIRs Sequential [nic_nameless])
    = (Panicked,
       [EvPanic 0;
        EvPrint 0 ("Assign NIC to Network Interface References (NIRs) " +:+ nl)])
  ∧ exec accepting [] (buildNIRs Concurrent [nic_nameless])
    = (Panicked,
       [EvPanic 0;
        EvPrint 0 ("Assign NIC to Network Interface References (NIRs) " +:+ nl)]).
Proof. split; reflexivity. Qed.

(** C1.  For every list made of the created interfaces, in whatever
    order, exactly one of the references [buildNIRs] returns has its
    [Primary] flag set to true: the one at the position of the interface
    named [nicNameFrontEnd], whose ID it carries; every other reference has
    the flag set to false. *)
Theorem buildNIRs_one_primary (v : Variant) (w : Oracle) (h : list Event)
    (nics : list Interface) :
  createdInterfaces nics →
  ∃ nirs h',
    exec w h (buildNIRs v nics) = (Returned nirs, h')
    ∧ length nirs = length nics
    ∧ ∃ i nic,
        nics !! i = Some nic
        ∧ nic_Name nic = Some nicNameFrontEnd
        ∧ nir_ID <$> nirs !! i = Some (nic_ID nic)
        ∧ ∀ j nir, nirs !! j = Some nir →
            primaryFlag nir = Some (bool_decide (j = i)).
Proof.
  intros Hcreated.
  destruct (buildNIRs_Returned v w nics h (createdInterfaces_named _ Hcreated))
    as [h' E].
  exists (referenceOf <$> nics), h'. split; [exact E|].
  split; [apply length_fmap|].
  assert (Hin : Some nicNameFrontEnd ∈ nic_Name <$> nics).
  { unfold createdInterfaces in Hcreated. rewrite Hcreated.
    apply list_elem_of_fmap_2. apply list_elem_of_here. }
  apply list_elem_of_lookup in Hin as [i Hi].
  rewrite list_lookup_fmap in Hi.
  destruct (nics !! i) as [nic|] eqn:Hnic; [|done].
  simpl in Hi. injection Hi as Hname.
  exists i, nic. repeat split; auto.
  - by rewrite list_lookup_fmap, Hnic.
  - intros j nir Hj. rewrite list_lookup_fmap in Hj.
    destruct (nics !! j) as [nic'|] eqn:Hnic'; [|done].
    simpl in Hj. injection Hj as <-.
    unfold primaryFlag, referenceOf. simpl. f_equal.
    apply bool_decide_ext. split.
    + intros Hname'.
      apply (NoDup_lookup (nic_Name <$> nics) j i (Some nicNameFrontEnd)).
      * by apply createdInterfaces_NoDup.
      * by rewrite list_lookup_fmap, Hnic'; simpl; f_equal.
      * by rewrite list_lookup_fmap, Hnic; simpl; f_equal.
    + intros ->. congruence.
Qed.

Lemma buildNIRs_one_primary_witness :
  createdInterfaces [nic_a; nic_b; nic_c]
  ∧ ∃ nirs h',
      exec accepting [] (buildNIRs Sequential [nic_a; nic_b; nic_c]) = (Returned nirs, h')
      ∧ length nirs = length [nic_a; nic_b; nic_c]
      ∧ ∃ i nic,
          [nic_a; nic_b; nic_c] !! i = Some nic
          ∧ nic_Name nic = Some nicNameFrontEnd
          ∧ nir_ID <$> nirs !! i = Some (nic_ID nic)
          ∧ ∀ j nir, nirs !! j = Some nir →
              primaryFlag nir = Some (bool_decide (j = i)).
Proof.
  assert (H : createdInterfaces [nic_a; nic_b; nic_c]).
  { unfold createdInterfaces. simpl.
    change [Some "nic3"; Some "nic1"; Some "nic2"]
      with ([Some "nic3"] ++ [Some "nic1"; Some "nic2"]).
    rewrite Permutation_app_comm. reflexivity. }
  split; [exact H|].
  exact (buildNIRs_one_primary Sequential accepting [] [nic_a; nic_b; nic_c] H).
Defined.

(** ** Deleting an interface *)

(** A run that starts after [h] is a run from the empty log against the
    collaborator that already knows [h]; the properties of the single
    functions are therefore stated from the empty log. *)
Lemma exec_shift {A} (w : Oracle) (p : Prog A) (h1 h : list Event) :
  exec w (h1 ++ h) p =
    let '(out, log) := exec (λ l, w (l ++ h)) h1 p in (out, log ++ h).
Proof.
  revert h1. induction p; intros h1; simpl; auto;
    try (rewrite app_comm_cons; auto).
Qed.

(** Splits on what the collaborator answers to call [c]. *)
Ltac ask w c :=
  let E := fresh "E" in
  destruct (w _ c) as [? [?|]] eqn:E; simpl.

(** Splits on what the collaborator answers to the next call. *)
Ltac ask_next w :=
  match goal with
  | |- context [w ?h ?c] => destruct (w h c) as [? [?|]] eqn:?; simpl
  end.

Lemma first_then_others (first : Call) (P : Call → Prop) (calls rest : list Call) :
  calls = first :: rest →
  Forall P rest →
  ∀ before c after, c ≠ first → calls = before ++ c :: after →
    first ∈ before ∧ P c.
Proof.
  intros -> Hrest before c after Hne Heq.
  destruct before as [|c0 before]; simpl in Heq; simplify_eq.
  split; [apply list_elem_of_here|].
  rewrite Forall_forall in Hrest. apply Hrest.
  apply elem_of_app. right. apply list_elem_of_here.
Qed.

(** C4.  Whatever the collaborator answers, the first call [deleteNIC]
    issues is the deletion of the virtual machine; an interface deletion
    it issues is for the name it was given and comes after the deletion of
    the virtual machine, never first and never without it; and when no
    call fails both deletions are issued, in this order. *)
Theorem deleteNIC_vm_first (v : Variant) (w : Oracle) (nicName : string) :
  ∃ out log,
    exec w [] (deleteNIC v nicName) = (out, log)
    ∧ (∃ rest, issued (trace log) = VirtualMachinesDelete groupName vmName :: rest)
    ∧ (∀ before g n after,
         issued (trace log) = before ++ InterfacesDelete g n :: after →
         VirtualMachinesDelete groupName vmName ∈ before
         ∧ g = groupName ∧ n = nicName)
    ∧ (failures (trace log) = [] →
         out = Returned tt
         ∧ issued (trace log)
           = [VirtualMachinesDelete groupName vmName;
              InterfacesDelete groupName nicName]).
Proof.
  unfold deleteNIC. unfold_bind. simpl.
  ask w (VirtualMachinesDelete groupName vmName);
    [|ask w (InterfacesDelete groupName nicName)];
    destruct v; simpl; eexists _, _; (split; [reflexivity|]);
    (split; [eexists; reflexivity|]); (split; [|done]).
  all: intros before g n after Hsplit.
  all: eapply (first_then_others _
         (λ c, ∀ g n, c = InterfacesDelete g n → g = groupName ∧ n = nicName))
         in Hsplit as [Hin Hc]; [| reflexivity | | done].
  all: try (split; [exact Hin | by apply Hc]).
  all: repeat constructor; intros; simplify_eq; done.
Qed.

Lemma deleteNIC_vm_first_witness :
  issued (trace (exec faithful [] (deleteNIC Concurrent nicNameMidTier)).2)
  = [VirtualMachinesDelete groupName vmName; InterfacesDelete groupName nicNameMidTier].
Proof.
  destruct (deleteNIC_vm_first Concurrent faithful nicNameMidTier)
    as (out & lg & E & _ & _ & Hok).
  rewrite E. simpl. apply Hok.
  pose proof E as E'. vm_compute in E'. injection E' as _ <-. reflexivity.
Defined.

(** ** Listing the interfaces *)

Ltac absent_field :=
  split;
  [ let Hp := fresh "Hp" in
    intros Hp; exfalso; cbv in Hp;
    destruct Hp as ([? ?] & [? ?] & [? ?] & [? ?] & [? ?] & [? ?]); discriminate
  | intros _; simpl; eauto ].

Lemma printNIC_outcome (w : Oracle) (h : list Event) (nic : Interface) :
  (fieldsPresent nic → ∃ h', exec w h (printNIC nic) = (Returned tt, h'))
  ∧ (¬ fieldsPresent nic → ∃ h', exec w h (printNIC nic) = (Panicked, h')).
Proof.
  destruct nic as [id name loc props].
  destruct name as [name|], loc as [loc|], props as [[configs mac fwd]|];
    try absent_field.
  destruct fwd as [fwd|], mac as [mac|],
    configs as [[|[cname [[ip method subnet primary pip]|]] configs]|];
    try absent_field.
  destruct ip as [ip|], subnet as [[[sid|] sname sprops]|]; try absent_field.
  split; [intros _; simpl; eauto|].
  intros Hn. exfalso. apply Hn. repeat split; cbv; eauto.
Qed.

Lemma printNIC_loop (w : Oracle) (nics : list Interface) (i : nat) (h : list Event) :
  Exists (λ nic, ¬ fieldsPresent nic) nics →
  ∃ h', exec w h (forRange i nics (λ _ nic _, printNIC nic) tt) = (Panicked, h').
Proof.
  revert i h. induction nics as [|nic nics IH]; intros i h Hex.
  - inversion Hex.
  - simpl. unfold_bind. rewrite exec_bind.
    destruct (decide (fieldsPresent nic)) as [Hp|Hp].
    + destruct (proj1 (printNIC_outcome w h nic) Hp) as [h1 ->].
      apply IH. inversion Hex; subst; done.
    + destruct (proj2 (printNIC_outcome w h nic) Hp) as [h1 ->]. eauto.
Qed.

(** C9.  [printNIC] returns when the name, the location, the forwarding
    flag, the MAC address, the private IP address of the first IP
    configuration and the ID of its subnet are all present; when one of
    them is absent it panics, and so does [listNICs] when the list call
    succeeds and returns a list that holds such an interface. *)
Theorem printNIC_requires_fields (w : Oracle) (nic : Interface) :
  (fieldsPresent nic → (exec w [] (printNIC nic)).1 = Returned tt)
  ∧ (¬ fieldsPresent nic →
       (exec w [] (printNIC nic)).1 = Panicked
       ∧ ∀ v list nics,
           w [EvIssue 0 (InterfacesList groupName); EvPrint 0 ("Listing NICs" +:+ nl)]
             (InterfacesList groupName) = (list, None) →
           Value list = Some nics →
           nic ∈ nics →
           (exec w [] (listNICs v)).1 = Panicked).
Proof.
  split.
  { intros Hp. by destruct (proj1 (printNIC_outcome w [] nic) Hp) as [h' ->]. }
  intros Hn. split.
  - by destruct (proj2 (printNIC_outcome w [] nic) Hn) as [h' ->].
  - intros v [value] nics Hreply Hvalue Hin. simpl in Hvalue. subst value.
    unfold listNICs. unfold_bind. simpl. rewrite Hreply. simpl.
    assert (Hex : Exists (λ nic, ¬ fieldsPresent nic) nics).
    { apply Exists_exists. eauto. }
    destruct nics as [|nic0 nics]; [inversion Hex|].
    match goal with
    | |- context [exec w ?h0 (forRange 0 ?l ?body tt)] =>
        destruct (printNIC_loop w l 0 h0 Hex) as [h' E]
    end.
    by rewrite E.
Qed.

Lemma printNIC_requires_fields_witness :
  ¬ fieldsPresent nic_nameless
  ∧ (exec (listing [nic_nameless]) [] (printNIC nic_nameless)).1 = Panicked
  ∧ (exec (listing [nic_nameless]) [] (listNICs Concurrent)).1 = Panicked.
Proof.
  assert (H : ¬ fieldsPresent nic_nameless).
  { intros ([? ?] & _). discriminate. }
  split; [exact H|].
  destruct (proj2 (printNIC_requires_fields (listing [nic_nameless]) nic_nameless) H)
    as [H1 H2].
  split; [exact H1|].
  apply (H2 Concurrent {| Value := Some [nic_nameless] |} [nic_nameless]).
  - reflexivity.
  - reflexivity.
  - apply list_elem_of_here.
Defined.

(** ** Attaching a public IP address *)

Lemma scan_no_match (w : Oracle) (nicName : string) (nics : list Interface)
    (i index : nat) (h : list Event) :
  Forall named nics →
  Forall (λ nic, nic_Name nic ≠ Some nicName) nics →
  exec w h
    (forRange i nics
       (λ i nic index,
          bind (deref (nic_Name nic))
            (λ name, if decide (name = nicName) then Ret i else Ret index))
       index)
  = (Returned index, h).
Proof.
  revert i. induction nics as [|nic nics IH]; intros i Hnamed Hno; simpl; [done|].
  inversion Hnamed as [|? ? [name Hname] Hnamed']; subst.
  inversion Hno as [|? ? Hne Hno']; subst.
  unfold_bind. rewrite exec_bind. rewrite Hname. simpl.
  destruct (decide (name = nicName)) as [->|_]; [congruence|].
  simpl. by apply IH.
Qed.

(** C8, amended.  [updateNICwithPIP] scans the interfaces comparing names.
    For a non-empty list of named interfaces none of which has the given
    name, whose first interface has an IP configuration with its
    properties, and a public IP address that has a name, the index stays 0:
    the first interface is the one whose first IP configuration receives
    the public IP address and the primary flag, and it is pushed under the
    name that was asked for. *)
Theorem updateNICwithPIP_no_match (v : Variant) (w : Oracle) (nicName pipName : string)
    (pip : PublicIPAddress) (id name0 loc cname mac : option string)
    (fwd : option bool) (cprops : InterfaceIPConfigurationPropertiesFormat)
    (configs : list InterfaceIPConfiguration) (rest : list Interface) :
  let first :=
    {| nic_ID := id; nic_Name := name0; nic_Location := loc;
       nic_props := Some {|
         IPConfigurations := Some ({| ipc_Name := cname; ipc_props := Some cprops |}
                                   :: configs);
         MacAddress := mac; EnableIPForwarding := fwd |} |} in
  let pushed :=
    {| nic_ID := id; nic_Name := name0; nic_Location := loc;
       nic_props := Some {|
         IPConfigurations := Some ({| ipc_Name := cname; ipc_props := Some {|
             PrivateIPAddress := PrivateIPAddress cprops;
             PrivateIPAllocationMethod := PrivateIPAllocationMethod cprops;
             ipc_Subnet := ipc_Subnet cprops;
             ipc_Primary := Some true;
             ipc_PublicIPAddress := Some pip |} |} :: configs);
         MacAddress := mac; EnableIPForwarding := fwd |} |} in
  pip_Name pip = Some pipName →
  Forall named (first :: rest) →
  Forall (λ nic, nic_Name nic ≠ Some nicName) (first :: rest) →
  ∃ out log,
    exec w [] (updateNICwithPIP v nicName (first :: rest) pip) = (out, log)
    ∧ (∃ others,
         issued (trace log)
           = InterfacesCreateOrUpdate groupName nicName pushed :: others
         ∧ (others = [] ∨ others = [GroupsDelete groupName]))
    ∧ (failures (trace log) = [] → out = Returned (pushed :: rest)).
Proof.
  intros first pushed Hpip Hnamed Hno.
  unfold updateNICwithPIP. unfold_bind.
  rewrite exec_bind, (scan_no_match w nicName (first :: rest) 0 0 [] Hnamed Hno).
  rewrite Hpip. simpl.
  subst first pushed. ask_next w;
    destruct v; simpl; eexists _, _; (split; [reflexivity|]);
    (split; [eexists; split; [reflexivity|auto] | done]).
Qed.

Lemma updateNICwithPIP_no_match_witness :
  ∃ out log,
    exec accepting [] (updateNICwithPIP Concurrent nicNameFrontEnd [nic_back; nic_c] pip_2)
      = (out, log)
    ∧ ∃ pushed others,
        issued (trace log)
          = InterfacesCreateOrUpdate groupName nicNameFrontEnd pushed :: others
        ∧ nic_Name pushed = Some nicNameBackEnd
        ∧ publicIPAddressOf pushed = Some pip_2
        ∧ primaryOf pushed = Some true.
Proof.
  destruct (updateNICwithPIP_no_match Concurrent accepting nicNameFrontEnd "pip2" pip_2
              (Some "id-3") (Some nicNameBackEnd) (Some westUS) (Some "IPconfig3")
              None None config_1 [] [nic_c])
    as (out & log & E & (others & Hissued & _) & _).
  - reflexivity.
  - repeat constructor; eexists; reflexivity.
  - repeat constructor; discriminate.
  - exists out, log. split; [exact E|].
    eexists _, others. split; [exact Hissued|].
    split; [reflexivity|]. split; reflexivity.
Defined.

(** C8 as stated fails where the scan or the update cannot be carried out:
    with an interface that has no name the comparison panics, and with a
    first interface that has no IP configuration the assignment panics; in
    both cases no update is pushed. *)
Lemma updateNICwithPIP_panics_without_match :
  (Forall (λ nic, nic_Name nic ≠ Some nicNameFrontEnd) [nic_nameless]
   ∧ exec accepting [] (updateNICwithPIP Sequential nicNameFrontEnd [nic_nameless] pip_2)
     = (Panicked, [EvPanic 0]))
  ∧ (Forall (λ nic, nic_Name nic ≠ Some nicNameFrontEnd) [nic_a]
     ∧ exec accepting [] (updateNICwithPIP Sequential nicNameFrontEnd [nic_a] pip_2)
       = (Panicked,
          [EvPanic 0; EvPrint 0 ("Update NIC 'nic1' with PIP 'pip2'" +:+ nl)])).
Proof.
  split; (split; [repeat constructor; discriminate | reflexivity]).
Qed.

(** ** Creating the subnets *)

(** C2.  The subnet creations [createSubnets] issues are, in order,
    Front-end with 172.16.1.0/24, Mid-tier with 172.16.2.0/24 and Back-end
    with 172.16.3.0/24, the subnet of index [i] getting the prefix
    172.16.(i+1).0/24: whatever the collaborator answers the creations
    issued are the first ones of these three, and when no call fails (and
    whenever the function returns) they are exactly the three and three
    subnets are returned. *)
Theorem createSubnets_prefixes (v : Variant) (w : Oracle) :
  expectedSubnets
    = imap (λ i n, (n, Some ("172.16." +:+ fmt_int (i + 1) +:+ ".0/24"))) subnetNames
  ∧ ∃ out log,
      exec w [] (createSubnets v) = (out, log)
      ∧ subnetRequests (trace log) `prefix_of` expectedSubnets
      ∧ (failures (trace log) = [] → ∃ subnets, out = Returned subnets)
      ∧ (∀ subnets, out = Returned subnets →
           subnetRequests (trace log) = expectedSubnets ∧ length subnets = 3).
Proof.
  split; [reflexivity|].
  unfold createSubnets. unfold_bind. destruct v; simpl.
  all: repeat ask_next w.
  all: eexists _, _; (split; [reflexivity|]).
  all: split; [by apply (bool_decide_unpack _); vm_compute|].
  all: split; [intros Hf; try discriminate Hf; eauto|].
  all: intros subnets Hout; try discriminate Hout.
  all: injection Hout as <-; split; reflexivity.
Qed.

Lemma createSubnets_prefixes_witness :
  subnetRequests (trace (exec faithful [] (createSubnets Concurrent)).2) = expectedSubnets.
Proof.
  destruct (createSubnets_prefixes Concurrent faithful)
    as (_ & out & lg & E & _ & Hret & Hall).
  rewrite E. simpl.
  destruct Hret as [subnets ->].
  { pose proof E as E'. vm_compute in E'. injection E' as _ <-. reflexivity. }
  by apply (Hall subnets).
Defined.

(** ** Creating the interfaces *)

(** C3.  The interface creations [createNICs] issues are for nic1, nic2
    and nic3 in this order (the first ones of the three, whatever happens;
    all three whenever the function returns, which it does when it finds
    three named subnets and no call fails).  The request for nic1 has IP
    forwarding enabled, its IP configuration marked primary and the given
    public IP address attached; in every other request the three fields
    are unset. *)
Theorem createNICs_front_end (v : Variant) (w : Oracle) (subnets : list Subnet)
    (pip : PublicIPAddress) :
  ∃ out log,
    exec w [] (createNICs v subnets pip) = (out, log)
    ∧ (nicRequests (trace log)).*1 `prefix_of` nicNames
    ∧ Forall (frontEndSettings pip) (nicRequests (trace log))
    ∧ (∀ nics, out = Returned nics →
         (nicRequests (trace log)).*1 = nicNames ∧ length nics = 3)
    ∧ (threeNamedSubnets subnets → failures (trace log) = [] →
         ∃ nics, out = Returned nics).
Proof.
  unfold createNICs. unfold_bind.
  destruct subnets as [|[id0 [n0|] p0] [|[id1 [n1|] p1] [|[id2 [n2|] p2] subnets]]];
    destruct v; simpl.
  all: repeat ask_next w.
  all: eexists _, _; (split; [reflexivity|]).
  all: split; [by apply (bool_decide_unpack _); vm_compute|].
  all: split; [repeat constructor|].
  all: split; [intros nics Hout; try discriminate Hout;
               injection Hout as <-; split; reflexivity|].
  all: intros Hsub Hf; try discriminate Hf; eauto.
  all: exfalso.
  all: first
         [ destruct (Hsub 0 ltac:(lia)) as (s & Hs & [? Hn]);
           simpl in Hs; simplify_eq; simpl in Hn; discriminate
         | destruct (Hsub 1 ltac:(lia)) as (s & Hs & [? Hn]);
           simpl in Hs; simplify_eq; simpl in Hn; discriminate
         | destruct (Hsub 2 ltac:(lia)) as (s & Hs & [? Hn]);
           simpl in Hs; simplify_eq; simpl in Hn; discriminate ].
Qed.

Lemma createNICs_front_end_witness :
  (nicRequests (trace (exec faithful [] (createNICs Sequential three_subnets pip_2)).2)).*1
  = nicNames
  ∧ Forall (frontEndSettings pip_2)
      (nicRequests (trace (exec faithful [] (createNICs Sequential three_subnets pip_2)).2)).
Proof.
  destruct (createNICs_front_end Sequential faithful three_subnets pip_2)
    as (out & lg & E & _ & Hsettings & Hall & Hret).
  rewrite E. simpl. split; [|exact Hsettings].
  destruct Hret as [nics ->].
  - intros i Hi. destruct i as [|[|[|i]]]; [eexists; split; [reflexivity|by eexists]..|lia].
  - pose proof E as E'. vm_compute in E'. injection E' as _ <-. reflexivity.
  - by apply (Hall nics).
Defined.

(** ** Start-up *)

Lemma exec_init_Exited (E : Env) (w : Oracle) (code : Z) (log : list Event) :
  exec w [] (init E) = (Exited code, log) →
  exec w [] (program E) = (Exited code, log).
Proof. intros H. unfold program. unfold_bind. by rewrite exec_bind, H. Qed.

(** C7, amended.  When a required environment variable is not set the
    sequential program exits with status 1 without having issued a remote
    call, after printing one line.  The line names the first missing
    variable, in the order subscription, tenant, client, client secret;
    except that, when subscription and tenant are set and the SDK rejects
    the tenant, the line is the failure of [OAuthConfigForTenant], and
    the missing client or client secret is not named. *)
Theorem init_missing_variable (E : Env) (w : Oracle) (var : string) :
  firstMissing E = Some var →
  ∃ log,
    exec w [] (program E) = (Exited 1, log)
    ∧ issued (trace log) = []
    ∧ var ∈ requiredVariables
    ∧ (var = "AZURE_SUBSCRIPTION_ID" ∨ var = "AZURE_TENANT_ID" →
         printed (trace log) = [missingMessage var])
    ∧ (var = "AZURE_CLIENT_ID" ∨ var = "AZURE_CLIENT_SECRET" →
         match OAuthConfigForTenant E (Getenv E "AZURE_TENANT_ID") with
         | None => printed (trace log) = [missingMessage var]
         | Some e => printed (trace log) = ["OAuthConfigForTenant failed: " +:+ e +:+ nl]
         end).
Proof.
  unfold firstMissing, requiredVariables. intros Hfirst.
  rewrite !filter_cons, filter_nil in Hfirst.
  cut (∃ log, exec w [] (init E) = (Exited 1, log)
              ∧ issued (trace log) = []
              ∧ var ∈ ["AZURE_SUBSCRIPTION_ID"; "AZURE_TENANT_ID"; "AZURE_CLIENT_ID";
                       "AZURE_CLIENT_SECRET"]
              ∧ (var = "AZURE_SUBSCRIPTION_ID" ∨ var = "AZURE_TENANT_ID" →
                   printed (trace log) = [missingMessage var])
              ∧ (var = "AZURE_CLIENT_ID" ∨ var = "AZURE_CLIENT_SECRET" →
                   match OAuthConfigForTenant E (Getenv E "AZURE_TENANT_ID") with
                   | None => printed (trace log) = [missingMessage var]
                   | Some e =>
                       printed (trace log) = ["OAuthConfigForTenant failed: " +:+ e +:+ nl]
                   end)).
  { intros (log & Hinit & H). exists log. split; [by apply exec_init_Exited | exact H]. }
  unfold init, getEnvVarOrExit. unfold_bind.
  destruct (decide (Getenv E "AZURE_SUBSCRIPTION_ID" = "")) as [Hs|Hs]; simpl.
  { simpl in Hfirst. injection Hfirst as <-. eexists. split; [reflexivity|].
    split; [done|]. split; [repeat constructor|].
    split; [done|]. by intros [H|H]. }
  destruct (decide (Getenv E "AZURE_TENANT_ID" = "")) as [Ht|Ht]; simpl.
  { simpl in Hfirst. injection Hfirst as <-. eexists. split; [reflexivity|].
    split; [done|]. split; [repeat constructor|].
    split; [done|]. by intros [H|H]. }
  destruct (OAuthConfigForTenant E (Getenv E "AZURE_TENANT_ID")) as [e|] eqn:Ho; simpl.
  { eexists. split; [reflexivity|]. split; [done|].
    simpl in Hfirst.
    destruct (decide (Getenv E "AZURE_CLIENT_ID" = "")) as [Hc|Hc];
      [|destruct (decide (Getenv E "AZURE_CLIENT_SECRET" = "")) as [Hk|Hk]];
      simpl in Hfirst; [| |discriminate Hfirst]; injection Hfirst as <-.
    - split; [repeat constructor|]. split; [by intros [H|H]|done].
    - split; [repeat constructor|]. split; [by intros [H|H]|done]. }
  destruct (decide (Getenv E "AZURE_CLIENT_ID" = "")) as [Hc|Hc]; simpl.
  { simpl in Hfirst. injection Hfirst as <-. eexists. split; [reflexivity|].
    split; [done|]. split; [repeat constructor|]. split; [by intros [H|H]|done]. }
  destruct (decide (Getenv E "AZURE_CLIENT_SECRET" = "")) as [Hk|Hk]; simpl.
  { simpl in Hfirst. injection Hfirst as <-. eexists. split; [reflexivity|].
    split; [done|]. split; [repeat constructor|]. split; [by intros [H|H]|done]. }
  discriminate Hfirst.
Qed.

Lemma init_missing_variable_witness :
  (firstMissing env_no_secret = Some "AZURE_CLIENT_SECRET"
   ∧ ∃ log,
       exec accepting [] (program env_no_secret) = (Exited 1, log)
       ∧ issued (trace log) = []
       ∧ printed (trace log) = [missingMessage "AZURE_CLIENT_SECRET"])
  ∧ (firstMissing env_rejected_tenant = Some "AZURE_CLIENT_ID"
     ∧ ∃ log,
         exec accepting [] (program env_rejected_tenant) = (Exited 1, log)
         ∧ issued (trace log) = []
         ∧ printed (trace log) = ["OAuthConfigForTenant failed: invalid URL escape" +:+ nl]).
Proof.
  split; (split; [reflexivity|]).
  - destruct (init_missing_variable env_no_secret accepting "AZURE_CLIENT_SECRET" eq_refl)
      as (log & Hexec & Hissued & _ & _ & Hline).
    exists log. split; [exact Hexec|]. split; [exact Hissued|].
    exact (Hline (or_intror eq_refl)).
  - destruct (init_missing_variable env_rejected_tenant accepting "AZURE_CLIENT_ID" eq_refl)
      as (log & Hexec & Hissued & _ & _ & Hline).
    exists log. split; [exact Hexec|]. split; [exact Hissued|].
    exact (Hline (or_introl eq_refl)).
Defined.

(** C7 as stated fails: with subscription and tenant set, client and
    secret missing, and a tenant the SDK rejects, the program exits with
    status 1 before any remote call, but what it prints is the failure of
    [OAuthConfigForTenant]; no missing variable is named. *)
Lemma init_rejected_tenant_names_no_variable :
  Getenv env_rejected_tenant "AZURE_CLIENT_ID" = ""
  ∧ exec accepting [] (program env_rejected_tenant)
    = (Exited 1,
       [EvExit 0 1;
        EvPrint 0 ("OAuthConfigForTenant failed: invalid URL escape" +:+ nl)])
  ∧ ∀ var, var ∈ requiredVariables →
      missingMessage var
      ∉ printed (trace (exec accepting [] (program env_rejected_tenant)).2).
Proof.
  split; [reflexivity|].
  assert (E : exec accepting [] (program env_rejected_tenant)
              = (Exited 1,
                 [EvExit 0 1;
                  EvPrint 0 ("OAuthConfigForTenant failed: invalid URL escape" +:+ nl)])).
  { by apply exec_init_Exited. }
  split; [exact E|].
  intros var Hvar. rewrite E. simpl.
  intros Hin. apply list_elem_of_singleton in Hin.
  unfold missingMessage in Hin. discriminate Hin.
Qed.

(** ** Failing fast *)

Lemma handler_bind {A B : Type} (v : Variant) (msg : string) (f : A → Prog B) :
  bind (handler v msg) f = handler v msg.
Proof. by destruct v. Qed.

Lemma FailFast_bind (v : Variant) {A B : Type} (p : Prog A) (f : A → Prog B) :
  FailFast v p → (∀ a, FailFast v (f a)) → FailFast v (bind p f).
Proof.
  revert B f. induction p as [| | | |A c k IH| | | | | |A child IHc k IHk];
    intros B f Hp Hf; simpl in *; auto.
  - intros r. specialize (Hp r). destruct (r.2).
    + rewrite Hp. apply handler_bind.
    + by apply IH.
  - destruct Hp as [Hc Hk]. split; [exact Hc | by apply IHk].
Qed.

Lemma FailFast_forRange (v : Variant) {X St} (body : nat → X → St → Prog St)
    (l : list X) (i : nat) (s : St) :
  (∀ i x s, FailFast v (body i x s)) → FailFast v (forRange i l body s).
Proof.
  intros Hbody. revert i s. induction l as [|x l IH]; intros i s; simpl; [done|].
  unfold_bind. by apply FailFast_bind.
Qed.

(** Goes through a function of the script, along every answer of the
    collaborator, with the lemmas for sequencing and for loops. *)
Ltac structural bind_lemma loop_lemma :=
  unfold_bind;
  repeat first
    [ progress simpl
    | progress unfold deref, indexAt
    | apply loop_lemma
    | apply bind_lemma
    | match goal with
      | |- ∀ r : Reply _, _ => intros [? [?|]]
      | |- ∀ _, _ => intro
      | |- _ ∧ _ => split
      | |- True => exact I
      | |- _ = _ => reflexivity
      | |- ¬ _ => first [discriminate | tauto]
      | |- context [match ?x with _ => _ end] => destruct x
      end ].

Ltac failfast := structural FailFast_bind FailFast_forRange.

Lemma FailFast_createResourceGroup v : FailFast v (createResourceGroup v).
Proof. unfold createResourceGroup. failfast. Qed.

Lemma FailFast_createVirtualNetwork v : FailFast v (createVirtualNetwork v).
Proof. unfold createVirtualNetwork. failfast. Qed.

Lemma FailFast_createSubnets v : FailFast v (createSubnets v).
Proof. unfold createSubnets. failfast. Qed.

Lemma FailFast_createPIP v pipName : FailFast v (createPIP v pipName).
Proof. unfold createPIP. failfast. Qed.

Lemma FailFast_createNICs v subnets pip : FailFast v (createNICs v subnets pip).
Proof. unfold createNICs. failfast. Qed.

Lemma FailFast_createStorageAccount v : FailFast v (createStorageAccount v).
Proof. unfold createStorageAccount. failfast. Qed.

Lemma FailFast_buildNIRs v nics : FailFast v (buildNIRs v nics).
Proof. unfold buildNIRs, isFrontEnd. failfast. Qed.

Lemma FailFast_createVM v nirs : FailFast v (createVM v nirs).
Proof. unfold createVM. failfast. Qed.

Lemma FailFast_updateNICwithPIP v nicName nics pip :
  FailFast v (updateNICwithPIP v nicName nics pip).
Proof.
  unfold updateNICwithPIP, setIPConfigProps, ipConfiguration0, indexAt. failfast.
Qed.

Lemma FailFast_printNIC v nic : FailFast v (printNIC nic).
Proof. unfold printNIC, ipConfiguration0, indexAt. failfast. Qed.

Lemma FailFast_listNICs v : FailFast v (listNICs v).
Proof. unfold listNICs, printNIC, ipConfiguration0. failfast. Qed.

Lemma FailFast_deleteNIC v nicName : FailFast v (deleteNIC v nicName).
Proof. unfold deleteNIC. failfast. Qed.

Lemma FailFast_deleteResourceGroup v : FailFast v (deleteResourceGroup v).
Proof. unfold deleteResourceGroup. failfast. Qed.

Create HintDb failfast.

#[local] Hint Resolve FailFast_createResourceGroup FailFast_createVirtualNetwork
  FailFast_createSubnets FailFast_createPIP FailFast_createNICs
  FailFast_createStorageAccount FailFast_buildNIRs FailFast_createVM
  FailFast_updateNICwithPIP FailFast_listNICs FailFast_deleteNIC
  FailFast_deleteResourceGroup : failfast.

Lemma FailFast_main (v : Variant) : FailFast v (main v).
Proof.
  destruct v; unfold main; unfold_bind;
    repeat match goal with
           | |- FailFast _ (bind _ _) =>
               apply FailFast_bind;
               [ first [ solve [auto with failfast]
                       | exact I
                       | split; [auto with failfast | exact I] ]
               | intros ]
           end;
    auto with failfast.
Qed.

Lemma split_unique {X} (P : X → Prop) (l1 l2 l1' l2' : list X) (x x' : X) :
  Forall (λ y, ¬ P y) l1 → Forall (λ y, ¬ P y) l2 → P x' →
  l1 ++ x :: l2 = l1' ++ x' :: l2' →
  l1 = l1' ∧ x = x' ∧ l2 = l2'.
Proof.
  intros H1 H2 Hx'. revert l1' H1.
  induction l1 as [|a l1 IH]; intros [|y l1'] H1 Heq; simpl in Heq; simplify_eq.
  - done.
  - exfalso. rewrite Forall_forall in H2. apply (H2 x'); [|done].
    apply elem_of_app. right. apply list_elem_of_here.
  - exfalso. inversion H1; subst. done.
  - inversion H1; subst. destruct (IH l1') as (-> & -> & ->); auto.
Qed.

(** Run alone, a program of the sequential variant that fails fast either
    sees no error at all, or ends with the error, the message and the exit
    with status 1. *)
Lemma exec_FailFast (w : Oracle) {A : Type} (p : Prog A) (h : list Event) :
  FailFast Sequential p →
  ∃ out new,
    exec w h p = (out, new ++ h)
    ∧ (Forall (λ ev, ¬ isFailure ev) new
       ∨ ∃ c e older,
           new = EvExit 0 1 :: EvPrint 0 (failureMessage c e)
                 :: EvReturn 0 c (Some e) :: older
           ∧ Forall (λ ev, ¬ isFailure ev) older
           ∧ out = Exited 1).
Proof.
  revert h. induction p as [| | | |A c k IH| | | | | |A child IHc k IHk];
    intros h Hp; simpl in *.
  - eexists _, []. split; [reflexivity|]. left. constructor.
  - destruct (IHp (EvPrint 0 s :: h) Hp) as (out & new & E & Hnew); rewrite E.
    eexists out, (new ++ [_]). split; [by rewrite <- app_assoc|].
    destruct Hnew as [Hnew|(c & e & older & -> & Hold & ->)].
    + left. apply Forall_app. split; [done|]. repeat constructor; auto.
    + right. eexists c, e, (older ++ [_]). split; [reflexivity|].
      split; [|done]. apply Forall_app. split; [done|]. repeat constructor; auto.
  - destruct (IHp (EvScan 0 :: h) Hp) as (out & new & E & Hnew); rewrite E.
    eexists out, (new ++ [_]). split; [by rewrite <- app_assoc|].
    destruct Hnew as [Hnew|(c & e & older & -> & Hold & ->)].
    + left. apply Forall_app. split; [done|]. repeat constructor; auto.
    + right. eexists c, e, (older ++ [_]). split; [reflexivity|].
      split; [|done]. apply Forall_app. split; [done|]. repeat constructor; auto.
  - destruct (IHp (EvIssue 0 c :: h) Hp) as (out & new & E & Hnew); rewrite E.
    eexists out, (new ++ [_]). split; [by rewrite <- app_assoc|].
    destruct Hnew as [Hnew|(c' & e & older & -> & Hold & ->)].
    + left. apply Forall_app. split; [done|]. repeat constructor; auto.
    + right. eexists c', e, (older ++ [_]). split; [reflexivity|].
      split; [|done]. apply Forall_app. split; [done|]. repeat constructor; auto.
  - specialize (Hp (w h c)). destruct (w h c) as [x [e|]] eqn:Hr; simpl in *.
    + rewrite Hp. simpl.
      eexists _, [_; _; _]. split; [reflexivity|]. right.
      eexists c, e, []. split; [reflexivity|]. split; [constructor|done].
    + destruct (IH (x, None) (EvReturn 0 c None :: h) Hp) as (out & new & E & Hnew).
      rewrite E. eexists out, (new ++ [_]). split; [by rewrite <- app_assoc|].
      destruct Hnew as [Hnew|(c' & e' & older & -> & Hold & ->)].
      * left. apply Forall_app. split; [done|]. repeat constructor; auto.
      * right. eexists c', e', (older ++ [_]). split; [reflexivity|].
        split; [|done]. apply Forall_app. split; [done|].
        repeat constructor; auto.
  - eexists _, [_]. split; [reflexivity|]. left. repeat constructor; auto.
  - eexists _, [_]. split; [reflexivity|]. left. repeat constructor; auto.
  - eexists _, []. split; [reflexivity|]. left. constructor.
  - eexists _, []. split; [reflexivity|]. left. constructor.
  - eexists _, []. split; [reflexivity|]. left. constructor.
  - eexists _, []. split; [reflexivity|]. left. constructor.
Qed.

(** ** Failing fast under a scheduler *)

Lemma run_invariant (w : Oracle) (I : Machine → Prop) :
  (∀ tid m, I m → I (step w tid m)) →
  ∀ sched m, I m → I (run w sched m).
Proof.
  intros Hstep sched. induction sched as [|tid sched IH]; intros m Hm; simpl; auto.
Qed.

Lemma failureOf_tid (tid : nat) (ev : Event) : failureOf tid ev → eventTid ev = tid.
Proof. destruct ev as [| | |? ? [?|]| | | | | |]; simpl; done. Qed.

Lemma byThread_snoc (tid : nat) (evs : list Event) (ev : Event) :
  byThread tid (evs ++ [ev])
  = byThread tid evs ++ (if decide (eventTid ev = tid) then [ev] else []).
Proof.
  unfold byThread. rewrite filter_app. f_equal.
Qed.

Lemma failsFast_other (v : Variant) (t : nat) (q : Prog unit) (lg : list Event)
    (ev : Event) (hl : option Z) :
  failsFast v t q lg None → eventTid ev ≠ t → failsFast v t q (ev :: lg) hl.
Proof.
  intros [[Hff Hclean]|(c & e & newer & older & k & -> & Hold & Hby & Hst)] Hne.
  - left. split; [done|]. constructor; [|done].
    intros Hf. by apply failureOf_tid in Hf.
  - right. exists c, e, (ev :: newer), older, k. split; [done|]. split; [done|].
    split.
    + rewrite reverse_cons, byThread_snoc, Hby.
      destruct (decide (eventTid ev = t)); [done|]. by rewrite app_nil_r.
    + destruct Hst as [Hst|(_ & Hhl & _)]; [by left | discriminate].
Qed.

Lemma failsFast_halted (v : Variant) (t : nat) (q : Prog unit) (lg : list Event)
    (hl : option Z) :
  failsFast v t q lg None → failsFast v t q lg hl.
Proof.
  intros [H|(c & e & newer & older & k & Hlg & Hold & Hby & Hst)]; [by left|].
  right. exists c, e, newer, older, k. repeat split; try done.
  destruct Hst as [Hst|(_ & Hhl & _)]; [by left | discriminate].
Qed.

(** A step of the handler: what it does and what is left of it. *)
Lemma handlerFrom_step (v : Variant) (tid : nat) (msg : string) (k : nat) :
  (k < length (handlerSteps v tid msg))%nat →
  (∃ ev q,
     (handlerFrom v msg k = Print msg q ∧ ev = EvPrint tid msg
      ∨ handlerFrom v msg k = Issue (GroupsDelete groupName) q
        ∧ ev = EvIssue tid (GroupsDelete groupName))
     ∧ q = handlerFrom v msg (S k)
     ∧ (S k < length (handlerSteps v tid msg))%nat
     ∧ take (S k) (handlerSteps v tid msg) = take k (handlerSteps v tid msg) ++ [ev])
  ∨ (handlerFrom v msg k = Exit 1
     ∧ S k = length (handlerSteps v tid msg)
     ∧ take (S k) (handlerSteps v tid msg)
       = take k (handlerSteps v tid msg) ++ [EvExit tid 1]).
Proof.
  destruct v, k as [|[|[|k]]]; simpl; intros Hk; try lia.
  - left. eexists _, _. split; [left; split; reflexivity|]. repeat split; simpl; lia.
  - right. repeat split; lia.
  - left. eexists _, _. split; [left; split; reflexivity|]. repeat split; simpl; lia.
  - left. eexists _, _. split; [right; split; reflexivity|]. repeat split; simpl; lia.
  - right. repeat split; lia.
Qed.

(** The stepping goroutine after a step that leaves event [ev], which is
    not the return of a failed call. *)
Lemma failsFast_own (v : Variant) (tid : nat) (p k : Prog unit) (ev : Event)
    (lg : list Event) :
  failsFast v tid p lg None →
  eventTid ev = tid → ¬ failureOf tid ev →
  (FailFast v p → FailFast v k) →
  (∀ msg n q ev',
     p = handlerFrom v msg n →
     (handlerFrom v msg n = Print msg q ∧ ev' = EvPrint tid msg
      ∨ handlerFrom v msg n = Issue (GroupsDelete groupName) q
        ∧ ev' = EvIssue tid (GroupsDelete groupName)) →
     k = q ∧ ev = ev') →
  (∀ msg n, p = handlerFrom v msg n → handlerFrom v msg n ≠ Exit 1) →
  failsFast v tid k (ev :: lg) None.
Proof.
  intros [[Hff Hclean]|(c & e & newer & older & n & -> & Hold & Hby & Hst)]
    Hev Hnf Hk Hh Hne.
  - left. split; [auto|]. by constructor.
  - destruct Hst as [[Hn Hp]|(_ & Hhl & _)]; [|discriminate].
    right. exists c, e, (ev :: newer), older, (S n).
    split; [done|]. split; [done|].
    destruct (handlerFrom_step v tid (failureMessage c e) n Hn)
      as [(ev' & q & Hcase & Hq & HSn & Htake)|(Hexit & _)].
    + destruct (Hh _ _ q ev' Hp Hcase) as [-> ->].
      split.
      * rewrite reverse_cons, byThread_snoc, Hby, Htake.
        destruct (decide (eventTid ev' = tid)); [done|]. congruence.
      * left. split; [done|]. by rewrite Hq.
    + exfalso. by apply (Hne _ _ Hp).
Qed.

Lemma failsFast_others (v : Variant) (t tid : nat) (q : Prog unit) (evs lg : list Event)
    (hl : option Z) :
  failsFast v t q lg None → t ≠ tid →
  Forall (λ ev, eventTid ev = tid) evs →
  failsFast v t q (evs ++ lg) hl.
Proof.
  intros Hq Hne Hevs. revert hl.
  induction Hevs as [|ev evs Hev _ IH]; intros hl; simpl.
  - by apply failsFast_halted.
  - apply failsFast_other; [apply IH | congruence].
Qed.

(** The invariant after a step of goroutine [tid]: it is enough to look
    at that goroutine and at the ones the step has started. *)
Lemma FailFastMachine_update (v : Variant) (m : Machine) (tid : nat) (p : Prog unit)
    (ths' : list (Prog unit)) (wg' : Z) (evs : list Event) (hl' : option Z) :
  FailFastMachine v m → halted m = None → threads m !! tid = Some p →
  Forall (λ ev, eventTid ev = tid) evs →
  (length (threads m) ≤ length ths')%nat →
  (∀ t q, ths' !! t = Some q →
     (t = tid ∧ failsFast v tid q (evs ++ log m) hl')
     ∨ (t ≠ tid ∧ threads m !! t = Some q)
     ∨ ((length (threads m) ≤ t)%nat ∧ FailFast v q)) →
  FailFastMachine v {| threads := ths'; wg := wg'; log := evs ++ log m; halted := hl' |}.
Proof.
  intros [Hth Hbound] Hh Hp Hevs Hlen Hcases.
  assert (Hlt : (tid < length (threads m))%nat) by (eapply lookup_lt_Some; eauto).
  split; simpl.
  - intros t q Hq. destruct (Hcases t q Hq) as [[-> Hown]|[[Hne Hold]|[Hnew Hff]]].
    + exact Hown.
    + apply failsFast_others with (tid := tid); auto.
      rewrite <- Hh. by apply Hth.
    + left. split; [done|]. apply Forall_app. split.
      * eapply Forall_impl; [exact Hevs|]. simpl. intros ev Hev Hf.
        apply failureOf_tid in Hf. lia.
      * eapply Forall_impl; [exact Hbound|]. simpl. intros ev Hev Hf.
        apply failureOf_tid in Hf. lia.
  - apply Forall_app. split.
    + eapply Forall_impl; [exact Hevs|]. simpl. intros ev Hev. lia.
    + eapply Forall_impl; [exact Hbound|]. simpl. intros ev Hev. lia.
Qed.

Lemma insert_cases {X} (l : list X) (tid t : nat) (k q : X) :
  <[tid := k]> l !! t = Some q →
  (tid < length l)%nat →
  (t = tid ∧ q = k) ∨ (t ≠ tid ∧ l !! t = Some q).
Proof.
  intros Hq Hlt. destruct (decide (t = tid)) as [->|Hne].
  - rewrite list_lookup_insert_eq in Hq by done. left. by simplify_eq.
  - rewrite list_lookup_insert_ne in Hq by done. by right.
Qed.

Lemma handlerFrom_shape (v : Variant) (msg : string) (n : nat) :
  handlerFrom v msg n = Print msg (handlerFrom v msg 1) ∧ n = 0
  ∨ handlerFrom v msg n = Issue (GroupsDelete groupName) (Exit 1)
  ∨ handlerFrom v msg n = Exit 1.
Proof. destruct v, n as [|[|n]]; simpl; auto. Qed.

(** The goroutine that steps keeps failing fast when the step is an
    ordinary one: neither the return of a call nor the end of the
    process. *)
Ltac own_step :=
  eapply failsFast_own;
  [ eassumption
  | reflexivity
  | simpl; tauto
  | simpl; tauto
  | let Hp := fresh "Hp" in
    let Hc := fresh "Hc" in
    intros ? ? ? ? Hp Hc; rewrite <- Hp in Hc;
    destruct Hc as [[Hc ->]|[Hc ->]]; try discriminate Hc;
    by injection Hc as -> ->
  | let Hp := fresh "Hp" in
    intros ? ? Hp; rewrite <- Hp; discriminate ].

Lemma FailFastMachine_step (v : Variant) (w : Oracle) (tid : nat) (m : Machine) :
  FailFastMachine v m → FailFastMachine v (step w tid m).
Proof.
  intros Hinv. unfold step.
  destruct (halted m) eqn:Hh; [done|].
  destruct (threads m !! tid) as [p|] eqn:Hp; [|done].
  assert (Hlt : (tid < length (threads m))%nat) by (eapply lookup_lt_Some; eauto).
  assert (Hown : failsFast v tid p (log m) None).
  { rewrite <- Hh. by apply Hinv. }
  assert (Hsame : ∀ evs hl wg',
            Forall (λ ev, eventTid ev = tid) evs →
            failsFast v tid p (evs ++ log m) hl →
            FailFastMachine v {| threads := threads m; wg := wg';
                                 log := evs ++ log m; halted := hl |}).
  { intros evs hl wg' Hevs Hnew.
    eapply FailFastMachine_update; eauto.
    intros t q Hq. destruct (decide (t = tid)) as [->|Hne]; [|auto].
    left. split; [done|]. rewrite Hp in Hq. by simplify_eq. }
  assert (Hadv : ∀ k ev wg',
            eventTid ev = tid →
            failsFast v tid k (ev :: log m) None →
            FailFastMachine v {| threads := <[tid := k]> (threads m); wg := wg';
                                 log := ev :: log m; halted := None |}).
  { intros k ev wg' Hev Hnew.
    apply (FailFastMachine_update v m tid p _ wg' [ev] None); auto.
    - by rewrite length_insert.
    - intros t q Hq. apply insert_cases in Hq as [[-> ->]|[Hne Hq]]; auto. }
  assert (Hpanic : ∀ wg', (∀ msg n, p ≠ handlerFrom v msg n) →
            FailFastMachine v {| threads := threads m; wg := wg';
                                 log := [EvPanic tid] ++ log m; halted := Some 2%Z |}).
  { intros wg' Hnot. apply Hsame; [by repeat constructor|].
    destruct Hown as [[Hff Hclean]|(c & e & newer & older & n & _ & _ & _ & Hst)].
    - left. split; [done|]. constructor; [|done]. simpl. tauto.
    - destruct Hst as [[_ Hst]|(_ & Hst & _)]; [|discriminate].
      by apply Hnot in Hst. }
  destruct p as [a|s k|k|c k|c k|code| |delta k|k|k|child k].
  - (* the goroutine has returned *)
    destruct (decide (tid = 0)); [|done].
    apply (Hsame [] (Some 0%Z)); [constructor|]. by apply failsFast_halted.
  - apply Hadv; [done|]. own_step.
  - apply Hadv; [done|]. own_step.
  - apply Hadv; [done|]. own_step.
  - (* the return of a call *)
    apply Hadv; [done|].
    destruct Hown as [[Hff Hclean]|(c' & e & newer & older & n & _ & _ & _ & Hst)].
    + simpl in Hff. specialize (Hff (w (log m) c)).
      destruct (w (log m) c) as [x [e|]]; simpl in *.
      * right. exists c, e, [], (log m), 0. repeat split; auto.
        left. split; [destruct v; simpl; lia|]. by rewrite Hff.
      * left. split; [done|]. constructor; [|done]. simpl. tauto.
    + destruct Hst as [[_ Hst]|(_ & Hst & _)]; [|discriminate].
      destruct (handlerFrom_shape v (failureMessage c' e) n) as [[Hs _]|[Hs|Hs]];
        rewrite Hs in Hst; discriminate.
  - (* the exit *)
    apply (Hsame [EvExit tid code] (Some code)); [by repeat constructor|].
    destruct Hown as [[Hff Hclean]|(c & e & newer & older & n & -> & Hold & Hby & Hst)].
    + left. split; [done|]. constructor; [|done]. simpl. tauto.
    + destruct Hst as [[Hn Hst]|(_ & Hst & _)]; [|discriminate].
      destruct (handlerFrom_step v tid (failureMessage c e) n Hn)
        as [(ev' & q & Hcase & _)|(Hexit & HSn & Htake)].
      { rewrite <- Hst in Hcase. destruct Hcase as [[Hc _]|[Hc _]]; discriminate. }
      rewrite <- Hst in Hexit. injection Hexit as ->.
      right. exists c, e, (EvExit tid 1 :: newer), older, (S n).
      split; [done|]. split; [done|]. split.
      * rewrite reverse_cons, byThread_snoc, Hby, Htake. simpl.
        by destruct (decide (tid = tid)).
      * right. repeat split; auto. lia.
  - (* a panic *)
    apply Hpanic. intros msg n Hst.
    destruct (handlerFrom_shape v msg n) as [[Hs _]|[Hs|Hs]];
      rewrite Hs in Hst; discriminate.
  - unfold wgAdd. destruct (decide (wg m + delta < 0)%Z).
    + apply Hpanic. intros msg n Hst.
      destruct (handlerFrom_shape v msg n) as [[Hs _]|[Hs|Hs]];
        rewrite Hs in Hst; discriminate.
    + apply Hadv; [done|]. own_step.
  - unfold wgAdd. destruct (decide (wg m + -1 < 0)%Z).
    + apply Hpanic. intros msg n Hst.
      destruct (handlerFrom_shape v msg n) as [[Hs _]|[Hs|Hs]];
        rewrite Hs in Hst; discriminate.
    + apply Hadv; [done|]. own_step.
  - destruct (decide (wg m = 0%Z)); [|done].
    apply Hadv; [done|]. own_step.
  - (* a new goroutine *)
    apply (FailFastMachine_update v m tid (Go child k) _ (wg m)
             [EvGo tid (length (threads m))] None); auto.
    + rewrite length_app, length_insert. lia.
    + intros t q Hq.
      destruct (decide (t < length (threads m))%nat) as [Ht|Ht].
      * rewrite lookup_app_l in Hq by (by rewrite length_insert).
        apply insert_cases in Hq as [[-> ->]|[Hne Hq]]; auto.
        left. split; [done|]. own_step.
      * right. right. split; [lia|].
        rewrite lookup_app_r in Hq by (rewrite length_insert; lia).
        rewrite length_insert in Hq.
        destruct (t - length (threads m)) as [|d] eqn:Hd; simpl in Hq; [|done].
        simplify_eq.
        destruct Hown as [[Hff _]|(c & e & newer & older & n & _ & _ & _ & Hst)].
        { simpl in Hff. tauto. }
        destruct Hst as [[_ Hst]|(_ & Hst & _)]; [|discriminate].
        destruct (handlerFrom_shape v (failureMessage c e) n) as [[Hs _]|[Hs|Hs]];
          rewrite Hs in Hst; discriminate.
Qed.

Lemma FailFastMachine_initial (v : Variant) : FailFastMachine v (initial v).
Proof.
  split; simpl; [|constructor].
  intros [|tid] p Hp; simpl in Hp; [|done]. simplify_eq.
  left. split; [apply FailFast_main | constructor].
Qed.

Lemma FailFastMachine_run (v : Variant) (w : Oracle) (sched : list nat) :
  FailFastMachine v (run w sched (initial v)).
Proof.
  apply run_invariant.
  - intros tid m. apply FailFastMachine_step.
  - apply FailFastMachine_initial.
Qed.

Lemma handlerSteps_no_failure (v : Variant) (tid t : nat) (msg : string) (ev : Event) :
  ev ∈ handlerSteps v tid msg → ¬ failureOf t ev.
Proof.
  unfold handlerSteps.
  destruct v; intros Hin; repeat (apply elem_of_cons in Hin as [->|Hin]);
    simpl; try tauto; by apply elem_of_nil in Hin.
Qed.

(** Where the goroutine stands after it has been reported an error. *)
Lemma failsFast_after (v : Variant) (m : Machine) (before after : list Event)
    (tid : nat) (c : Call) (e : Error) :
  FailFastMachine v m →
  trace (log m) = before ++ EvReturn tid c (Some e) :: after →
  ∃ p k,
    threads m !! tid = Some p
    ∧ byThread tid after = take k (handlerSteps v tid (failureMessage c e))
    ∧ (((k < length (handlerSteps v tid (failureMessage c e)))%nat
        ∧ p = handlerFrom v (failureMessage c e) k)
       ∨ ((length (handlerSteps v tid (failureMessage c e)) ≤ k)%nat
          ∧ halted m = Some 1%Z ∧ head (log m) = Some (EvExit tid 1))).
Proof.
  intros [Hth Hbound] Htrace.
  assert (Hlog : log m = reverse after ++ EvReturn tid c (Some e) :: reverse before).
  { unfold trace in Htrace. apply (f_equal reverse) in Htrace.
    rewrite reverse_involutive in Htrace. rewrite Htrace.
    rewrite reverse_app, reverse_cons, <- app_assoc. done. }
  assert (Hin : EvReturn tid c (Some e) ∈ log m).
  { rewrite Hlog. apply elem_of_app. right. apply list_elem_of_here. }
  assert (Hlt : (tid < length (threads m))%nat).
  { rewrite Forall_forall in Hbound. by apply Hbound in Hin. }
  destruct (lookup_lt_is_Some_2 _ _ Hlt) as [p Hp].
  destruct (Hth tid p Hp)
    as [[_ Hclean]|(c' & e' & newer & older & k & Hlog' & Hold & Hby & Hst)].
  { exfalso. rewrite Forall_forall in Hclean. by apply (Hclean _ Hin). }
  assert (Hnewer : Forall (λ ev, ¬ failureOf tid ev) newer).
  { apply Forall_forall. intros ev Hev Hf.
    assert (Hev' : ev ∈ byThread tid (reverse newer)).
    { apply list_elem_of_filter. split; [by apply failureOf_tid|].
      by apply elem_of_reverse. }
    rewrite Hby in Hev'. apply elem_of_take in Hev' as (i & Hi & _).
    apply list_elem_of_lookup_2 in Hi.
    by apply handlerSteps_no_failure with (t := tid) in Hi. }
  rewrite Hlog in Hlog'.
  destruct (split_unique (failureOf tid) newer older (reverse after) (reverse before)
              (EvReturn tid c' (Some e')) (EvReturn tid c (Some e)))
    as (Hn & Hx & Ho); auto; [done|].
  simplify_eq. rewrite reverse_involutive in Hby.
  exists p, k. repeat split; auto.
Qed.

Lemma handler_runs (v : Variant) (w : Oracle) (tid : nat) (m : Machine)
    (msg : string) (k : nat) :
  halted m = None →
  threads m !! tid = Some (handlerFrom v msg k) →
  (k < length (handlerSteps v tid msg))%nat →
  halted (run w (replicate (length (handlerSteps v tid msg) - k) tid) m) = Some 1%Z.
Proof.
  intros Hh Hp Hk.
  assert (Hlt : (tid < length (threads m))%nat) by (eapply lookup_lt_Some; eauto).
  destruct m as [ths wgc lg hl]. simpl in *. subst hl.
  destruct v, k as [|[|[|k]]]; simpl in *; try lia;
    unfold step; simpl; rewrite ?Hp; simpl;
    rewrite ?list_lookup_insert_eq by done; simpl;
    rewrite ?list_lookup_insert_eq by (by rewrite length_insert); simpl; done.
Qed.

(** ** The join before the virtual machine *)

Lemma Plain_bind (P : Call → Prop) {A B : Type} (p : Prog A) (f : A → Prog B) :
  Plain P p → (∀ a, Plain P (f a)) → Plain P (bind p f).
Proof.
  revert B f. induction p; intros B f Hp Hf; simpl in *; auto; try done.
  split; [tauto|]. apply IHp; tauto.
Qed.

Lemma Plain_forRange (P : Call → Prop) {X St} (body : nat → X → St → Prog St)
    (l : list X) (i : nat) (s : St) :
  (∀ i x s, Plain P (body i x s)) → Plain P (forRange i l body s).
Proof.
  intros Hbody. revert i s. induction l as [|x l IH]; intros i s; simpl; [done|].
  unfold_bind. by apply Plain_bind.
Qed.

Ltac quiet := structural @Plain_bind @Plain_forRange.

Lemma Quiet_createResourceGroup v : Quiet (createResourceGroup v).
Proof. unfold createResourceGroup. quiet. Qed.

Lemma Quiet_createVirtualNetwork v : Quiet (createVirtualNetwork v).
Proof. unfold createVirtualNetwork. quiet. Qed.

Lemma Quiet_createSubnets v : Quiet (createSubnets v).
Proof. unfold createSubnets. quiet. Qed.

Lemma Quiet_createPIP v pipName : Quiet (createPIP v pipName).
Proof. unfold createPIP. quiet. Qed.

Lemma Quiet_createNICs v subnets pip : Quiet (createNICs v subnets pip).
Proof. unfold createNICs. quiet. Qed.

Lemma Quiet_buildNIRs v nics : Quiet (buildNIRs v nics).
Proof. unfold buildNIRs, isFrontEnd. quiet. Qed.

Lemma BeforeAccount_bind {A B : Type} (p : Prog A) (f : A → Prog B) :
  Quiet p → (∀ a, BeforeAccount (f a)) → BeforeAccount (bind p f).
Proof.
  revert B f. induction p; intros B f Hp Hf; simpl in *; auto; try done.
  split; [tauto|]. apply IHp; tauto.
Qed.

Lemma Joining_bind (armed : bool) {A B : Type} (p : Prog A) (f : A → Prog B) :
  Quiet p → (∀ a, Joining armed (f a)) → Joining armed (bind p f).
Proof.
  revert B f. induction p; intros B f Hp Hf; simpl in *; auto; try done.
  split; [tauto|]. apply IHp; tauto.
Qed.

Lemma BeforeAccount_main : BeforeAccount (main Sequential).
Proof.
  unfold main. unfold_bind.
  apply BeforeAccount_bind; [apply Quiet_createResourceGroup | intros _].
  apply BeforeAccount_bind; [apply Quiet_createVirtualNetwork | intros _].
  apply BeforeAccount_bind; [apply Quiet_createSubnets | intros subnets].
  apply BeforeAccount_bind; [apply Quiet_createPIP | intros pip1].
  apply BeforeAccount_bind; [apply Quiet_createNICs | intros nics].
  unfold createStorageAccount. unfold_bind. cbn [bind BeforeAccount Println].
  split; [simpl; tauto|]. intros [x [e|]]; [right|left]; simpl; auto.
Qed.

Lemma Storing_createStorageAccount : Storing False (createStorageAccount Concurrent).
Proof.
  unfold createStorageAccount. unfold_bind. simpl.
  split; [tauto|]. intros [x [e|]]; simpl; [tauto|]. unfold theStorageAccount. tauto.
Qed.

Lemma Joining_main : Joining false (main Concurrent).
Proof.
  unfold main. unfold_bind.
  apply Joining_bind; [apply Quiet_createResourceGroup | intros _].
  cbn [bind Joining]. split; [done|]. split; [done|].
  split; [done|]. split; [apply Storing_createStorageAccount|].
  apply Joining_bind; [apply Quiet_createVirtualNetwork | intros _].
  apply Joining_bind; [apply Quiet_createSubnets | intros subnets].
  apply Joining_bind; [apply Quiet_createPIP | intros pip1].
  apply Joining_bind; [apply Quiet_createNICs | intros nics].
  apply Joining_bind; [apply Quiet_buildNIRs | intros nirs].
  cbn [bind Joining]. done.
Qed.

Lemma exec_extends {A : Type} (w : Oracle) (p : Prog A) (h : list Event) :
  ∃ out new, exec w h p = (out, new ++ h).
Proof.
  pose proof (exec_shift w p [] h) as E. simpl in E.
  destruct (exec (λ l, w (l ++ h)) [] p) as [out new]. eauto.
Qed.

Lemma noVM_snoc (lg : list Event) (ev : Event) :
  noVM lg → nonVMEvent ev → noVM (lg ++ [ev]).
Proof. intros. apply Forall_app. split; [done|]. by repeat constructor. Qed.

Lemma reached_account_snoc (ev : Event) (new : list Event) :
  nonVMEvent ev →
  (noVM new
   ∨ ∃ newer older,
       new = newer ++ EvReturn 0 theStorageAccount None :: older ∧ noVM older) →
  noVM (new ++ [ev])
  ∨ ∃ newer older,
      new ++ [ev] = newer ++ EvReturn 0 theStorageAccount None :: older
      ∧ noVM older.
Proof.
  intros Hev [Hnew|(newer & older & -> & Hold)].
  - left. by apply noVM_snoc.
  - right. exists newer, (older ++ [ev]). split; [by rewrite <- app_assoc|].
    by apply noVM_snoc.
Qed.

(** Run alone, the main flow of the sequential variant issues no creation
    of the virtual machine, unless the creation of the storage account has
    returned without error; nothing but that is known of what follows. *)
Lemma exec_BeforeAccount (w : Oracle) {A : Type} (p : Prog A) (h : list Event) :
  BeforeAccount p →
  ∃ out new,
    exec w h p = (out, new ++ h)
    ∧ (noVM new
       ∨ ∃ newer older,
           new = newer ++ EvReturn 0 theStorageAccount None :: older ∧ noVM older).
Proof.
  revert h. induction p as [| | | |A c k IH| | | | | |A child IHc k IHk];
    intros h Hp; simpl in *.
  - eexists _, []. split; [reflexivity|]. left. constructor.
  - destruct (IHp (EvPrint 0 s :: h) Hp) as (out & new & E & Hnew). rewrite E.
    eexists out, (new ++ [_]). split; [by rewrite <- app_assoc|].
    by apply reached_account_snoc.
  - destruct (IHp (EvScan 0 :: h) Hp) as (out & new & E & Hnew). rewrite E.
    eexists out, (new ++ [_]). split; [by rewrite <- app_assoc|].
    by apply reached_account_snoc.
  - destruct Hp as [Hc Hp].
    destruct (IHp (EvIssue 0 c :: h) Hp) as (out & new & E & Hnew). rewrite E.
    eexists out, (new ++ [_]). split; [by rewrite <- app_assoc|].
    by apply reached_account_snoc.
  - destruct (Hp (w h c)) as [[-> Hnone]|Hk].
    + rewrite Hnone.
      destruct (exec_extends w (k (w h theStorageAccount))
                  (EvReturn 0 theStorageAccount None :: h)) as (out & new & E).
      rewrite E. eexists out, (new ++ [_]). split; [by rewrite <- app_assoc|].
      right. exists new, []. split; [done|constructor].
    + destruct (IH _ (EvReturn 0 c (w h c).2 :: h) Hk) as (out & new & E & Hnew).
      rewrite E. eexists out, (new ++ [_]). split; [by rewrite <- app_assoc|].
      by apply reached_account_snoc.
  - eexists _, [_]. split; [reflexivity|]. left. by repeat constructor.
  - eexists _, [_]. split; [reflexivity|]. left. by repeat constructor.
  - eexists _, []. split; [reflexivity|]. left. constructor.
  - eexists _, []. split; [reflexivity|]. left. constructor.
  - eexists _, []. split; [reflexivity|]. left. constructor.
  - eexists _, []. split; [reflexivity|]. left. constructor.
Qed.

(** An element that is met only after [r] has what precedes [r], and [r],
    before it. *)
Lemma behind {X} (l1 l2 a b : list X) (r x : X) :
  x ∉ l1 → x ≠ r → l1 ++ r :: l2 = a ++ x :: b → ∃ l, a = l1 ++ r :: l.
Proof.
  intros Hx Hr. revert a. induction l1 as [|y l1 IH]; intros [|z a] Heq;
    simpl in Heq; simplify_eq.
  - by exists a.
  - exfalso. apply Hx. apply list_elem_of_here.
  - destruct (IH (λ H, Hx (list_elem_of_further _ _ _ H)) a) as [l ->]; [done|].
    by exists l.
Qed.

Lemma log_step (w : Oracle) (tid : nat) (m : Machine) :
  ∃ evs, log (step w tid m) = evs ++ log m.
Proof.
  unfold step, wgAdd.
  destruct (halted m); [by exists []|].
  destruct (threads m !! tid) as [p|]; [|by exists []].
  destruct p; simpl; repeat case_decide; simpl;
    first [ by exists [] | by eexists [_] ].
Qed.

Lemma stored_grow (t : nat) (evs lg : list Event) :
  stored t lg → stored t (evs ++ lg).
Proof. unfold stored. intros H. apply elem_of_app. by right. Qed.

Lemma Signalled_grow (evs lg : list Event) : Signalled lg → Signalled (evs ++ lg).
Proof.
  intros (mid & older & t & -> & Hst). exists (evs ++ mid), older, t.
  by rewrite <- app_assoc.
Qed.

Lemma Joined_grow (evs lg : list Event) : Joined lg → Joined (evs ++ lg).
Proof.
  intros (newer & mid & older & t & -> & Hst & Hvm).
  exists (evs ++ newer), mid, older, t. by rewrite <- app_assoc.
Qed.

Lemma NotJoined_halt (m : Machine) (code : Z) (evs : list Event) :
  NotJoined m → noVM evs → NotJoined (halt m code evs).
Proof.
  intros (HnoVM & armed & main & Hmain & Hjoin & Haux & Hpre & Harmed) Hevs.
  split; simpl; [by apply Forall_app|].
  exists armed, main. repeat split; auto.
  - intros t a Ht Ha. destruct (Haux t a Ht Ha) as (ok & Hst & Hok).
    exists ok. split; [done|]. intros. apply stored_grow. auto.
  - by apply Hpre.
  - by apply Hpre.
  - intros Ha. destruct (Harmed Ha) as [?|[? ?]]; [by left|].
    right. split; [done|]. by apply Signalled_grow.
Qed.

Lemma NotJoined_advance_main (m : Machine) (k : Prog unit) (ev : Event) :
  NotJoined m → nonVMEvent ev →
  (∀ armed main, threads m !! 0 = Some main → Joining armed main → Joining armed k) →
  NotJoined (advance m 0 k ev).
Proof.
  intros (HnoVM & armed & main & Hmain & Hjoin & Haux & Hpre & Harmed) Hev Hk.
  assert (Hlt : (0 < length (threads m))%nat) by (eapply lookup_lt_Some; eauto).
  split; simpl; [by constructor|].
  exists armed, k. split; [by rewrite list_lookup_insert_eq|].
  split; [eauto|]. split; [|split].
  - intros t a Ht Ha. rewrite list_lookup_insert_ne in Ha by lia.
    destruct (Haux t a Ht Ha) as (ok & Hst & Hok).
    exists ok. split; [done|]. intros. apply (stored_grow t [ev]). auto.
  - intros Ha. rewrite length_insert. by apply Hpre.
  - intros Ha. destruct (Harmed Ha) as [?|[? ?]]; [by left|].
    right. split; [done|]. by apply (Signalled_grow [ev]).
Qed.

Lemma NotJoined_advance_aux (m : Machine) (tid : nat) (a k : Prog unit) (ev : Event) :
  NotJoined m → nonVMEvent ev → (1 ≤ tid)%nat → threads m !! tid = Some a →
  (∀ ok : Prop, Storing ok a → (ok → stored tid (log m)) →
     ∃ ok' : Prop, Storing ok' k ∧ (ok' → stored tid (ev :: log m))) →
  NotJoined (advance m tid k ev).
Proof.
  intros (HnoVM & armed & main & Hmain & Hjoin & Haux & Hpre & Harmed) Hev Htid Ha Hk.
  assert (Hlt : (tid < length (threads m))%nat) by (eapply lookup_lt_Some; eauto).
  split; simpl; [by constructor|].
  exists armed, main. split; [by rewrite list_lookup_insert_ne by lia|].
  split; [done|]. split; [|split].
  - intros t b Ht Hb. destruct (decide (t = tid)) as [->|Hne].
    + rewrite list_lookup_insert_eq in Hb by done. simplify_eq.
      destruct (Haux tid a Htid Ha) as (ok & Hst & Hok). eauto.
    + rewrite list_lookup_insert_ne in Hb by done.
      destruct (Haux t b Ht Hb) as (ok & Hst & Hok).
      exists ok. split; [done|]. intros. apply (stored_grow t [ev]). auto.
  - intros Hf. rewrite length_insert. by apply Hpre.
  - intros Hf. destruct (Harmed Hf) as [?|[? ?]]; [by left|].
    right. split; [done|]. by apply (Signalled_grow [ev]).
Qed.

Lemma JoinInvariant_step (w : Oracle) (tid : nat) (m : Machine) :
  JoinInvariant m → JoinInvariant (step w tid m).
Proof.
  intros [HJ|HN].
  { left. destruct (log_step w tid m) as [evs ->]. by apply Joined_grow. }
  unfold step. destruct (halted m) eqn:Hh; [by right|].
  destruct (threads m !! tid) as [p|] eqn:Hp; [|by right].
  assert (Hlt : (tid < length (threads m))%nat) by (eapply lookup_lt_Some; eauto).
  pose proof HN as (HnoVM & armed & main & Hmain & Hjoin & Haux & Hpre & Harmed).
  destruct (decide (tid = 0)) as [->|Hne].
  - (* the main goroutine *)
    rewrite Hmain in Hp. injection Hp as <-.
    assert (Hsame : ∀ k : Prog unit, (∀ b : bool, Joining b main → Joining b k) →
              ∀ armed' main', threads m !! 0 = Some main' →
                Joining armed' main' → Joining armed' k).
    { intros k Hk armed' main' Hm' Hj'. rewrite Hmain in Hm'.
      injection Hm' as <-. auto. }
    destruct main as [a|s k|k|c k|c k|code| |delta k|k|k|child k]; simpl.
    + right. by apply NotJoined_halt; [|constructor].
    + right. apply NotJoined_advance_main; [done..|]. apply Hsame. auto.
    + right. apply NotJoined_advance_main; [done..|]. apply Hsame. auto.
    + right. apply NotJoined_advance_main; [done| simpl in *; tauto |].
      apply Hsame. simpl. tauto.
    + right. apply NotJoined_advance_main; [done..|]. apply Hsame. simpl. auto.
    + right. apply NotJoined_halt; [done|]. by repeat constructor.
    + right. apply NotJoined_halt; [done|]. by repeat constructor.
    + (* wg.Add *)
      simpl in Hjoin. destruct Hjoin as (-> & -> & Hk).
      destruct (Hpre eq_refl) as [Hwg Hlen].
      unfold wgAdd. rewrite Hwg. simpl. right.
      split; simpl; [by constructor|].
      exists true, k. split; [by rewrite list_lookup_insert_eq|].
      split; [done|]. split; [|split; [done|auto]].
      intros t a Ht Ha. apply lookup_lt_Some in Ha.
      rewrite length_insert in Ha. lia.
    + simpl in Hjoin. done.
    + (* wg.Wait *)
      simpl in Hjoin. subst armed.
      destruct (decide (wg m = 0%Z)) as [Hwg|Hwg]; [|by right].
      left. simpl.
      destruct (Harmed eq_refl) as [Hone|[_ (mid & older & t & Hlog & Hst)]]; [lia|].
      exists [], mid, older, t. rewrite Hlog in HnoVM |- *. done.
    + (* go *)
      simpl in Hjoin. destruct Hjoin as (-> & Hchild & Hk).
      right. split; simpl; [by constructor|].
      exists true, k. split.
      { rewrite lookup_app_l by (by rewrite length_insert).
        by rewrite list_lookup_insert_eq. }
      split; [done|]. split; [|split; [done|]].
      * intros t a Ht Ha.
        destruct (decide (t < length (threads m))%nat) as [Hin|Hout].
        -- rewrite lookup_app_l in Ha by (by rewrite length_insert).
           rewrite list_lookup_insert_ne in Ha by lia.
           destruct (Haux t a Ht Ha) as (ok & Hok & Hst).
           exists ok. split; [done|]. intros.
           apply (stored_grow t [EvGo 0 (length (threads m))]). auto.
        -- rewrite lookup_app_r in Ha by (rewrite length_insert; lia).
           rewrite length_insert in Ha.
           destruct (t - length (threads m)) as [|d]; simpl in Ha; [|done].
           simplify_eq. exists False. split; [done|]. tauto.
      * intros _. destruct (Harmed eq_refl) as [?|[? ?]]; [by left|].
        right. split; [done|].
        by apply (Signalled_grow [EvGo 0 (length (threads m))]).
  - (* a goroutine that creates the storage account *)
    destruct (Haux tid p ltac:(lia) Hp) as (ok & Hst & Hok).
    assert (Hplain : ∀ (k : Prog unit) ev, nonVMEvent ev →
              (∀ ok' : Prop, Storing ok' p → Storing ok' k) →
              NotJoined (advance m tid k ev)).
    { intros k ev Hev Hk. eapply NotJoined_advance_aux; eauto; [lia|].
      intros ok' Hst' Hok'. exists ok'. split; [auto|].
      intros. apply (stored_grow tid [ev]). auto. }
    destruct p as [a|s k|k|c k|c k|code| |delta k|k|k|child k]; simpl.
    + destruct (decide (tid = 0)); [lia|]. by right.
    + right. apply Hplain; [done|]. auto.
    + right. apply Hplain; [done|]. auto.
    + right. apply Hplain; [simpl in *; tauto|]. simpl. tauto.
    + (* the return of a call *)
      right. eapply NotJoined_advance_aux; eauto; [done|lia|].
      intros ok' Hst' Hok'. simpl in Hst'. specialize (Hst' (w (log m) c)).
      eexists. split; [exact Hst'|].
      intros [H|[-> Hnone]].
      * apply (stored_grow tid [_]). auto.
      * rewrite Hnone. apply list_elem_of_here.
    + right. apply NotJoined_halt; [done|]. by repeat constructor.
    + right. apply NotJoined_halt; [done|]. by repeat constructor.
    + simpl in Hst. done.
    + (* wg.Done *)
      simpl in Hst. destruct Hst as [Hyes Hk].
      unfold wgAdd. destruct (decide (wg m + -1 < 0)%Z) as [Hneg|Hpos].
      { right. apply NotJoined_halt; [done|]. by repeat constructor. }
      right. split; simpl; [by constructor|].
      assert (Ha : armed = true).
      { destruct armed; [done|]. destruct (Hpre eq_refl) as [_ Hlen]. lia. }
      subst armed.
      exists true, main. split; [by rewrite list_lookup_insert_ne by lia|].
      split; [done|]. split; [|split; [done|]].
      * intros t b Ht Hb. destruct (decide (t = tid)) as [->|Hnt].
        -- rewrite list_lookup_insert_eq in Hb by done. simplify_eq.
           exists False. split; [done|tauto].
        -- rewrite list_lookup_insert_ne in Hb by done.
           destruct (Haux t b Ht Hb) as (ok' & Hst' & Hok').
           exists ok'. split; [done|]. intros.
           apply (stored_grow t [EvWgDone tid]). auto.
      * intros _. destruct (Harmed eq_refl) as [Hone|[Hzero _]]; [|lia].
        right. split; [lia|]. exists [], (log m), tid. split; [done|]. auto.
    + simpl in Hst. done.
    + simpl in Hst. done.
Qed.

Lemma JoinInvariant_run (w : Oracle) (sched : list nat) :
  JoinInvariant (run w sched (initial Concurrent)).
Proof.
  apply run_invariant.
  - intros tid m. apply JoinInvariant_step.
  - right. split; [constructor|]. exists false, (main Concurrent). simpl.
    split; [done|]. split; [apply Joining_main|]. split; [|done].
    intros [|t] a Ht Ha; [lia|done].
Qed.

Lemma noVM_not_elem (lg : list Event) (tid : nat) (c : Call) :
  noVM lg → isVMCreate c → EvIssue tid c ∉ lg.
Proof.
  intros Hno Hc Hin. unfold noVM in Hno. rewrite Forall_forall in Hno.
  by apply (Hno _ Hin).
Qed.

(** ** The sequential variant under the scheduler

    The sequential variant starts no goroutine, so the scheduler has
    nothing to choose: a run of the process is the beginning of the run of
    [main] by [exec], and it is all of it once the process has ended. *)

Lemma Plain_createResourceGroup v : Plain (λ _, True) (createResourceGroup v).
Proof. unfold createResourceGroup. quiet. Qed.

Lemma Plain_createVirtualNetwork v : Plain (λ _, True) (createVirtualNetwork v).
Proof. unfold createVirtualNetwork. quiet. Qed.

Lemma Plain_createSubnets v : Plain (λ _, True) (createSubnets v).
Proof. unfold createSubnets. quiet. Qed.

Lemma Plain_createPIP v pipName : Plain (λ _, True) (createPIP v pipName).
Proof. unfold createPIP. quiet. Qed.

Lemma Plain_createNICs v subnets pip : Plain (λ _, True) (createNICs v subnets pip).
Proof. unfold createNICs. quiet. Qed.

Lemma Plain_createStorageAccount : Plain (λ _, True) (createStorageAccount Sequential).
Proof. unfold createStorageAccount. quiet. Qed.

Lemma Plain_buildNIRs v nics : Plain (λ _, True) (buildNIRs v nics).
Proof. unfold buildNIRs, isFrontEnd. quiet. Qed.

Lemma Plain_createVM v nirs : Plain (λ _, True) (createVM v nirs).
Proof. unfold createVM. quiet. Qed.

Lemma Plain_updateNICwithPIP v nicName nics pip :
  Plain (λ _, True) (updateNICwithPIP v nicName nics pip).
Proof.
  unfold updateNICwithPIP, setIPConfigProps, ipConfiguration0, indexAt. quiet.
Qed.

Lemma Plain_listNICs v : Plain (λ _, True) (listNICs v).
Proof. unfold listNICs, printNIC, ipConfiguration0. quiet. Qed.

Lemma Plain_deleteNIC v nicName : Plain (λ _, True) (deleteNIC v nicName).
Proof. unfold deleteNIC. quiet. Qed.

Lemma Plain_deleteResourceGroup v : Plain (λ _, True) (deleteResourceGroup v).
Proof. unfold deleteResourceGroup. quiet. Qed.

Create HintDb plain.

#[local] Hint Resolve Plain_createResourceGroup Plain_createVirtualNetwork
  Plain_createSubnets Plain_createPIP Plain_createNICs Plain_createStorageAccount
  Plain_buildNIRs Plain_createVM Plain_updateNICwithPIP Plain_listNICs
  Plain_deleteNIC Plain_deleteResourceGroup : plain.

Lemma Plain_main : Plain (λ _, True) (main Sequential).
Proof.
  unfold main; unfold_bind;
    repeat match goal with
           | |- Plain _ (bind _ _) =>
               apply Plain_bind;
               [ first [ solve [auto with plain] | exact I ] | intros ]
           end;
    auto with plain.
Qed.

Lemma SequentialMachine_step (w : Oracle) (tid : nat) (m : Machine) :
  SequentialMachine w m → SequentialMachine w (step w tid m).
Proof.
  intros (p & Hth & Hp & Hrun). unfold step.
  destruct (halted m) eqn:Hh; [by exists p; rewrite Hh|].
  rewrite Hth. destruct tid as [|tid]; simpl; [|by exists p; rewrite Hh].
  destruct p as [[]|s k|k|c k|c k|code| |delta k|k|k|child k]; simpl in *;
    try done; unfold SequentialMachine, halt, advance; simpl; rewrite Hth; simpl.
  - exists (Ret tt). repeat split. exists (Returned tt). by rewrite <- Hrun.
  - by exists k.
  - by exists k.
  - exists k. repeat split; tauto.
  - by exists (k (w (log m) c)).
  - exists (Exit code). repeat split. exists (Exited code). by rewrite <- Hrun.
  - exists Panic. repeat split. exists Panicked. by rewrite <- Hrun.
Qed.

Lemma machine_sequential (w : Oracle) (sched : list nat) :
  let m := run w sched (initial Sequential) in
  ∃ rest,
    (exec w [] (main Sequential)).2 = rest ++ log m
    ∧ ∀ code, halted m = Some code →
        rest = [] ∧ statusOf (exec w [] (main Sequential)).1 = Some code.
Proof.
  intros m.
  assert (Hinv : SequentialMachine w m).
  { apply run_invariant; [intros; by apply SequentialMachine_step|].
    exists (main Sequential). repeat split. apply Plain_main. }
  destruct Hinv as (p & Hth & Hp & Hrun).
  destruct (halted m) as [code|].
  - destruct Hrun as (out & E & Hout). exists []. rewrite E. split; [done|].
    intros code' ?. by simplify_eq.
  - destruct (exec_extends w p (log m)) as (out & new & E).
    exists new. rewrite <- Hrun, E. split; [done|]. intros code' ?. done.
Qed.

Lemma sequential_trace (w : Oracle) (sched : list nat) :
  ∃ later,
    trace (exec w [] (main Sequential)).2
    = trace (log (run w sched (initial Sequential))) ++ later.
Proof.
  destruct (machine_sequential w sched) as (rest & Hrest & _).
  exists (reverse rest). unfold trace. by rewrite Hrest, reverse_app.
Qed.

(** Against a faithful collaborator both variants run to their end: the
    sequential one returns, the concurrent one ends with status 0 once the
    goroutine of the storage account has been let run. *)
Lemma faithful_runs_complete :
  (exec faithful [] (main Sequential)).1 = Returned tt
  ∧ length (issued (trace (exec faithful [] (main Sequential)).2)) = 26
  ∧ halted (run faithful storage_at_the_wait (initial Concurrent)) = Some 0%Z
  ∧ length (issued (trace (log (run faithful storage_at_the_wait (initial Concurrent)))))
    = 26.
Proof. by vm_compute. Qed.

(** ** The two orderings of the main flow *)

(** C5.  The creation of the virtual machine is never issued before the
    creation of the storage account has completed.  In the sequential
    variant, by program order: before every such request in the trace of
    a run, the creation of the storage account has returned without error.
    In the concurrent variant, under every schedule: before every such
    request, a goroutine has had the creation of the storage account
    return to it without error, has then signalled the wait group, and the
    main goroutine has then passed its wait. *)
Theorem vm_after_storage_account :
  (∀ w before tid g n vm after,
     trace (exec w [] (main Sequential)).2
     = before ++ EvIssue tid (VirtualMachinesCreateOrUpdate g n vm) :: after →
     storedBefore Sequential before)
  ∧ (∀ v w sched before tid g n vm after,
       trace (log (run w sched (initial v)))
       = before ++ EvIssue tid (VirtualMachinesCreateOrUpdate g n vm) :: after →
       storedBefore v before).
Proof.
  assert (Hseq : ∀ w before tid g n vm after,
            trace (exec w [] (main Sequential)).2
            = before ++ EvIssue tid (VirtualMachinesCreateOrUpdate g n vm) :: after →
            storedBefore Sequential before).
  { intros w before tid g n vm after Htrace.
    set (V := EvIssue tid (VirtualMachinesCreateOrUpdate g n vm)) in *.
    destruct (exec_BeforeAccount w (main Sequential) [] BeforeAccount_main)
      as (out & new & E & Hnew).
    rewrite app_nil_r in E. rewrite E in Htrace. simpl in Htrace.
    assert (Hin : V ∈ new).
    { apply elem_of_reverse. unfold trace in Htrace. rewrite Htrace.
      apply elem_of_app. right. apply list_elem_of_here. }
    destruct Hnew as [Hnew|(newer & older & -> & Hold)].
    - exfalso.
      by apply (noVM_not_elem new tid (VirtualMachinesCreateOrUpdate g n vm) Hnew I).
    - unfold trace in Htrace. rewrite reverse_app, reverse_cons, <- app_assoc in Htrace.
      simpl in Htrace.
      assert (Hnot : V ∉ reverse older).
      { rewrite elem_of_reverse. by apply noVM_not_elem. }
      assert (Hne : V ≠ EvReturn 0 theStorageAccount None) by done.
      destruct (behind _ _ _ _ _ _ Hnot Hne Htrace) as [l ->].
      simpl. eauto. }
  split; [exact Hseq|].
  intros [|] w sched before tid g n vm after Htrace.
  - destruct (sequential_trace w sched) as [later Hlater].
    rewrite Htrace, <- app_assoc in Hlater. simpl in Hlater.
    by apply Hseq in Hlater.
  - set (V := EvIssue tid (VirtualMachinesCreateOrUpdate g n vm)) in *.
    set (m := run w sched (initial Concurrent)) in *.
    assert (Hin : V ∈ log m).
    { apply elem_of_reverse. unfold trace in Htrace. rewrite Htrace.
      apply elem_of_app. right. apply list_elem_of_here. }
    destruct (JoinInvariant_run w sched)
      as [(newer & mid & older & t & Hlog & Hst & Hno)|[Hno _]].
    + fold m in Hlog. unfold trace in Htrace.
      rewrite Hlog, reverse_app, reverse_cons, <- app_assoc in Htrace.
      simpl in Htrace.
      assert (Hnot : V ∉ reverse (mid ++ EvWgDone t :: older)).
      { rewrite elem_of_reverse. by apply noVM_not_elem. }
      assert (Hne : V ≠ EvWgWait 0) by done.
      destruct (behind _ _ _ _ _ _ Hnot Hne Htrace) as [l ->].
      apply elem_of_reverse_2, list_elem_of_split in Hst as (o1 & o2 & Ho).
      exists t, o1, o2, (reverse mid), l.
      rewrite reverse_app, reverse_cons, Ho, <- !app_assoc. done.
    + exfalso.
      by apply (noVM_not_elem (log m) tid (VirtualMachinesCreateOrUpdate g n vm) Hno I).
Qed.

Lemma vm_after_storage_account_witness :
  storedBefore Sequential (take 53 (trace (exec faithful [] (main Sequential)).2))
  ∧ storedBefore Concurrent
      (take 58 (trace (log (run faithful storage_at_the_wait (initial Concurrent))))).
Proof.
  split.
  - assert (Hlg : ∃ vm,
              trace (exec faithful [] (main Sequential)).2
              = take 53 (trace (exec faithful [] (main Sequential)).2)
                ++ EvIssue 0 (VirtualMachinesCreateOrUpdate groupName vmName vm)
                   :: drop 54 (trace (exec faithful [] (main Sequential)).2)).
    { eexists. vm_compute. reflexivity. }
    destruct Hlg as [vm Hlg].
    exact (proj1 vm_after_storage_account faithful _ _ _ _ _ _ Hlg).
  - assert (Hlg : ∃ vm,
              trace (log (run faithful storage_at_the_wait (initial Concurrent)))
              = take 58 (trace (log (run faithful storage_at_the_wait
                                       (initial Concurrent))))
                ++ EvIssue 0 (VirtualMachinesCreateOrUpdate groupName vmName vm)
                   :: drop 59 (trace (log (run faithful storage_at_the_wait
                                             (initial Concurrent))))).
    { eexists. vm_compute. reflexivity. }
    destruct Hlg as [vm Hlg].
    exact (proj2 vm_after_storage_account Concurrent faithful storage_at_the_wait
             _ _ _ _ _ _ Hlg).
Defined.

(** * Further properties of the code *)

(** ** Listing the interfaces *)

Lemma printNIC_report (w : Oracle) (h : list Event) (nic : Interface) :
  fieldsPresent nic →
  ∃ lines,
    report nic = Some lines
    ∧ exec w h (printNIC nic) = (Returned tt, reverse (EvPrint 0 <$> lines) ++ h).
Proof.
  destruct nic as [id name loc props].
  destruct name as [name|], loc as [loc|], props as [[configs mac fwd]|];
    try (intros ([? ?] & [? ?] & [? ?] & [? ?] & [? ?] & [? ?]); discriminate).
  destruct fwd as [fwd|], mac as [mac|],
    configs as [[|[cname [[ip method subnet primary pip]|]] configs]|];
    try (intros ([? ?] & [? ?] & [? ?] & [? ?] & [? ?] & [? ?]); discriminate).
  destruct ip as [ip|], subnet as [[[sid|] sname sprops]|];
    try (intros ([? ?] & [? ?] & [? ?] & [? ?] & [? ?] & [? ?]); discriminate).
  intros _. eexists. split; reflexivity.
Qed.

Lemma printNIC_all (w : Oracle) (nics : list Interface) (i : nat) (h : list Event) :
  Forall fieldsPresent nics →
  exec w h (forRange i nics (λ _ nic _, printNIC nic) tt)
  = (Returned tt, reverse (EvPrint 0 <$> reports nics) ++ h).
Proof.
  revert i h. induction nics as [|nic nics IH]; intros i h Hall; [done|].
  inversion Hall as [|? ? Hnic Hall']; subst.
  destruct (printNIC_report w h nic Hnic) as (lines & Hlines & E).
  simpl. unfold_bind. rewrite exec_bind, E, (IH _ _ Hall').
  unfold reports. simpl. rewrite Hlines. simpl.
  by rewrite fmap_app, reverse_app, <- app_assoc.
Qed.

Lemma issued_prints (lines : list string) : issued (EvPrint 0 <$> lines) = [].
Proof. induction lines; done. Qed.

Lemma printed_prints (lines : list string) : printed (EvPrint 0 <$> lines) = lines.
Proof. induction lines as [|l lines IH]; [done|]. simpl. f_equal. exact IH. Qed.

Lemma reports_length (nics : list Interface) :
  Forall fieldsPresent nics → length (reports nics) = 8 * length nics.
Proof.
  induction 1 as [|x l Hx Hl IH]; [done|].
  destruct (printNIC_report accepting [] x Hx) as (lines & Hlines & _).
  unfold reports in *.
  change (omap report (x :: l))
    with (match report x with Some y => y :: omap report l | None => omap report l end).
  rewrite Hlines.
  change (concat (lines :: omap report l)) with (lines ++ concat (omap report l)).
  rewrite length_app, IH.
  unfold report in Hlines.
  repeat (match type of Hlines with
          | (?m ≫= _) = Some _ => destruct m; simpl in Hlines; [|discriminate]
          end).
  injection Hlines as <-. simpl. lia.
Qed.

(** X1.  When the list call succeeds with no interface (a nil list or an
    empty one), [listNICs] says that the resource group has no NICs and
    returns; the list call is the only call it issues. *)
Theorem listNICs_empty (v : Variant) (w : Oracle) (h : list Event)
    (result : InterfaceListResult) :
  w (EvIssue 0 (InterfacesList groupName) :: EvPrint 0 ("Listing NICs" +:+ nl) :: h)
    (InterfacesList groupName) = (result, None) →
  Value result = None ∨ Value result = Some [] →
  ∃ new,
    exec w h (listNICs v) = (Returned tt, new ++ h)
    ∧ trace new
      = [EvPrint 0 ("Listing NICs" +:+ nl);
         EvIssue 0 (InterfacesList groupName);
         EvReturn 0 (InterfacesList groupName) None;
         EvPrint 0 ("There are no NICs in your-azure-sample-group resource group" +:+ nl)].
Proof.
  intros Hreply Hvalue. unfold listNICs. unfold_bind. simpl. rewrite Hreply. simpl.
  destruct result as [value]. simpl in Hvalue.
  destruct Hvalue as [->| ->]; simpl; by eexists [_; _; _; _].
Qed.

Lemma listNICs_empty_witness :
  ∃ new,
    exec accepting [] (listNICs Sequential) = (Returned tt, new ++ [])
    ∧ trace new
      = [EvPrint 0 ("Listing NICs" +:+ nl);
         EvIssue 0 (InterfacesList groupName);
         EvReturn 0 (InterfacesList groupName) None;
         EvPrint 0 ("There are no NICs in your-azure-sample-group resource group" +:+ nl)].
Proof.
  apply (listNICs_empty Sequential accepting [] {| Value := None |}).
  - reflexivity.
  - left. reflexivity.
Defined.

(** X2.  When the list call succeeds with interfaces that all have the
    fields [printNIC] reads, [listNICs] returns after printing the eight
    lines of every interface, in the order of the list; the list call is
    the only call it issues. *)
Theorem listNICs_reports (v : Variant) (w : Oracle) (h : list Event)
    (result : InterfaceListResult) (nic : Interface) (nics : list Interface) :
  w (EvIssue 0 (InterfacesList groupName) :: EvPrint 0 ("Listing NICs" +:+ nl) :: h)
    (InterfacesList groupName) = (result, None) →
  Value result = Some (nic :: nics) →
  Forall fieldsPresent (nic :: nics) →
  ∃ new,
    exec w h (listNICs v) = (Returned tt, new ++ h)
    ∧ issued (trace new) = [InterfacesList groupName]
    ∧ printed (trace new) = ("Listing NICs" +:+ nl) :: reports (nic :: nics)
    ∧ length (reports (nic :: nics)) = 8 * length (nic :: nics).
Proof.
  intros Hreply Hvalue Hall. unfold listNICs. unfold_bind. simpl. rewrite Hreply. simpl.
  destruct result as [value]. simpl in Hvalue. subst value.
  rewrite (printNIC_all w (nic :: nics) 0 _ Hall).
  eexists (_ ++ [_; _; _]). split; [by rewrite <- app_assoc|].
  unfold trace. rewrite reverse_app, reverse_involutive. simpl.
  repeat split.
  - unfold issued. simpl. f_equal. apply issued_prints.
  - unfold printed. simpl. f_equal. apply printed_prints.
  - by apply reports_length.
Qed.

Lemma listNICs_reports_witness :
  ∃ new,
    exec (listing [nic_full; nic_full]) [] (listNICs Concurrent) = (Returned tt, new ++ [])
    ∧ length (printed (trace new)) = 17%nat.
Proof.
  destruct (listNICs_reports Concurrent (listing [nic_full; nic_full]) []
              {| Value := Some [nic_full; nic_full] |} nic_full [nic_full])
    as (new & Hexec & _ & Hprinted & Hlength).
  - reflexivity.
  - reflexivity.
  - repeat constructor; eexists; reflexivity.
  - exists new. split; [exact Hexec|]. rewrite Hprinted.
    change (S (length (reports [nic_full; nic_full])) = 17%nat).
    rewrite Hlength. reflexivity.
Defined.

(** ** What the creating functions send and return *)

(** X3.  [createPIP] first sends a create-or-update of the address with
    no name of its own, the location westus and the DNS label
    azuresample- followed by the name.  When no call fails, the only
    other call is the get of that address, and what [createPIP] returns
    is the answer to that get, not the value it sent. *)
Theorem createPIP_returns_fetched (v : Variant) (w : Oracle) (pipName : string) :
  ∃ out log pip rest,
    exec w [] (createPIP v pipName) = (out, log)
    ∧ issued (trace log) = PublicIPAddressesCreateOrUpdate groupName pipName pip :: rest
    ∧ pip_Name pip = None
    ∧ pip_Location pip = Some westUS
    ∧ dnsLabelOf pip = Some ("azuresample-" +:+ pipName)
    ∧ (failures (trace log) = [] →
         rest = [PublicIPAddressesGet groupName pipName]
         ∧ ∃ older,
             log = EvReturn 0 (PublicIPAddressesGet groupName pipName) None :: older
             ∧ out = Returned (w older (PublicIPAddressesGet groupName pipName)).1).
Proof.
  unfold createPIP. unfold_bind. simpl.
  repeat ask_next w; destruct v; simpl; eexists _, _, _, _;
    do 5 (split; [reflexivity|]); intros Hf; try discriminate Hf.
  all: split; [reflexivity|]; eexists; split; [reflexivity|].
  all: match goal with H : _ = (_, None) |- _ => by rewrite H end.
Qed.

(** X4.  When [createSubnets] returns, it returns one subnet for each of
    the three subnet names, in their order, and each of them is the
    answer of a successful get of the subnet of that name. *)
Theorem createSubnets_returns_fetched (v : Variant) (w : Oracle) (subnets : list Subnet) :
  (exec w [] (createSubnets v)).1 = Returned subnets →
  Forall2 (λ n subnet, ∃ h, w h (SubnetsGet groupName vNetName n) = (subnet, None))
    subnetNames subnets.
Proof.
  unfold createSubnets. unfold_bind. destruct v; simpl.
  all: repeat ask_next w.
  all: intros Hout; try discriminate Hout.
  all: injection Hout as <-; repeat constructor; eexists; eassumption.
Qed.

Lemma createSubnets_returns_fetched_witness :
  Forall2 (λ n subnet, ∃ h, faithful h (SubnetsGet groupName vNetName n) = (subnet, None))
    subnetNames fetched_subnets.
Proof.
  apply (createSubnets_returns_fetched Sequential faithful fetched_subnets).
  vm_compute. reflexivity.
Defined.

(** X5.  The [i]-th interface request of [createNICs] is for the [i]-th
    interface name and carries one IP configuration, named IPconfig
    followed by [i + 1], with dynamic allocation, no private address and
    the [i]-th subnet it was given; the interface has the location westus
    and no name of its own. *)
Theorem createNICs_binds_subnets (v : Variant) (w : Oracle) (subnets : list Subnet)
    (pip : PublicIPAddress) (i : nat) (name : string) (nic : Interface) :
  nicRequests (trace (exec w [] (createNICs v subnets pip)).2) !! i = Some (name, nic) →
  nicNames !! i = Some name
  ∧ is_Some (subnets !! i)
  ∧ subnetOf nic = subnets !! i
  ∧ configNames nic = Some [Some ("IPconfig" +:+ fmt_int (i + 1))]
  ∧ allocationOf nic = Some Dynamic
  ∧ privateIPAddressOf nic = None
  ∧ nic_Location nic = Some westUS
  ∧ nic_Name nic = None.
Proof.
  unfold createNICs. unfold_bind.
  destruct subnets as [|[id0 [n0|] p0] [|[id1 [n1|] p1] [|[id2 [n2|] p2] subnets]]];
    destruct v; simpl.
  all: repeat ask_next w.
  all: intros Hi; destruct i as [|[|[|i]]]; try discriminate Hi.
  all: injection Hi as <- <-; repeat split; eauto.
Qed.

Lemma createNICs_binds_subnets_witness :
  nicNames !! 2 = Some nicNameBackEnd
  ∧ is_Some (three_subnets !! 2)
  ∧ ∃ nic,
      nicRequests (trace (exec faithful [] (createNICs Concurrent three_subnets pip_2)).2) !! 2
      = Some (nicNameBackEnd, nic)
      ∧ subnetOf nic = three_subnets !! 2
      ∧ configNames nic = Some [Some "IPconfig3"].
Proof.
  assert (H : ∃ nic,
    nicRequests (trace (exec faithful [] (createNICs Concurrent three_subnets pip_2)).2) !! 2
    = Some (nicNameBackEnd, nic)).
  { vm_compute. eexists. reflexivity. }
  destruct H as [nic H].
  destruct (createNICs_binds_subnets Concurrent faithful three_subnets pip_2 2
              nicNameBackEnd nic H) as (H1 & H2 & H3 & H4 & _).
  split; [exact H1|]. split; [exact H2|]. exists nic. split; [exact H|].
  split; [exact H3|exact H4].
Defined.

(** X6.  Given fewer than three subnets, [createNICs] never returns, and
    it sends at most one interface request for each subnet it has.  When
    no call fails it panics: after one request for every subnet given,
    when they all have a name, the next index being out of range; and
    otherwise no later than at the first subnet without a name, on the nil
    name. *)
Theorem createNICs_short_of_subnets (v : Variant) (w : Oracle) (subnets : list Subnet)
    (pip : PublicIPAddress) :
  (length subnets < 3)%nat →
  ∃ out log,
    exec w [] (createNICs v subnets pip) = (out, log)
    ∧ (∀ nics, out ≠ Returned nics)
    ∧ (length (nicRequests (trace log)) ≤ length subnets)%nat
    ∧ (failures (trace log) = [] →
         out = Panicked
         ∧ head log = Some (EvPanic 0)
         ∧ (Forall (λ subnet, is_Some (sub_Name subnet)) subnets →
              length (nicRequests (trace log)) = length subnets)
         ∧ (∀ i subnet, subnets !! i = Some subnet → sub_Name subnet = None →
              (length (nicRequests (trace log)) ≤ i)%nat)).
Proof.
  intros Hlen. unfold createNICs. unfold_bind.
  destruct subnets as [|[id0 [n0|] p0] [|[id1 [n1|] p1] [|[id2 [n2|] p2] subnets]]];
    try (simpl in Hlen; lia); destruct v; simpl.
  all: repeat ask_next w.
  all: eexists _, _; (split; [reflexivity|]).
  all: split; [intros nics Hout; discriminate Hout|].
  all: split; [simpl; lia|].
  all: intros Hf; try discriminate Hf.
  all: split; [reflexivity|]; split; [reflexivity|]; split;
    [ intros Hall; try reflexivity;
      repeat (apply Forall_cons in Hall as [[? ?] Hall]); simpl in *; congruence
    | intros i subnet Hi Hn; destruct i as [|[|i]]; simpl in Hi; simplify_eq;
      simpl in *; try discriminate; lia ].
Qed.

Lemma createNICs_short_of_subnets_witness :
  ∃ out log,
    exec accepting [] (createNICs Sequential (take 2 three_subnets) pip_2) = (out, log)
    ∧ out = Panicked
    ∧ length (nicRequests (trace log)) = 2%nat.
Proof.
  destruct (createNICs_short_of_subnets Sequential accepting (take 2 three_subnets) pip_2)
    as (out & log & Hexec & _ & _ & Hrest).
  - simpl. lia.
  - exists out, log. split; [exact Hexec|].
    assert (Hf : failures (trace log) = []).
    { vm_compute in Hexec. injection Hexec as <- <-. reflexivity. }
    destruct (Hrest Hf) as (Hout & _ & Hall & _).
    split; [exact Hout|]. apply Hall. repeat constructor; eexists; reflexivity.
Defined.

(** X7.  When [createNICs] returns, it returns one interface for each of
    the three interface names, in their order, and each of them is the
    answer of a successful get of the interface of that name. *)
Theorem createNICs_returns_fetched (v : Variant) (w : Oracle) (subnets : list Subnet)
    (pip : PublicIPAddress) (nics : list Interface) :
  (exec w [] (createNICs v subnets pip)).1 = Returned nics →
  Forall2 (λ n nic, ∃ h, w h (InterfacesGet groupName n) = (nic, None)) nicNames nics.
Proof.
  unfold createNICs. unfold_bind.
  destruct subnets as [|[id0 [n0|] p0] [|[id1 [n1|] p1] [|[id2 [n2|] p2] subnets]]];
    destruct v; simpl.
  all: repeat ask_next w.
  all: intros Hout; try discriminate Hout.
  all: injection Hout as <-; repeat constructor; eexists; eassumption.
Qed.

Lemma createNICs_returns_fetched_witness :
  Forall2 (λ n nic, ∃ h, faithful h (InterfacesGet groupName n) = (nic, None))
    nicNames fetched_nics.
Proof.
  apply (createNICs_returns_fetched Sequential faithful three_subnets pip_2 fetched_nics).
  vm_compute. reflexivity.
Defined.

(** ** More on the references and on the update *)

(** X8.  The nil check on the name that the later revision adds to
    [buildNIRs] decides nothing: the line printed before it has already
    dereferenced the name, so the two revisions of [buildNIRs] are the
    same program on every list, with the same output and the same
    panics. *)
Theorem buildNIRs_guard_unreachable (nics : list Interface) :
  buildNIRs Sequential nics = buildNIRs Concurrent nics.
Proof.
  unfold buildNIRs. unfold_bind. simpl. f_equal.
  match goal with
  | |- forRange 0 nics ?b1 [] = forRange 0 nics ?b2 [] =>
      enough (H : ∀ i nirs, forRange i nics b1 nirs = forRange i nics b2 nirs) by apply H
  end.
  induction nics as [|nic nics IH]; intros i nirs; simpl; [done|].
  unfold_bind. destruct (nic_Name nic) as [name|]; simpl; [|done].
  destruct (bool_decide (name = nicNameFrontEnd)); simpl; by rewrite IH.
Qed.

(** X9.  On interfaces that all have a name, in any number and with
    any names, [buildNIRs] returns references whose Primary flag is true
    at the interfaces named like the front end and false at the others:
    there are as many primary references as interfaces of that name, none
    when the front end is absent and several when the name is
    repeated. *)
Theorem buildNIRs_flags_follow_names (v : Variant) (w : Oracle) (nics : list Interface) :
  Forall named nics →
  ∃ nirs,
    (exec w [] (buildNIRs v nics)).1 = Returned nirs
    ∧ primaryFlag <$> nirs = frontEndFlags nics
    ∧ length (filter (λ nir, primaryFlag nir = Some true) nirs)
      = length (filter (λ nic, nic_Name nic = Some nicNameFrontEnd) nics).
Proof.
  intros Hnamed. destruct (buildNIRs_Returned v w nics [] Hnamed) as [h' E].
  exists (referenceOf <$> nics). rewrite E. split; [done|].
  split.
  - unfold frontEndFlags. apply list_eq. intros i. rewrite !list_lookup_fmap.
    by destruct (nics !! i).
  - clear. induction nics as [|nic nics IH]; [done|].
    rewrite fmap_cons, !filter_cons.
    assert (Hiff : primaryFlag (referenceOf nic) = Some true
                   ↔ nic_Name nic = Some nicNameFrontEnd).
    { unfold primaryFlag, referenceOf. simpl. split.
      - intros H. injection H as H. by apply bool_decide_eq_true in H.
      - intros H. f_equal. by apply bool_decide_eq_true. }
    destruct (decide (nic_Name nic = Some nicNameFrontEnd)) as [Hn|Hn].
    + rewrite decide_True by (by apply Hiff). simpl. by rewrite IH.
    + rewrite decide_False by (by rewrite Hiff). exact IH.
Qed.

Lemma buildNIRs_flags_follow_names_witness :
  ∃ nirs,
    (exec accepting [] (buildNIRs Concurrent [nic_a; nic_twin; nic_full])).1 = Returned nirs
    ∧ primaryFlag <$> nirs = [Some false; Some true; Some true]
    ∧ length (filter (λ nir, primaryFlag nir = Some true) nirs)
      = length (filter (λ nic, nic_Name nic = Some nicNameFrontEnd)
                  [nic_a; nic_twin; nic_full]).
Proof.
  apply (buildNIRs_flags_follow_names Concurrent accepting [nic_a; nic_twin; nic_full]).
  repeat constructor; eexists; reflexivity.
Defined.

Lemma scan_last_match (w : Oracle) (nicName : string) (before after : list Interface)
    (target : Interface) (i index : nat) (h : list Event) :
  Forall named before →
  nic_Name target = Some nicName →
  Forall named after →
  Forall (λ nic, nic_Name nic ≠ Some nicName) after →
  exec w h
    (forRange i (before ++ target :: after)
       (λ i nic index,
          bind (deref (nic_Name nic))
            (λ name, if decide (name = nicName) then Ret i else Ret index))
       index)
  = (Returned (i + length before), h).
Proof.
  intros Hbefore Htarget Hafter Hno. revert i index.
  induction Hbefore as [|nic before [name Hname] _ IH]; intros i index; simpl.
  - unfold_bind. rewrite exec_bind, Htarget. simpl.
    rewrite decide_True by done. simpl.
    rewrite (scan_no_match w nicName after (S i) i h Hafter Hno).
    f_equal. f_equal. lia.
  - unfold_bind. rewrite exec_bind, Hname. simpl.
    destruct (decide (name = nicName)); simpl; rewrite IH; do 2 f_equal; lia.
Qed.

(** X10.  When several interfaces of the list have the given name,
    [updateNICwithPIP] updates the last of them: the scan does not stop
    at the first match.  The request it sends is that interface with the
    public IP and the primary flag set in its first IP configuration and
    nothing else changed; the only other call it can issue is the
    deletion of the resource group after a failure, and when nothing
    fails the list it leaves is the given one with that interface
    replaced. *)
Theorem updateNICwithPIP_last_match (v : Variant) (w : Oracle) (nicName pipName : string)
    (pip : PublicIPAddress) (id loc cname mac : option string)
    (fwd : option bool) (cprops : InterfaceIPConfigurationPropertiesFormat)
    (configs : list InterfaceIPConfiguration) (before after : list Interface) :
  let target :=
    {| nic_ID := id; nic_Name := Some nicName; nic_Location := loc;
       nic_props := Some {|
         IPConfigurations := Some ({| ipc_Name := cname; ipc_props := Some cprops |}
                                   :: configs);
         MacAddress := mac; EnableIPForwarding := fwd |} |} in
  let pushed :=
    {| nic_ID := id; nic_Name := Some nicName; nic_Location := loc;
       nic_props := Some {|
         IPConfigurations := Some ({| ipc_Name := cname; ipc_props := Some {|
             PrivateIPAddress := PrivateIPAddress cprops;
             PrivateIPAllocationMethod := PrivateIPAllocationMethod cprops;
             ipc_Subnet := ipc_Subnet cprops;
             ipc_Primary := Some true;
             ipc_PublicIPAddress := Some pip |} |} :: configs);
         MacAddress := mac; EnableIPForwarding := fwd |} |} in
  pip_Name pip = Some pipName →
  Forall named before →
  Forall named after →
  Forall (λ nic, nic_Name nic ≠ Some nicName) after →
  ∃ out log,
    exec w [] (updateNICwithPIP v nicName (before ++ target :: after) pip) = (out, log)
    ∧ (∃ others,
         issued (trace log)
           = InterfacesCreateOrUpdate groupName nicName pushed :: others
         ∧ (others = [] ∨ others = [GroupsDelete groupName]))
    ∧ (failures (trace log) = [] → out = Returned (before ++ pushed :: after)).
Proof.
  intros target pushed Hpip Hbefore Hafter Hno.
  unfold updateNICwithPIP. unfold_bind.
  rewrite exec_bind,
    (scan_last_match w nicName before after target 0 0 [] Hbefore eq_refl Hafter Hno).
  rewrite Hpip. simpl. unfold indexAt.
  rewrite list_lookup_middle by done. simpl.
  rewrite list_lookup_insert_eq by (rewrite length_app; simpl; lia). simpl.
  rewrite list_lookup_insert_eq
    by (rewrite length_insert, length_app; simpl; lia). simpl.
  rewrite list_insert_insert_eq.
  replace (<[length before:=pushed]> (before ++ target :: after))
    with (before ++ pushed :: after)
    by (rewrite insert_app_r_alt by lia; by rewrite Nat.sub_diag).
  subst target pushed. ask_next w;
    destruct v; simpl; eexists _, _; (split; [reflexivity|]);
    (split; [eexists; split; [reflexivity|auto] | done]).
Qed.

Lemma updateNICwithPIP_last_match_witness :
  ∃ out log pushed,
    exec accepting [] (updateNICwithPIP Sequential nicNameFrontEnd
                         [nic_full; nic_twin; nic_a] pip_2) = (out, log)
    ∧ issued (trace log) = [InterfacesCreateOrUpdate groupName nicNameFrontEnd pushed]
    ∧ nic_ID pushed = Some "id-4"
    ∧ out = Returned [nic_full; pushed; nic_a].
Proof.
  destruct (updateNICwithPIP_last_match Sequential accepting nicNameFrontEnd "pip2" pip_2
              (Some "id-4") (Some westUS) (Some "IPconfig4") None None config_1 []
              [nic_full] [nic_a])
    as (out & log & Hexec & _ & _).
  - reflexivity.
  - repeat constructor; eexists; reflexivity.
  - repeat constructor; eexists; reflexivity.
  - repeat constructor; discriminate.
  - exists out, log. eexists. split; [exact Hexec|].
    vm_compute in Hexec. injection Hexec as <- <-. vm_compute. repeat split.
Defined.

(** X11.  On the empty list of interfaces [updateNICwithPIP] panics
    before issuing any call: on the name of the address when it is nil,
    and otherwise on the index 0, which is out of range. *)
Theorem updateNICwithPIP_empty (v : Variant) (w : Oracle) (nicName : string)
    (pip : PublicIPAddress) :
  ∃ log,
    exec w [] (updateNICwithPIP v nicName [] pip) = (Panicked, log)
    ∧ issued (trace log) = []
    ∧ head log = Some (EvPanic 0).
Proof.
  unfold updateNICwithPIP. unfold_bind. simpl.
  destruct (pip_Name pip); simpl; eexists; repeat split.
Qed.

(** ** More on the start-up *)

Lemma firstMissing_None (E : Env) :
  firstMissing E = None ↔
  Getenv E "AZURE_SUBSCRIPTION_ID" ≠ "" ∧ Getenv E "AZURE_TENANT_ID" ≠ ""
  ∧ Getenv E "AZURE_CLIENT_ID" ≠ "" ∧ Getenv E "AZURE_CLIENT_SECRET" ≠ "".
Proof.
  unfold firstMissing, requiredVariables. rewrite !filter_cons, filter_nil.
  repeat case_decide; simpl; split; intros Hm; try discriminate Hm; tauto.
Qed.

(** X12.  [init] has two outcomes.  When the four variables are set
    and the SDK accepts the tenant and the credentials, it returns without
    printing.  Otherwise it prints one line and exits with status 1; when
    it is the token that the SDK refuses, the line is the text of
    [onErrorFail]. *)
Theorem init_outcome (E : Env) (w : Oracle) (h : list Event) :
  (ready E → exec w h (init E) = (Returned tt, h))
  ∧ (¬ ready E →
       ∃ line, exec w h (init E) = (Exited 1, EvExit 0 1 :: EvPrint 0 line :: h))
  ∧ (∀ e, firstMissing E = None →
       OAuthConfigForTenant E (Getenv E "AZURE_TENANT_ID") = None →
       NewServicePrincipalToken E (Getenv E "AZURE_TENANT_ID") (Getenv E "AZURE_CLIENT_ID")
         (Getenv E "AZURE_CLIENT_SECRET") = Some e →
       exec w h (init E)
       = (Exited 1,
          EvExit 0 1 :: EvPrint 0 ("NewServicePrincipalToken failed: " +:+ e +:+ nl) :: h)).
Proof.
  unfold ready. rewrite firstMissing_None.
  unfold init, getEnvVarOrExit, createClients. unfold_bind.
  destruct (decide (Getenv E "AZURE_SUBSCRIPTION_ID" = "")) as [H1|H1]; simpl;
    [split; [|split]; [tauto|eauto|intros e Hm%firstMissing_None; tauto]|].
  destruct (decide (Getenv E "AZURE_TENANT_ID" = "")) as [H2|H2]; simpl;
    [split; [|split]; [tauto|eauto|intros e Hm%firstMissing_None; tauto]|].
  destruct (OAuthConfigForTenant E _) as [e1|]; simpl;
    [split; [|split]; [intros (_ & ? & _); discriminate|eauto|intros; discriminate]|].
  destruct (decide (Getenv E "AZURE_CLIENT_ID" = "")) as [H3|H3]; simpl;
    [split; [|split]; [tauto|eauto|intros e Hm%firstMissing_None; tauto]|].
  destruct (decide (Getenv E "AZURE_CLIENT_SECRET" = "")) as [H4|H4]; simpl;
    [split; [|split]; [tauto|eauto|intros e Hm%firstMissing_None; tauto]|].
  destruct (NewServicePrincipalToken E _ _ _) as [e2|]; simpl;
    [split; [|split]; [intros (_ & _ & ?); discriminate|eauto|by intros e _ _ [= ->]]|].
  split; [|split]; [done|tauto|intros; discriminate].
Qed.

(** ** The script of a run *)

Lemma Failing_bind (v : Variant) {A B : Type} (p : Prog A) (f : A → Prog B) :
  Failing v p → Failing v (bind p f).
Proof.
  revert B f. induction p; intros B f Hp; simpl in *; try done.
  - auto.
  - by destruct Hp as (-> & -> & ->).
Qed.

Lemma Script_bind (v : Variant) (C : Prog unit → Prop) {A B : Type} (ks1 ks2 : list Step)
    (p : Prog A) (f : A → Prog B) :
  Script v C ks1 p → (∀ a, Script v C ks2 (f a)) → Script v C (ks1 ++ ks2) (bind p f).
Proof.
  revert B f ks1. induction p as [| | | |A c k IH| | | | | |A child IHc k IHk];
    intros B f ks1 Hp Hf; simpl in *.
  - subst ks1. apply Hf.
  - auto.
  - destruct Hp as (ks' & -> & Hk). eexists. split; [reflexivity|]. auto.
  - destruct Hp as (ks' & -> & Hk). eexists. split; [reflexivity|]. auto.
  - intros r. specialize (Hp r). destruct (r.2).
    + by apply Failing_bind.
    + destruct Hp as (ks' & -> & Hk). eexists. split; [reflexivity|]. auto.
  - done.
  - done.
  - destruct Hp as (ks' & -> & Hk). eexists. split; [reflexivity|]. auto.
  - destruct Hp as (ks' & -> & Hk). eexists. split; [reflexivity|]. auto.
  - destruct Hp as (ks' & -> & Hk). eexists. split; [reflexivity|]. auto.
  - destruct Hp as (Hc & ks' & -> & Hk). split; [done|].
    eexists. split; [reflexivity|]. auto.
Qed.

Lemma Script_silent (v : Variant) (C : Prog unit → Prop) {A B : Type} (ks : list Step)
    (p : Prog A) (f : A → Prog B) :
  Script v C [] p → (∀ a, Script v C ks (f a)) → Script v C ks (bind p f).
Proof. apply (Script_bind v C [] ks). Qed.

Lemma Script_forRange (v : Variant) (C : Prog unit → Prop) {X St}
    (body : nat → X → St → Prog St) (l : list X) (i : nat) (s : St) :
  (∀ i x s, Script v C [] (body i x s)) → Script v C [] (forRange i l body s).
Proof.
  intros Hbody. revert i s. induction l as [|x l IH]; intros i s; simpl; [done|].
  apply Script_silent; auto.
Qed.

(** Goes through a function of the script along every answer of the
    collaborator, checking its stepsOf against the script. *)
Ltac scripted :=
  unfold_bind;
  repeat first
    [ progress simpl
    | progress unfold deref, indexAt
    | apply Script_forRange
    | match goal with
      | |- Script _ _ _ (bind (forRange _ _ _ _) _) => apply Script_silent
      | |- ∀ r : Reply _, _ => intros [? [?|]]
      | |- ∀ _, _ => intro
      | |- ∃ _, _ = _ ∧ _ => eexists; split; [reflexivity|]
      | |- _ ∧ _ => split
      | |- True => exact I
      | |- _ = _ => reflexivity
      | |- context [match ?x with _ => _ end] => destruct x
      end ].

Section Scripts.
Context (v : Variant) (C : Prog unit → Prop).

Lemma Script_createResourceGroup :
  Script v C (exchange groupClient "CreateOrUpdate" groupName) (createResourceGroup v).
Proof. unfold createResourceGroup. scripted. Qed.

Lemma Script_createVirtualNetwork :
  Script v C (exchange vNetClient "CreateOrUpdate" vNetName) (createVirtualNetwork v).
Proof. unfold createVirtualNetwork. scripted. Qed.

Lemma Script_createSubnets :
  Script v C
    (subnetNames ≫= λ n,
       exchange subnetClient "CreateOrUpdate" n ++ exchange subnetClient "Get" n)
    (createSubnets v).
Proof. unfold createSubnets. scripted. Qed.

Lemma Script_createPIP pipName :
  Script v C
    (exchange addressClient "CreateOrUpdate" pipName ++ exchange addressClient "Get" pipName)
    (createPIP v pipName).
Proof. unfold createPIP. scripted. Qed.

Lemma Script_createNICs subnets pip :
  Script v C
    (nicNames ≫= λ n,
       exchange interfacesClient "CreateOrUpdate" n ++ exchange interfacesClient "Get" n)
    (createNICs v subnets pip).
Proof. unfold createNICs. scripted. Qed.

Lemma Script_buildNIRs nics : Script v C [] (buildNIRs v nics).
Proof. unfold buildNIRs, isFrontEnd. scripted. Qed.

Lemma Script_createVM nirs :
  Script v C (exchange vmClient "CreateOrUpdate" vmName) (createVM v nirs).
Proof. unfold createVM. scripted. Qed.

Lemma Script_updateNICwithPIP nicName nics pip :
  Script v C (exchange interfacesClient "CreateOrUpdate" nicName)
    (updateNICwithPIP v nicName nics pip).
Proof.
  unfold updateNICwithPIP, setIPConfigProps, ipConfiguration0. scripted.
Qed.

Lemma Script_printNIC nic : Script v C [] (printNIC nic).
Proof. unfold printNIC, ipConfiguration0. scripted. Qed.

Lemma Script_listNICs :
  Script v C (exchange interfacesClient "List" groupName) (listNICs v).
Proof. unfold listNICs, printNIC, ipConfiguration0. scripted. Qed.

Lemma Script_deleteNIC nicName :
  Script v C
    (exchange vmClient "Delete" vmName ++ exchange interfacesClient "Delete" nicName)
    (deleteNIC v nicName).
Proof. unfold deleteNIC. scripted. Qed.

Lemma Script_deleteResourceGroup :
  Script v C (exchange groupClient "Delete" groupName) (deleteResourceGroup v).
Proof. unfold deleteResourceGroup. scripted. Qed.
End Scripts.

Lemma Script_createStorageAccount (v : Variant) (C : Prog unit → Prop) :
  Script v C (match v with Sequential => storage | Concurrent => storage ++ [Done] end)
    (createStorageAccount v).
Proof. unfold createStorageAccount. destruct v; scripted. Qed.

Lemma Script_Println (v : Variant) (C : Prog unit → Prop) (s : string) :
  Script v C [] (Println s).
Proof. done. Qed.

Lemma Script_Printf (v : Variant) (C : Prog unit → Prop) (s : string) :
  Script v C [] (Printf s).
Proof. done. Qed.

Lemma Script_Scanln (v : Variant) (C : Prog unit → Prop) :
  Script v C [Prompt] (Scanln (Ret tt)).
Proof. by exists []. Qed.

(** One function of the main flow, then the rest. *)
Ltac then_ lemma := apply Script_bind; [apply lemma | intros ?].

Lemma Script_teardown (v : Variant) (C : Prog unit → Prop) (nics : list Interface)
    (nirs : list NetworkInterfaceReference) :
  Script v C machineAndTeardown
    (createVM v nirs;;
     pip2 ← createPIP v "pip2";
     _ ← updateNICwithPIP v nicNameFrontEnd nics pip2;
     listNICs v;;
     Printf ("Press enter to delete NIC '" +:+ nicNameMidTier +:+ "'..." +:+ nl);;
     Scanln (Ret tt);;
     deleteNIC v nicNameMidTier;;
     Println "Remaining NICs are...";;
     listNICs v;;
     Printf "Press enter to delete all the resources created in this sample...";;
     Scanln (Ret tt);;
     deleteResourceGroup v).
Proof.
  enough (H : Script v C
    (exchange vmClient "CreateOrUpdate" vmName
     ++ (exchange addressClient "CreateOrUpdate" "pip2" ++ exchange addressClient "Get" "pip2")
     ++ exchange interfacesClient "CreateOrUpdate" nicNameFrontEnd
     ++ exchange interfacesClient "List" groupName
     ++ []
     ++ [Prompt]
     ++ (exchange vmClient "Delete" vmName
         ++ exchange interfacesClient "Delete" nicNameMidTier)
     ++ []
     ++ exchange interfacesClient "List" groupName
     ++ []
     ++ [Prompt]
     ++ exchange groupClient "Delete" groupName)
    (createVM v nirs;;
     pip2 ← createPIP v "pip2";
     _ ← updateNICwithPIP v nicNameFrontEnd nics pip2;
     listNICs v;;
     Printf ("Press enter to delete NIC '" +:+ nicNameMidTier +:+ "'..." +:+ nl);;
     Scanln (Ret tt);;
     deleteNIC v nicNameMidTier;;
     Println "Remaining NICs are...";;
     listNICs v;;
     Printf "Press enter to delete all the resources created in this sample...";;
     Scanln (Ret tt);;
     deleteResourceGroup v)) by exact H.
  unfold_bind.
  then_ Script_createVM. then_ Script_createPIP. then_ Script_updateNICwithPIP.
  then_ Script_listNICs. then_ Script_Printf. then_ Script_Scanln.
  then_ Script_deleteNIC. then_ Script_Println. then_ Script_listNICs.
  then_ Script_Printf. then_ Script_Scanln. apply Script_deleteResourceGroup.
Qed.

Lemma Script_networking (v : Variant) (C : Prog unit → Prop) {B : Type}
    (ks : list Step) (f : list Interface → Prog B) :
  (∀ nics, Script v C ks (f nics)) →
  Script v C (networking ++ ks)
    (createVirtualNetwork v;;
     subnets ← createSubnets v;
     pip1 ← createPIP v "pip1";
     nics ← createNICs v subnets pip1;
     f nics).
Proof.
  intros Hf.
  enough (H : Script v C
    (exchange vNetClient "CreateOrUpdate" vNetName
     ++ (subnetNames ≫= λ n,
           exchange subnetClient "CreateOrUpdate" n ++ exchange subnetClient "Get" n)
     ++ (exchange addressClient "CreateOrUpdate" "pip1" ++ exchange addressClient "Get" "pip1")
     ++ (nicNames ≫= λ n,
           exchange interfacesClient "CreateOrUpdate" n
           ++ exchange interfacesClient "Get" n)
     ++ ks)
    (createVirtualNetwork v;;
     subnets ← createSubnets v;
     pip1 ← createPIP v "pip1";
     nics ← createNICs v subnets pip1;
     f nics)) by exact H.
  unfold_bind.
  then_ Script_createVirtualNetwork. then_ Script_createSubnets.
  then_ Script_createPIP. then_ Script_createNICs. apply Hf.
Qed.

Lemma Script_main (v : Variant) : Script v (Child v 0) (script v 0) (main v).
Proof.
  destruct v; unfold main, script.
  - unfold_bind. then_ Script_createResourceGroup.
    apply (Script_networking Sequential). intros nics. unfold_bind.
    then_ (Script_createStorageAccount Sequential).
    apply (Script_silent _ _ _ _ _ (Script_buildNIRs _ _ _)). intros nirs.
    apply Script_teardown.
  - unfold_bind. then_ Script_createResourceGroup.
    apply (Script_bind _ _ [Add 1]); [by exists []|intros _].
    apply (Script_bind _ _ [Spawn]); [split; [done|by exists []]|intros _].
    apply (Script_networking Concurrent). intros nics. unfold_bind.
    apply (Script_silent _ _ _ _ _ (Script_buildNIRs _ _ _)). intros nirs.
    apply (Script_bind _ _ [Wait]); [by exists []|intros _].
    apply Script_teardown.
Qed.

(** ** Following the script, step by step *)

Lemma stepsOf_snoc (evs : list Event) (ev : Event) :
  stepsOf (evs ++ [ev]) = stepsOf evs ++ option_list (stepOf ev).
Proof. unfold stepsOf. rewrite omap_app. simpl. by destruct (stepOf ev). Qed.

Lemma failures_snoc (evs : list Event) (ev : Event) :
  failures (evs ++ [ev])
  = failures evs
    ++ match ev with EvReturn _ c (Some e) => [(c, e)] | _ => [] end.
Proof.
  unfold failures. rewrite omap_app. simpl. f_equal.
  by destruct ev as [| | |? ? [?|]| | | | | |].
Qed.

Lemma Failing_step (v : Variant) {A : Type} (q k : Prog A) (tid : nat) (ev : Event)
    (evs : list Event) :
  Failing v q → LocalStep tid q ev k →
  failures (evs ++ [ev]) = failures evs
  ∧ ((stepsOf (evs ++ [ev]) = stepsOf evs ∧ Failing v k)
     ∨ (v = Concurrent ∧ stepsOf (evs ++ [ev]) = stepsOf evs ++ [cleanup] ∧ k = Exit 1)).
Proof.
  intros Hq Hstep. rewrite stepsOf_snoc, failures_snoc.
  destruct Hstep; simpl in Hq; try done.
  - rewrite !app_nil_r. auto.
  - destruct Hq as (-> & -> & ->). rewrite app_nil_r. auto.
Qed.

Lemma Follows_step (v : Variant) (C : Prog unit → Prop) (ks : list Step) {A : Type}
    (q k : Prog A) (tid : nat) (ev : Event) (evs : list Event) :
  Follows v C ks q evs → LocalStep tid q ev k → Follows v C ks k (evs ++ [ev]).
Proof.
  intros [(rest & Hks & Hq & Hf)|(did & rest & c & e & Hks & Hf & Hstate)] Hstep.
  - destruct Hstep as [s k|k|c k|c k r|d k|k|k|child k n]; simpl in Hq.
    + left. exists rest. rewrite stepsOf_snoc, failures_snoc, app_nil_r. simpl.
      by rewrite app_nil_r.
    + destruct Hq as (ks' & -> & Hk). left. exists ks'.
      rewrite stepsOf_snoc, failures_snoc, app_nil_r, <- app_assoc. done.
    + destruct Hq as (ks' & -> & Hk). left. exists ks'.
      rewrite stepsOf_snoc, failures_snoc, app_nil_r, <- app_assoc. done.
    + destruct (Hq (emptyResult c, None)) as (ks0 & -> & _).
      specialize (Hq r). destruct (r.2) as [e|] eqn:Hr.
      * right. exists (stepsOf evs), ks0, c, e.
        rewrite stepsOf_snoc, failures_snoc, Hf, app_nil_r. simpl. auto.
      * destruct Hq as (ks' & [= <-] & Hk). left. exists ks0.
        rewrite stepsOf_snoc, failures_snoc, app_nil_r, <- app_assoc. done.
    + destruct Hq as (ks' & -> & Hk). left. exists ks'.
      rewrite stepsOf_snoc, failures_snoc, app_nil_r, <- app_assoc. done.
    + destruct Hq as (ks' & -> & Hk). left. exists ks'.
      rewrite stepsOf_snoc, failures_snoc, app_nil_r, <- app_assoc. done.
    + destruct Hq as (ks' & -> & Hk). left. exists ks'.
      rewrite stepsOf_snoc, failures_snoc, app_nil_r, <- app_assoc. done.
    + destruct Hq as (_ & ks' & -> & Hk). left. exists ks'.
      rewrite stepsOf_snoc, failures_snoc, app_nil_r, <- app_assoc. done.
  - right. exists did, rest, c, e. split; [done|].
    destruct Hstate as [[Hsteps Hq]|(-> & Hsteps & ->)]; [|inversion Hstep].
    destruct (Failing_step v q k tid ev evs Hq Hstep) as [-> [[-> Hk]|(-> & -> & ->)]].
    + rewrite Hsteps. auto.
    + rewrite Hsteps. auto.
Qed.

(** An event that ends the process changes nothing to this. *)
Lemma Follows_end (v : Variant) (C : Prog unit → Prop) (ks : list Step) {A : Type}
    (q : Prog A) (ev : Event) (evs : list Event) :
  Follows v C ks q evs →
  (∃ tid code, ev = EvExit tid code) ∨ (∃ tid, ev = EvPanic tid) →
  Follows v C ks q (evs ++ [ev]).
Proof.
  intros H Hev. unfold Follows. rewrite stepsOf_snoc, failures_snoc.
  destruct Hev as [(tid & code & ->)|(tid & ->)]; simpl; by rewrite !app_nil_r.
Qed.

Lemma exec_Follows (v : Variant) (C : Prog unit → Prop) (ks : list Step) (w : Oracle)
    {A : Type} (p : Prog A) (h evs : list Event) :
  Follows v C ks p evs →
  ∃ out new q,
    exec w h p = (out, new ++ h)
    ∧ Follows v C ks q (evs ++ reverse new)
    ∧ Ends out q.
Proof.
  revert h evs. induction p as [| | | |A c k IH| | | | | |A child IHc k IHk];
    intros h evs Hp; simpl.
  - exists (Returned a), [], (Ret a). by rewrite app_nil_r.
  - destruct (IHp (EvPrint 0 s :: h) (evs ++ [EvPrint 0 s]))
      as (out & new & q & E & Hq & Hout);
      [by eapply Follows_step; [exact Hp|constructor]|].
    exists out, (new ++ [EvPrint 0 s]), q. rewrite E, <- app_assoc.
    split; [done|]. by rewrite reverse_app, <- app_assoc in *.
  - destruct (IHp (EvScan 0 :: h) (evs ++ [EvScan 0]))
      as (out & new & q & E & Hq & Hout);
      [by eapply Follows_step; [exact Hp|constructor]|].
    exists out, (new ++ [EvScan 0]), q. rewrite E, <- app_assoc.
    split; [done|]. by rewrite reverse_app, <- app_assoc in *.
  - destruct (IHp (EvIssue 0 c :: h) (evs ++ [EvIssue 0 c]))
      as (out & new & q & E & Hq & Hout);
      [by eapply Follows_step; [exact Hp|constructor]|].
    exists out, (new ++ [EvIssue 0 c]), q. rewrite E, <- app_assoc.
    split; [done|]. by rewrite reverse_app, <- app_assoc in *.
  - destruct (IH (w h c) (EvReturn 0 c (w h c).2 :: h) (evs ++ [EvReturn 0 c (w h c).2]))
      as (out & new & q & E & Hq & Hout);
      [by eapply Follows_step; [exact Hp|constructor]|].
    exists out, (new ++ [EvReturn 0 c (w h c).2]), q. rewrite E, <- app_assoc.
    split; [done|]. by rewrite reverse_app, <- app_assoc in *.
  - exists (Exited code), [EvExit 0 code], (Exit code). split; [done|].
    split; [|done]. apply Follows_end; eauto.
  - exists Panicked, [EvPanic 0], Panic. split; [done|].
    split; [|done]. apply Follows_end; eauto.
  - exists NeedsScheduler, [], (WgAdd delta p). by rewrite app_nil_r.
  - exists NeedsScheduler, [], (WgDone p). by rewrite app_nil_r.
  - exists NeedsScheduler, [], (WgWait p). by rewrite app_nil_r.
  - exists NeedsScheduler, [], (Go child k). by rewrite app_nil_r.
Qed.

Lemma Follows_prefix (v : Variant) (C : Prog unit → Prop) (ks : list Step) {A : Type}
    (q : Prog A) (evs : list Event) :
  Follows v C ks q evs →
  ∃ did, did `prefix_of` ks
    ∧ (stepsOf evs = did ∨ (v = Concurrent ∧ stepsOf evs = did ++ [cleanup])).
Proof.
  intros [(rest & -> & _ & _)|(did & rest & c & e & -> & _ & Hstate)].
  - exists (stepsOf evs). split; [by apply prefix_app_r|by left].
  - exists did. split; [by eexists|].
    destruct Hstate as [[-> _]|(-> & -> & _)]; auto.
Qed.

(** X13.  Against every collaborator the sequential [main] performs
    its calls and reads its input in the one order of its script: the
    resource group, the virtual network, the subnets, the first address,
    the interfaces, the storage account, the virtual machine, the second
    address, the update, the two listings with the deletions between
    them, and the deletion of the resource group.  A run that returns has
    done the whole script without a failed call; a run that panics has
    seen no failed call; a run that exits does so with status 1, after
    exactly one failed call, the one the script was waiting for. *)
Theorem sequential_run_follows_script (w : Oracle) :
  let out := (exec w [] (main Sequential)).1 in
  let events := trace (exec w [] (main Sequential)).2 in
  stepsOf events `prefix_of` script Sequential 0
  ∧ (out = Returned tt → stepsOf events = script Sequential 0 ∧ failures events = [])
  ∧ (out = Panicked → failures events = [])
  ∧ (∀ code, out = Exited code →
       code = 1%Z
       ∧ ∃ c e rest,
           failures events = [(c, e)]
           ∧ script Sequential 0 = stepsOf events ++ responseOf c :: rest).
Proof.
  destruct (exec_Follows Sequential (Child Sequential 0) (script Sequential 0) w
              (main Sequential) [] [])
    as (out & new & q & E & Hq & Hout).
  { left. exists (script Sequential 0). split; [done|]. split; [apply Script_main|done]. }
  rewrite app_nil_r in E. rewrite E. simpl. unfold trace. simpl in Hq.
  split; [|split; [|split]].
  - destruct (Follows_prefix _ _ _ _ _ Hq) as (did & Hpre & [->|[? _]]); done.
  - intros ->. simpl in Hout. subst q.
    destruct Hq as [(rest & Hks & Hrest & Hf)|(did & rest & c & e & _ & _ & Hstate)].
    + simpl in Hrest. subst rest. by rewrite app_nil_r in Hks.
    + by destruct Hstate as [[_ ?]|(? & _)].
  - intros ->. simpl in Hout. subst q.
    destruct Hq as [(rest & Hks & Hrest & Hf)|(did & rest & c & e & _ & _ & Hstate)];
      [done|].
    by destruct Hstate as [[_ ?]|(? & _)].
  - intros code ->. simpl in Hout. subst q.
    destruct Hq as [(rest & Hks & Hrest & Hf)|(did & rest & c & e & Hks & Hf & Hstate)];
      [done|].
    destruct Hstate as [[Hsteps Hcode]|(? & _)]; [|done].
    simpl in Hcode. split; [done|]. exists c, e, rest. by rewrite Hsteps.
Qed.

(** ** The scripts under a scheduler *)

Lemma waitGroupTable_holds (v : Variant) (tid n : nat) :
  (n ≤ length (script v tid))%nat → waitGroupTable v tid n.
Proof.
  intros Hn.
  assert (H : ∀ t, Forall (waitGroupTable v t) (seq 0 (S (length (script v t)))) →
              (n ≤ length (script v t))%nat → waitGroupTable v t n).
  { intros t Hall Hle. rewrite Forall_forall in Hall. apply Hall.
    apply elem_of_seq. lia. }
  destruct tid as [|tid].
  - apply H; [|done]. destruct v; by apply (bool_decide_unpack _); vm_compute.
  - change (script v (S tid)) with (storage ++ [Done]) in Hn. simpl in Hn.
    unfold waitGroupTable. change (script v (S tid)) with (storage ++ [Done]).
    destruct n as [|[|[|[|n]]]]; [..|lia]; cbn.
    all: repeat match goal with
           | |- _ ∧ _ => split
           | |- _ ↔ _ => split
           | |- _ → _ => intro
           | |- _ ∉ _ => intro
           end.
    all: repeat match goal with
           | H : _ ∈ [] |- _ => by apply elem_of_nil in H
           | H : _ ∈ _ :: _ |- _ => apply elem_of_cons in H as [H|H]; [try discriminate H|]
           end.
    all: try done; try lia; auto.
    all: try (by repeat constructor).
Qed.

Lemma weight_app (a b : list Step) : weight (a ++ b) = (weight a + weight b)%Z.
Proof. induction a as [|k a IH]; simpl; [done|]. rewrite IH. lia. Qed.

Lemma spawns_app (a b : list Step) : spawns (a ++ b) = (spawns a + spawns b)%nat.
Proof. unfold spawns. by rewrite filter_app, length_app. Qed.

(** Where a goroutine that follows its script is in it. *)
Lemma Follows_shape (v : Variant) (C : Prog unit → Prop) (ks : list Step) {A : Type}
    (q : Prog A) (evs : list Event) :
  Follows v C ks q evs →
  ∃ n, (n ≤ length ks)%nat
    ∧ weight (stepsOf evs) = weight (take n ks)
    ∧ spawns (stepsOf evs) = spawns (take n ks)
    ∧ (∀ k, k ≠ cleanup → (k ∈ stepsOf evs ↔ k ∈ take n ks))
    ∧ ((stepsOf evs = take n ks ∧ Script v C (drop n ks) q ∧ failures evs = [])
       ∨ ((Failing v q ∨ q = Exit 1) ∧ (n < length ks)%nat ∧ failures evs ≠ [])).
Proof.
  intros [(rest & -> & Hq & Hf)|(did & rest & c & e & -> & Hf & Hstate)].
  - exists (length (stepsOf evs)). rewrite take_app_length, drop_app_length, length_app.
    split; [lia|]. repeat split; auto.
  - exists (length did). rewrite take_app_length, length_app. simpl.
    split; [lia|].
    assert (Hsteps : stepsOf evs = did ∨ stepsOf evs = did ++ [cleanup]).
    { destruct Hstate as [[? _]|(_ & ? & _)]; auto. }
    assert (Hq : Failing v q ∨ q = Exit 1).
    { destruct Hstate as [[_ ?]|(_ & _ & ?)]; auto. }
    destruct Hsteps as [->| ->].
    + repeat split; auto. right. repeat split; auto; [lia|by rewrite Hf].
    + rewrite weight_app, spawns_app. simpl.
      split; [lia|]. split; [unfold spawns; simpl; lia|].
      split.
      * intros k Hk. rewrite elem_of_app, list_elem_of_singleton. split; [|auto].
        intros [?|?]; done.
      * right. repeat split; auto; [lia|by rewrite Hf].
Qed.

Lemma LocalStep_tid {A : Type} (tid : nat) (q k : Prog A) (ev : Event) :
  LocalStep tid q ev k → eventTid ev = tid.
Proof. by destruct 1. Qed.

Lemma byThread_own (tid : nat) (lg : list Event) (ev : Event) :
  eventTid ev = tid →
  byThread tid (trace (ev :: lg)) = byThread tid (trace lg) ++ [ev].
Proof.
  intros Htid. unfold trace. rewrite reverse_cons, byThread_snoc.
  by rewrite decide_True.
Qed.

Lemma byThread_other (tid t : nat) (lg : list Event) (ev : Event) :
  eventTid ev = tid → t ≠ tid →
  byThread t (trace (ev :: lg)) = byThread t (trace lg).
Proof.
  intros Htid Hne. unfold trace. rewrite reverse_cons, byThread_snoc.
  rewrite decide_False by congruence. by rewrite app_nil_r.
Qed.

Lemma byThread_none (t : nat) (lg : list Event) :
  Forall (λ ev, (eventTid ev < t)%nat) lg → byThread t (trace lg) = [].
Proof.
  intros Hlg. unfold trace. induction Hlg as [|ev lg Hev _ IH]; [done|].
  rewrite reverse_cons, byThread_snoc, IH.
  rewrite decide_False by lia. done.
Qed.

(** With two goroutines, the counter is what each of them has done to
    it. *)
Lemma stepsOf_cons (ev : Event) (evs : list Event) :
  stepsOf (ev :: evs) = option_list (stepOf ev) ++ stepsOf evs.
Proof. unfold stepsOf. simpl. by destruct (stepOf ev). Qed.

Lemma weight_threads (evs : list Event) :
  Forall (λ ev, (eventTid ev < 2)%nat) evs →
  weight (stepsOf evs)
  = (weight (stepsOf (byThread 0 evs)) + weight (stepsOf (byThread 1 evs)))%Z.
Proof.
  induction 1 as [|ev evs Hev _ IH]; [done|].
  unfold byThread in *. rewrite !filter_cons, stepsOf_cons, weight_app, IH.
  destruct (decide (eventTid ev = 0)) as [H0|H0].
  - rewrite decide_False by lia. rewrite stepsOf_cons, weight_app. lia.
  - rewrite decide_True by lia. rewrite stepsOf_cons, weight_app. lia.
Qed.

Lemma trace_bound (n : nat) (lg : list Event) :
  Forall (λ ev, (eventTid ev < n)%nat) lg → Forall (λ ev, (eventTid ev < n)%nat) (trace lg).
Proof. unfold trace. intros H. by apply Forall_reverse. Qed.

(** What holds when a goroutine is about to touch the wait group or to
    start a goroutine. *)
Lemma Orderly_counter (v : Variant) (m : Machine) (tid : nat) (q : Prog unit) :
  Orderly v m → threads m !! tid = Some q →
  (length (threads m) ≤ 2)%nat
  ∧ (∀ d k, q = WgAdd d k →
       tid = 0 ∧ d = 1%Z ∧ wg m = 0%Z ∧ Wait ∉ stepsOf (byThread 0 (trace (log m))))
  ∧ (∀ k, q = WgDone k → wg m = 1%Z)
  ∧ (∀ child k, q = Go child k →
       v = Concurrent ∧ tid = 0 ∧ child = createStorageAccount Concurrent
       ∧ length (threads m) = 1%nat).
Proof.
  intros (Hth & Hbound & _ & Hlen & Hwg & _) Hq.
  assert (H0 : ∃ q0, threads m !! 0 = Some q0).
  { destruct (threads m) as [|q0 ths] eqn:E; [done|]. eauto. }
  destruct H0 as [q0 Hq0].
  destruct (Follows_shape _ _ _ _ _ (Hth 0 q0 Hq0))
    as (n0 & Hn0 & Hw0 & Hs0 & Hwait0 & _).
  pose proof (waitGroupTable_holds v 0 n0 Hn0) as HT0.
  unfold waitGroupTable in HT0. cbv zeta in HT0. destruct HT0 as (T1 & T2 & T3 & _).
  assert (Hle : (length (threads m) ≤ 2)%nat) by lia.
  assert (Hsum : wg m = (weight (stepsOf (byThread 0 (trace (log m))))
                         + weight (stepsOf (byThread 1 (trace (log m)))))%Z).
  { rewrite Hwg. apply weight_threads, trace_bound.
    eapply Forall_impl; [exact Hbound|]. simpl. intros. lia. }
  assert (Hlt : (tid < length (threads m))%nat) by (eapply lookup_lt_Some; eauto).
  destruct (Follows_shape _ _ _ _ _ (Hth tid q Hq))
    as (n & Hn & Hw & Hs & Hwait & Hstate).
  pose proof (waitGroupTable_holds v tid n Hn) as HT.
  unfold waitGroupTable in HT. cbv zeta in HT. destruct HT as (_ & _ & _ & Thead & Taux & _).
  split; [done|]. split; [|split].
  - intros d k ->.
    destruct Hstate as [(Hsteps & Hscript & _)|([Hf|Hf] & _)]; [|done..].
    destruct Hscript as (ks' & Hdrop & _). rewrite Hdrop in Thead. cbn [head] in Thead.
    destruct Thead as (-> & -> & Hwpre & Hspre & Hnowait).
    rewrite Hs in Hlen. rewrite Hspre in Hlen.
    rewrite (byThread_none 1) in Hsum.
    2: { eapply Forall_impl; [exact Hbound|]. simpl. intros. lia. }
    simpl in Hsum. rewrite Hw, Hwpre in Hsum.
    split; [done|]. split; [done|]. split; [lia|]. by rewrite (Hwait Wait).
  - intros k ->.
    destruct Hstate as [(Hsteps & Hscript & _)|([Hf|Hf] & _)]; [|done..].
    destruct Hscript as (ks' & Hdrop & _). rewrite Hdrop in Thead. cbn [head] in Thead.
    destruct Thead as (Hne & Hwpre).
    assert (tid = 1) as -> by lia.
    assert (Hsp : spawns (take n0 (script v 0)) = 1%nat) by lia.
    destruct (T2 Hsp) as (_ & _ & Hw1).
    rewrite Hw, Hwpre, Hw0, Hw1 in Hsum. lia.
  - intros child k ->.
    destruct Hstate as [(Hsteps & Hscript & _)|([Hf|Hf] & _)]; [|done..].
    destruct Hscript as ((-> & -> & ->) & ks' & Hdrop & _).
    rewrite Hdrop in Thead. cbn [head] in Thead. destruct Thead as (_ & Hspre).
    split; [done|]. split; [done|]. split; [done|]. rewrite Hs in Hlen. lia.
Qed.

Lemma spawns_step (k : option Step) :
  k ≠ Some Spawn → spawns (option_list k) = 0%nat.
Proof.
  intros Hk. by destruct k as [[]|].
Qed.

(** An ordinary step of goroutine [tid] keeps the process orderly. *)
Lemma Orderly_advance (v : Variant) (m : Machine) (tid : nat) (q k : Prog unit)
    (ev : Event) (wg' : Z) :
  Orderly v m → threads m !! tid = Some q → LocalStep tid q ev k →
  stepOf ev ≠ Some Spawn →
  wg' = (wg m + weight (option_list (stepOf ev)))%Z →
  (stepOf ev = Some Wait → wg' = 0%Z) →
  (Wait ∈ stepsOf (byThread 0 (trace (log m))) → wg' = wg m) →
  Orderly v {| threads := <[tid := k]> (threads m); wg := wg';
               log := ev :: log m; halted := None |}.
Proof.
  intros (Hth & Hbound & _ & Hlen & Hwg & Hwait) Hq Hstep Hspawn Hwg' Hnow Hlater.
  assert (Hlt : (tid < length (threads m))%nat) by (eapply lookup_lt_Some; eauto).
  pose proof (LocalStep_tid _ _ _ _ Hstep) as Htid.
  split; [|split; [|split; [|split; [|split]]]]; simpl.
  - intros t q' Hq'. destruct (insert_cases _ _ _ _ _ Hq' Hlt) as [[-> ->]|[Hne Hold]].
    + rewrite byThread_own by done. eapply Follows_step; [by apply Hth|exact Hstep].
    + rewrite (byThread_other tid) by done. by apply Hth.
  - rewrite length_insert. constructor; [lia|done].
  - intros code Hcode. discriminate.
  - rewrite length_insert, Hlen. f_equal.
    destruct (decide (tid = 0)) as [->|Hne].
    + rewrite byThread_own by done.
      rewrite stepsOf_snoc, spawns_app, spawns_step by done. lia.
    + by rewrite (byThread_other tid) by done.
  - unfold trace. rewrite reverse_cons, stepsOf_snoc, weight_app. fold (trace (log m)).
    rewrite <- Hwg. exact Hwg'.
  - destruct (decide (tid = 0)) as [->|Hne].
    + rewrite byThread_own by done. rewrite stepsOf_snoc, elem_of_app.
      intros [Hold|Hnew].
      * rewrite Hlater by done. auto.
      * apply Hnow. destruct (stepOf ev); simpl in Hnew; [|by apply elem_of_nil in Hnew].
        apply list_elem_of_singleton in Hnew. by subst.
    + rewrite (byThread_other tid) by done. intros Hold.
      rewrite Hlater by done. auto.
Qed.

(** The end of the process keeps it orderly. *)
Lemma Orderly_halt (v : Variant) (m : Machine) (tid : nat) (q : Prog unit)
    (ev : Event) (code : Z) :
  Orderly v m → threads m !! tid = Some q → eventTid ev = tid →
  (∃ t c, ev = EvExit t c) ∨ (∃ t, ev = EvPanic t) →
  Ended (halt m code [ev]) code →
  Orderly v (halt m code [ev]).
Proof.
  intros (Hth & Hbound & _ & Hlen & Hwg & Hwait) Hq Htid Hev Hend.
  assert (Hlt : (tid < length (threads m))%nat) by (eapply lookup_lt_Some; eauto).
  assert (Hsteps : ∀ evs, stepsOf (evs ++ [ev]) = stepsOf evs).
  { intros evs. rewrite stepsOf_snoc.
    destruct Hev as [(t & c & ->)|(t & ->)]; simpl; by rewrite app_nil_r. }
  assert (Hby : ∀ t, stepsOf (byThread t (trace (ev :: log m)))
                   = stepsOf (byThread t (trace (log m)))).
  { intros t. destruct (decide (t = tid)) as [->|Hne].
    - rewrite byThread_own by done. apply Hsteps.
    - by rewrite (byThread_other tid) by done. }
  split; [|split; [|split; [|split; [|split]]]]; simpl.
  - intros t q' Hq'. destruct (decide (t = tid)) as [->|Hne].
    + rewrite byThread_own by done. apply Follows_end; [by apply Hth|done].
    + rewrite (byThread_other tid) by done. by apply Hth.
  - constructor; [lia|done].
  - intros code' [= <-]. exact Hend.
  - by rewrite Hby.
  - unfold trace. rewrite reverse_cons, Hsteps. exact Hwg.
  - by rewrite Hby.
Qed.

Lemma Orderly_step (v : Variant) (w : Oracle) (tid : nat) (m : Machine) :
  Orderly v m → Orderly v (step w tid m).
Proof.
  intros Hinv. unfold step.
  destruct (halted m) eqn:Hh; [done|].
  destruct (threads m !! tid) as [p|] eqn:Hp; [|done].
  assert (Hlt : (tid < length (threads m))%nat) by (eapply lookup_lt_Some; eauto).
  pose proof Hinv as (Hth & Hbound & Hend & Hlen & Hwg & Hwait).
  pose proof (Hth tid p Hp) as Hown.
  destruct (Orderly_counter v m tid p Hinv Hp) as (Hle & Hadd & Hdone & Hgo).
  destruct p as [[]|s k|k|c k|c k|code| |d k|k|k|child k].
  - destruct (decide (tid = 0)) as [->|_]; [|done].
    split; [|split; [|split; [|split; [|split]]]]; simpl; try done.
    intros code [= <-]. by left.
  - apply (Orderly_advance v m tid _ k (EvPrint tid s) (wg m) Hinv Hp);
      [constructor|done|simpl; lia|done|done].
  - apply (Orderly_advance v m tid _ k (EvScan tid) (wg m) Hinv Hp);
      [constructor|done|simpl; lia|done|done].
  - apply (Orderly_advance v m tid _ k (EvIssue tid c) (wg m) Hinv Hp);
      [constructor|done|simpl; lia|done|done].
  - apply (Orderly_advance v m tid _ (k (w (log m) c))
             (EvReturn tid c (w (log m) c).2) (wg m) Hinv Hp);
      [constructor| | | |done]; destruct (w (log m) c).2; simpl; try done; lia.
  - apply (Orderly_halt v m tid _ (EvExit tid code) code Hinv Hp); [done|eauto|].
    destruct Hown as [(rest & _ & Hq & _)|(did & rest & c & e & _ & _ & Hstate)];
      [done|].
    right. left.
    destruct Hstate as [[_ Hcode]|(_ & _ & [= ->])]; simpl in *; subst; eauto.
  - apply (Orderly_halt v m tid _ (EvPanic tid) 2 Hinv Hp); [done|eauto|].
    right. right. eauto.
  - destruct (Hadd d k eq_refl) as (-> & -> & Hzero & Hnowait).
    unfold wgAdd. rewrite Hzero. rewrite decide_False by lia.
    apply (Orderly_advance v m 0 _ k (EvWgAdd 0 1) (0 + 1)%Z Hinv Hp);
      [constructor|done|simpl; lia|done|done].
  - pose proof (Hdone k eq_refl) as Hone.
    unfold wgAdd. rewrite Hone. rewrite decide_False by lia.
    apply (Orderly_advance v m tid _ k (EvWgDone tid) (1 + -1)%Z Hinv Hp);
      [constructor|done|simpl; lia|done|].
    intros Hw. specialize (Hwait Hw). lia.
  - destruct (decide (wg m = 0%Z)) as [Hzero|]; [|done].
    apply (Orderly_advance v m tid _ k (EvWgWait tid) (wg m) Hinv Hp);
      [constructor|done|simpl; lia|done|done].
  - destruct (Hgo child k eq_refl) as (-> & -> & -> & Hone).
    split; [|split; [|split; [|split; [|split]]]]; simpl.
    + intros t q Hq.
      destruct (decide (t < length (threads m))%nat) as [Ht|Ht].
      * rewrite lookup_app_l in Hq by (by rewrite length_insert).
        destruct (insert_cases _ _ _ _ _ Hq Hlt) as [[-> ->]|[Hne Hold]].
        -- rewrite byThread_own by done.
           eapply Follows_step; [exact Hown|constructor].
        -- rewrite (byThread_other 0) by done. by apply Hth.
      * rewrite lookup_app_r in Hq by (rewrite length_insert; lia).
        rewrite length_insert in Hq.
        destruct (t - length (threads m))%nat as [|n] eqn:Hn; [|done].
        simpl in Hq. injection Hq as <-.
        assert (t = length (threads m)) as -> by lia.
        rewrite byThread_none.
        2: { constructor; [simpl; lia|done]. }
        left. exists (script Concurrent (length (threads m))).
        split; [done|]. split; [|done].
        rewrite Hone. apply (Script_createStorageAccount Concurrent).
    + rewrite length_app, length_insert. simpl. constructor; [simpl; lia|].
      eapply Forall_impl; [exact Hbound|]. simpl. intros. lia.
    + intros code Hcode. discriminate.
    + rewrite length_app, length_insert, Hlen. simpl.
      rewrite byThread_own by done. rewrite stepsOf_snoc, spawns_app. simpl.
      unfold spawns at 3. simpl. lia.
    + unfold trace. rewrite reverse_cons, stepsOf_snoc, weight_app. simpl.
      fold (trace (log m)). lia.
    + rewrite byThread_own by done. rewrite stepsOf_snoc, elem_of_app. simpl.
      intros [Hold|Hnew]; [auto|].
      apply list_elem_of_singleton in Hnew. discriminate.
Qed.

Lemma Orderly_run (v : Variant) (w : Oracle) (sched : list nat) :
  Orderly v (run w sched (initial v)).
Proof.
  apply run_invariant; [intros; by apply Orderly_step|].
  split; [|split; [|split; [|split; [|split]]]]; simpl.
  - intros [|tid] q Hq; [|done]. injection Hq as <-.
    left. exists (script v 0). split; [done|]. split; [apply Script_main|done].
  - constructor.
  - intros code Hcode. discriminate.
  - done.
  - done.
  - intros H. by apply elem_of_nil in H.
Qed.

(** X14.  Under every schedule and collaborator, each goroutine of
    either variant follows its own script: what it has done is the
    beginning of its script, and if a call of its own failed, that call
    is the only one, it is the one the script was waiting for, and the
    goroutine has done nothing since, but for the deletion of the
    resource group that the later revision sends before it exits. *)
Theorem goroutines_follow_scripts (v : Variant) (w : Oracle) (sched : list nat)
    (tid : nat) :
  let events := byThread tid (trace (log (run w sched (initial v)))) in
  (stepsOf events `prefix_of` script v tid ∧ failures events = [])
  ∨ (∃ c e before rest,
       failures events = [(c, e)]
       ∧ script v tid = before ++ responseOf c :: rest
       ∧ (stepsOf events = before
          ∨ (v = Concurrent ∧ stepsOf events = before ++ [cleanup]))).
Proof.
  simpl. destruct (Orderly_run v w sched) as (Hth & Hbound & _).
  destruct (threads (run w sched (initial v)) !! tid) as [q|] eqn:Hq.
  - destruct (Hth tid q Hq)
      as [(rest & Hks & _ & Hf)|(did & rest & c & e & Hks & Hf & Hstate)].
    + left. split; [|done]. rewrite Hks. by apply prefix_app_r.
    + right. exists c, e, did, rest. split; [done|]. split; [done|].
      destruct Hstate as [[? _]|(? & ? & _)]; auto.
  - left. apply lookup_ge_None in Hq. rewrite byThread_none.
    + split; [apply prefix_nil|done].
    + eapply Forall_impl; [exact Hbound|]. simpl. intros. lia.
Qed.

Lemma failures_cons (ev : Event) (evs : list Event) :
  failures (ev :: evs) = failures [ev] ++ failures evs.
Proof. unfold failures. simpl. by destruct ev as [| | |? ? [?|]| | | | | |]. Qed.

Lemma failures_threads (evs : list Event) :
  Forall (λ ev, (eventTid ev < 2)%nat) evs →
  failures (byThread 0 evs) = [] → failures (byThread 1 evs) = [] → failures evs = [].
Proof.
  induction 1 as [|ev evs Hev _ IH]; [done|].
  unfold byThread in *. rewrite !filter_cons.
  destruct (decide (eventTid ev = 0)) as [H0|H0].
  - rewrite decide_False by lia. rewrite (failures_cons ev), (failures_cons ev evs).
    intros [-> H1]%app_eq_nil H2. simpl. auto.
  - rewrite decide_True by lia. rewrite (failures_cons ev), (failures_cons ev evs).
    intros H1 [-> H2]%app_eq_nil. simpl. auto.
Qed.

(** X15.  A run ends in one of three ways.  Status 0: the main
    goroutine has done its whole script, no call has failed, and in the
    concurrent variant there are exactly two goroutines and the second
    has done its whole script too.  Status 1: the last event is the exit
    of a goroutine after the one failed call of its own.  Status 2: the
    last event is the panic of a goroutine. *)
Theorem process_ends_in_three_ways (v : Variant) (w : Oracle) (sched : list nat)
    (code : Z) :
  let m := run w sched (initial v) in
  let events := trace (log m) in
  halted m = Some code →
  (code = 0%Z
   ∧ failures events = []
   ∧ stepsOf (byThread 0 events) = script v 0
   ∧ match v with
     | Sequential => length (threads m) = 1%nat
     | Concurrent => length (threads m) = 2%nat
                     ∧ stepsOf (byThread 1 events) = script v 1
     end)
  ∨ (code = 1%Z
     ∧ ∃ tid c e, last events = Some (EvExit tid 1)
                  ∧ failures (byThread tid events) = [(c, e)])
  ∨ (code = 2%Z ∧ ∃ tid, last events = Some (EvPanic tid)).
Proof.
  simpl. set (m := run w sched (initial v)). intros Hcode.
  pose proof (Orderly_run v w sched) as Hinv. fold m in Hinv.
  destruct Hinv as (Hth & Hbound & Hend & Hlen & Hwg & Hwait).
  destruct (Hend code Hcode) as [[-> H0]|[[-> (tid & Hq & Hlast)]|[-> (tid & Hq & Hlast)]]].
  - left. split; [done|].
    destruct (Follows_shape _ _ _ _ _ (Hth 0 _ H0))
      as (n & Hn & Hw & Hs & Hmem & [(Hsteps & Hscript & Hf)|([Hq|Hq] & _)]); [|done..].
    change (drop n (script v 0) = []) in Hscript.
    assert (Hfull : take n (script v 0) = script v 0).
    { rewrite <- (take_drop n (script v 0)) at 2. by rewrite Hscript, app_nil_r. }
    pose proof (waitGroupTable_holds v 0 n Hn) as HT.
    unfold waitGroupTable in HT. cbv zeta in HT.
    destruct HT as (_ & _ & _ & _ & _ & _ & _ & _ & _ & Tend).
    specialize (Tend eq_refl Hscript).
    rewrite Hsteps, Hfull.
    assert (Hb2 : Forall (λ ev, (eventTid ev < 2)%nat) (trace (log m))).
    { apply trace_bound. eapply Forall_impl; [exact Hbound|]. simpl. intros.
      rewrite Hs in Hlen. destruct v; [|destruct Tend as [Tend _]]; lia. }
    destruct v.
    + assert (Hone : length (threads m) = 1%nat) by (rewrite Hs in Hlen; lia).
      split; [|done]. apply failures_threads; [done|done|].
      rewrite byThread_none; [done|].
      eapply Forall_impl; [exact Hbound|]. simpl. intros. lia.
    + destruct Tend as (Tsp & Twait & Tw).
      assert (Htwo : length (threads m) = 2%nat) by (rewrite Hs in Hlen; lia).
      assert (Hzero : wg m = 0%Z).
      { apply Hwait. by rewrite (Hmem Wait). }
      destruct (threads m !! 1) as [q1|] eqn:Hq1.
      2: { apply lookup_ge_None in Hq1. lia. }
      destruct (Follows_shape _ _ _ _ _ (Hth 1 _ Hq1))
        as (n1 & Hn1 & Hw1 & Hs1 & Hmem1 & Hstate1).
      pose proof (waitGroupTable_holds Concurrent 1 n1 Hn1) as HT.
      unfold waitGroupTable in HT. cbv zeta in HT.
      destruct HT as (_ & _ & _ & _ & Taux & _).
      rewrite Hwg, (weight_threads _ Hb2), Hw, Hw1, Tw in Hzero.
      destruct (Taux ltac:(done)) as [Hw0|[_ Hpost]]; [lia|].
      assert (Hn3 : n1 = length (script Concurrent 1)).
      { apply (f_equal length) in Hpost. rewrite length_drop in Hpost.
        change (length []) with 0%nat in Hpost. lia. }
      destruct Hstate1 as [(Hsteps1 & _ & Hf1)|(_ & Hlt & _)]; [|lia].
      assert (Hfull1 : stepsOf (byThread 1 (trace (log m))) = script Concurrent 1).
      { rewrite Hsteps1, Hn3. apply firstn_all. }
      split; [|done]. by apply failures_threads.
  - right. left. split; [done|]. exists tid.
    destruct (Hth tid _ Hq)
      as [(rest & _ & Hscript & _)|(did & rest & c & e & _ & Hf & _)]; [done|].
    exists c, e. split; [|done].
    unfold trace. rewrite last_reverse. exact Hlast.
  - right. right. split; [done|]. exists tid.
    unfold trace. rewrite last_reverse. exact Hlast.
Qed.

Lemma process_ends_in_three_ways_witness :
  let m := run faithful storage_at_the_wait (initial Concurrent) in
  halted m = Some 0%Z
  ∧ stepsOf (byThread 0 (trace (log m))) = script Concurrent 0
  ∧ stepsOf (byThread 1 (trace (log m))) = script Concurrent 1.
Proof.
  assert (Hcode : halted (run faithful storage_at_the_wait (initial Concurrent))
                  = Some 0%Z) by (vm_compute; reflexivity).
  split; [exact Hcode|].
  destruct (process_ends_in_three_ways Concurrent faithful storage_at_the_wait 0 Hcode)
    as [(_ & _ & H0 & _ & H1)|[(Hone & _)|(Htwo & _)]].
  - split; [exact H0|exact H1].
  - discriminate Hone.
  - discriminate Htwo.
Defined.

(** X16.  The counter of the wait group is 0 or 1 at every moment of
    every run; it is 1 exactly from the [Add] of the main goroutine to the
    [Done] of the second one.  So the counter never goes below zero, and
    a run that stops on a panic stops on the panic of a goroutine. *)
Theorem wait_group_counter (v : Variant) (w : Oracle) (sched : list nat) :
  let m := run w sched (initial v) in
  let events := trace (log m) in
  (wg m = 0%Z ∨ wg m = 1%Z)
  ∧ (wg m = 1%Z ↔
     Add 1 ∈ stepsOf (byThread 0 events) ∧ Done ∉ stepsOf (byThread 1 events))
  ∧ (halted m = Some 2%Z → ∃ tid, threads m !! tid = Some Panic).
Proof.
  simpl. set (m := run w sched (initial v)).
  pose proof (Orderly_run v w sched) as Hinv. fold m in Hinv.
  pose proof Hinv as (Hth & Hbound & Hend & Hlen & Hwg & Hwait).
  assert (H0 : ∃ q0, threads m !! 0 = Some q0).
  { destruct (threads m) as [|q0 ths] eqn:E; [done|]. eauto. }
  destruct H0 as [q0 Hq0].
  destruct (Orderly_counter v m 0 q0 Hinv Hq0) as (Hle & _).
  assert (Hsum : wg m = (weight (stepsOf (byThread 0 (trace (log m))))
                         + weight (stepsOf (byThread 1 (trace (log m)))))%Z).
  { rewrite Hwg. apply weight_threads, trace_bound.
    eapply Forall_impl; [exact Hbound|]. simpl. intros. lia. }
  destruct (Follows_shape _ _ _ _ _ (Hth 0 q0 Hq0)) as (n0 & Hn0 & Hw0 & Hs0 & Hmem0 & _).
  pose proof (waitGroupTable_holds v 0 n0 Hn0) as HT.
  unfold waitGroupTable in HT. cbv zeta in HT.
  destruct HT as (_ & T2 & _ & _ & _ & _ & T7 & _).
  specialize (T7 eq_refl).
  rewrite <- (Hmem0 (Add 1)) in T7 by done. rewrite <- Hw0 in T7.
  assert (Hthird : halted m = Some 2%Z → ∃ tid, threads m !! tid = Some Panic).
  { intros Hh. destruct (Hend _ Hh) as [[? _]|[[? _]|[_ (tid & ? & _)]]]; [done..|eauto]. }
  destruct (threads m !! 1) as [q1|] eqn:Hq1.
  - assert (Htwo : length (threads m) = 2%nat).
    { apply lookup_lt_Some in Hq1. lia. }
    assert (Hsp : spawns (take n0 (script v 0)) = 1%nat) by lia.
    destruct (T2 Hsp) as (_ & _ & Hone). rewrite <- Hw0 in Hone.
    destruct (Follows_shape _ _ _ _ _ (Hth 1 q1 Hq1))
      as (n1 & Hn1 & Hw1 & Hs1 & Hmem1 & _).
    pose proof (waitGroupTable_holds v 1 n1 Hn1) as HT.
    unfold waitGroupTable in HT. cbv zeta in HT.
    destruct HT as (_ & _ & _ & _ & Taux & _ & _ & T8 & _).
    specialize (Taux ltac:(done)). specialize (T8 ltac:(done)).
    rewrite <- (Hmem1 Done) in T8 by done. rewrite <- Hw1 in T8, Taux.
    split; [|split; [|done]].
    + destruct Taux as [?|[? _]]; lia.
    + split.
      * intros Hwg1. split; [destruct T7 as [[? _]|[_ ?]]; [lia|done]|].
        rewrite T8. lia.
      * intros [_ Hnd]. rewrite T8 in Hnd. destruct Taux as [?|[? _]]; lia.
  - apply lookup_ge_None in Hq1.
    assert (Hnone : byThread 1 (trace (log m)) = []).
    { apply byThread_none. eapply Forall_impl; [exact Hbound|]. simpl. intros. lia. }
    rewrite Hnone in *. simpl in Hsum. split; [|split; [|done]].
    + destruct T7 as [[? _]|[? _]]; lia.
    + split.
      * intros Hwg1. split; [destruct T7 as [[? _]|[_ ?]]; [lia|done]|].
        apply not_elem_of_nil.
      * intros [Hadd _]. destruct T7 as [[_ ?]|[? _]]; [done|lia].
Qed.




Lemma groupTable_holds (v : Variant) (n : nat) :
  (n ≤ length (script v 0))%nat → groupTable v n.
Proof.
  intros Hn.
  assert (H : Forall (groupTable v) (seq 0 (S (length (script v 0))))).
  { destruct v; by apply (bool_decide_unpack _); vm_compute. }
  rewrite Forall_forall in H. apply H, elem_of_seq. lia.
Qed.

(** A request that is about to be sent is the creation of the resource
    group, or the clean-up of a goroutine that has been told of an error,
    or comes after the creation of the resource group. *)
Lemma Orderly_request (v : Variant) (m : Machine) (tid : nat) (c : Call)
    (k : Prog unit) :
  Orderly v m → threads m !! tid = Some (Issue c k) →
  requestOf c = Request groupClient "CreateOrUpdate" groupName
  ∨ (v = Concurrent ∧ c = GroupsDelete groupName
     ∧ failures (byThread tid (trace (log m))) ≠ [])
  ∨ groupCreated ∈ stepsOf (byThread 0 (trace (log m))).
Proof.
  intros Hinv Hq. pose proof Hinv as (Hth & Hbound & Hend & Hlen & Hwg & Hwait).
  assert (H0 : ∃ q0, threads m !! 0 = Some q0).
  { destruct (threads m) as [|q0 ths] eqn:E; [done|]. eauto. }
  destruct H0 as [q0 Hq0].
  destruct (Follows_shape _ _ _ _ _ (Hth 0 q0 Hq0)) as (n0 & Hn0 & _ & Hs0 & Hmem0 & Hst0).
  pose proof (groupTable_holds v n0 Hn0) as HT.
  unfold groupTable in HT. cbv zeta in HT. destruct HT as (Thead & Tsp).
  destruct (Follows_shape _ _ _ _ _ (Hth tid _ Hq))
    as (n & Hn & _ & _ & _ & [(Hsteps & Hscript & _)|([Hf|Hf] & _ & Hfail)]).
  - destruct Hscript as (ks' & Hdrop & _).
    destruct tid as [|tid].
    + destruct (Follows_shape _ _ _ _ _ (Hth 0 _ Hq)) as (n' & Hn' & _ & _ & Hmem' & Hst').
      destruct Hst' as [(Hsteps' & Hscript' & _)|(_ & _ & Hfail')].
      2: { destruct (Hth 0 _ Hq) as [(? & _ & _ & Hnf)|(? & ? & ? & ? & _ & Hff & Hstate)].
           - done.
           - destruct Hstate as [[_ (-> & -> & _)]|(_ & _ & ?)]; [|done].
             right. left. by rewrite Hff. }
      destruct Hscript' as (ks0 & Hdrop0 & _).
      pose proof (groupTable_holds v n' Hn') as HT'.
      unfold groupTable in HT'. cbv zeta in HT'. destruct HT' as (Thead' & _).
      rewrite Hdrop0 in Thead'. cbn [head] in Thead'. unfold requestOf in Thead' at 1.
      destruct Thead' as [Hfirst|Hcreated]; [by left|].
      right. right. by rewrite (Hmem' groupCreated).
    + assert (Hlt : (S tid < length (threads m))%nat) by (eapply lookup_lt_Some; eauto).
      destruct (Orderly_counter v m 0 q0 Hinv Hq0) as (Hle & _).
      right. right. rewrite (Hmem0 groupCreated) by done.
      apply Tsp. lia.
  - simpl in Hf. destruct Hf as (-> & -> & _). right. left. done.
  - done.
Qed.

Lemma step_log (w : Oracle) (tid : nat) (m : Machine) :
  log (step w tid m) = log m
  ∨ ∃ ev, log (step w tid m) = ev :: log m
          ∧ ∀ t c, ev = EvIssue t c → ∃ k, threads m !! t = Some (Issue c k).
Proof.
  unfold step. destruct (halted m); [by left|].
  destruct (threads m !! tid) as [p|] eqn:Hp; [|by left].
  destruct p as [[]|s k|k|c k|c k|code| |d k|k|k|child k]; simpl.
  - destruct (decide (tid = 0)); by left.
  - right. eexists. split; [done|]. intros ? ? [=].
  - right. eexists. split; [done|]. intros ? ? [=].
  - right. eexists. split; [done|]. intros ? ? [= <- <-]. eauto.
  - right. eexists. split; [done|]. intros ? ? [=].
  - right. eexists. split; [done|]. intros ? ? [=].
  - right. eexists. split; [done|]. intros ? ? [=].
  - unfold wgAdd. destruct (decide _); right; eexists; (split; [done|]); intros ? ? [=].
  - unfold wgAdd. destruct (decide _); right; eexists; (split; [done|]); intros ? ? [=].
  - destruct (decide _); [|by left].
    right. eexists. split; [done|]. intros ? ? [=].
  - right. eexists. split; [done|]. intros ? ? [=].
Qed.

Lemma snoc_split {X} (l b a : list X) (x y : X) :
  l ++ [x] = b ++ y :: a →
  (a = [] ∧ x = y ∧ b = l) ∨ (∃ a', a = a' ++ [x] ∧ l = b ++ y :: a').
Proof.
  destruct a as [|z a _] using rev_ind.
  - intros H. apply app_inj_tail in H as [-> ->]. by left.
  - intros H. right. exists a.
    rewrite app_comm_cons, app_assoc in H. apply app_inj_tail in H as [-> ->]. done.
Qed.

Lemma GroupFirst_run (v : Variant) (w : Oracle) (sched : list nat) :
  GroupFirst v (log (run w sched (initial v))).
Proof.
  enough (H : Orderly v (run w sched (initial v))
              ∧ GroupFirst v (log (run w sched (initial v)))) by apply H.
  apply (run_invariant w (λ m, Orderly v m ∧ GroupFirst v (log m))).
  - intros tid m [Hinv Hfirst]. split; [by apply Orderly_step|].
    destruct (step_log w tid m) as [->|(ev & -> & Hev)]; [done|].
    intros before t c after Hsplit. unfold trace in Hsplit.
    rewrite reverse_cons in Hsplit.
    apply snoc_split in Hsplit as [(-> & -> & ->)|(after' & -> & Hold)].
    + destruct (Hev t c eq_refl) as [k Hk].
      apply (Orderly_request v m t c k Hinv Hk).
    + by apply (Hfirst before t c after').
  - split.
    + apply (Orderly_run v w []).
    + intros before t c after Hsplit. by destruct before.
Qed.

(** X18.  Under every schedule and collaborator, every request of a run
    is the creation of the resource group, or the deletion of the
    resource group sent by a goroutine of the later revision after a call
    of its own has failed, or comes after the creation of the resource
    group has returned without error.  In particular the goroutine of the
    storage account never sends its request to a group that has not been
    created. *)
Theorem resource_group_first (v : Variant) (w : Oracle) (sched : list nat)
    (before after : list Event) (tid : nat) (c : Call) :
  trace (log (run w sched (initial v))) = before ++ EvIssue tid c :: after →
  (∃ location, c = GroupsCreateOrUpdate groupName location)
  ∨ (v = Concurrent ∧ c = GroupsDelete groupName
     ∧ failures (byThread tid before) ≠ [])
  ∨ (∃ location,
       EvReturn 0 (GroupsCreateOrUpdate groupName location) None ∈ before).
Proof.
  intros Hsplit.
  destruct (GroupFirst_run v w sched before tid c after Hsplit) as [Hc|[Hc|Hc]].
  - left. destruct c; try discriminate Hc. injection Hc as ->. eauto.
  - right. left. done.
  - right. right. unfold stepsOf in Hc. apply list_elem_of_omap in Hc as (ev & Hev & Hstep).
    apply list_elem_of_filter in Hev as [Htid Hev].
    destruct ev as [| | |t c' [e|]| | | | | |]; try discriminate Hstep.
    destruct c'; try discriminate Hstep. injection Hstep as ->.
    simpl in Htid. subst t. eauto.
Qed.

Lemma resource_group_first_witness :
  ∃ before after,
    trace (log (run accepting late_goroutine (initial Concurrent)))
    = before ++ EvIssue 1 theStorageAccount :: after
    ∧ ∃ location,
        EvReturn 0 (GroupsCreateOrUpdate groupName location) None ∈ before.
Proof.
  assert (Hsplit : ∃ before after,
    trace (log (run accepting late_goroutine (initial Concurrent)))
    = before ++ EvIssue 1 theStorageAccount :: after).
  { exists (take 9 (trace (log (run accepting late_goroutine (initial Concurrent))))),
      (drop 10 (trace (log (run accepting late_goroutine (initial Concurrent))))).
    vm_compute. reflexivity. }
  destruct Hsplit as (before & after & Hsplit).
  exists before, after. split; [exact Hsplit|].
  destruct (resource_group_first Concurrent accepting late_goroutine before after 1 _ Hsplit)
    as [[location Hc]|[(_ & Hc & _)|Hgroup]].
  - discriminate Hc.
  - discriminate Hc.
  - exact Hgroup.
Defined.

(** ** How the process ends after a failed call *)

Lemma failures_middle (before after : list Event) (tid : nat) (c : Call) (e : Error) :
  failures (before ++ EvReturn tid c (Some e) :: after) ≠ [].
Proof.
  unfold failures. rewrite omap_app. simpl.
  intros H. apply app_eq_nil in H as [_ H]. discriminate H.
Qed.

Lemma last_middle {X : Type} (before after : list X) (x y : X) :
  last (before ++ x :: after) = Some y → x = y ∨ y ∈ after.
Proof.
  rewrite last_app, last_cons.
  destruct (last after) as [z|] eqn:Hz; simpl.
  - intros [= ->]. right. by apply last_Some_elem_of.
  - intros [= ->]. by left.
Qed.

Lemma Orderly_bound (v : Variant) (m : Machine) :
  Orderly v m →
  (v = Sequential → length (threads m) = 1%nat) ∧ (length (threads m) ≤ 2)%nat.
Proof.
  intros (Hth & Hbound & Hend & Hlen & Hwg & Hwait).
  assert (H0 : ∃ q0, threads m !! 0 = Some q0).
  { destruct (threads m) as [|q0 ths] eqn:E; [done|]. eauto. }
  destruct H0 as [q0 Hq0].
  destruct (Follows_shape _ _ _ _ _ (Hth 0 q0 Hq0)) as (n & Hn & _ & Hs & _).
  pose proof (waitGroupTable_holds v 0 n Hn) as HT.
  unfold waitGroupTable in HT. cbv zeta in HT.
  destruct HT as (T1 & T2 & _).
  rewrite Hs in Hlen. split; [|lia].
  intros ->.
  destruct (decide (spawns (take n (script Sequential 0)) = 1%nat)) as [H1|H1].
  - by destruct (T2 H1) as (_ & ? & _).
  - lia.
Qed.

Lemma Orderly_returned (v : Variant) (m : Machine) :
  Orderly v m → threads m !! 0 = Some (Ret tt) → failures (trace (log m)) = [].
Proof.
  intros (Hth & Hbound & Hend & Hlen & Hwg & Hwait) H0.
  destruct (Follows_shape _ _ _ _ _ (Hth 0 _ H0))
    as (n & Hn & Hw & Hs & Hmem & [(Hsteps & Hscript & Hf)|([Hq|Hq] & _)]); [|done..].
  change (drop n (script v 0) = []) in Hscript.
  pose proof (waitGroupTable_holds v 0 n Hn) as HT.
  unfold waitGroupTable in HT. cbv zeta in HT.
  destruct HT as (_ & _ & _ & _ & _ & _ & _ & _ & _ & Tend).
  specialize (Tend eq_refl Hscript).
  assert (Hb2 : Forall (λ ev, (eventTid ev < 2)%nat) (trace (log m))).
  { apply trace_bound. eapply Forall_impl; [exact Hbound|]. simpl. intros.
    rewrite Hs in Hlen. destruct v; [|destruct Tend as [Tend _]]; lia. }
  destruct v.
  - assert (Hone : length (threads m) = 1%nat) by (rewrite Hs in Hlen; lia).
    apply failures_threads; [done|done|].
    rewrite byThread_none; [done|].
    eapply Forall_impl; [exact Hbound|]. simpl. intros. lia.
  - destruct Tend as (Tsp & Twait & Tw).
    assert (Htwo : length (threads m) = 2%nat) by (rewrite Hs in Hlen; lia).
    assert (Hzero : wg m = 0%Z).
    { apply Hwait. by rewrite (Hmem Wait). }
    destruct (threads m !! 1) as [q1|] eqn:Hq1.
    2: { apply lookup_ge_None in Hq1. lia. }
    destruct (Follows_shape _ _ _ _ _ (Hth 1 _ Hq1))
      as (n1 & Hn1 & Hw1 & Hs1 & Hmem1 & Hstate1).
    pose proof (waitGroupTable_holds Concurrent 1 n1 Hn1) as HT.
    unfold waitGroupTable in HT. cbv zeta in HT.
    destruct HT as (_ & _ & _ & _ & Taux & _).
    rewrite Hwg, (weight_threads _ Hb2), Hw, Hw1, Tw in Hzero.
    destruct (Taux ltac:(done)) as [Hw0|[_ Hpost]]; [lia|].
    destruct Hstate1 as [(_ & _ & Hf1)|(_ & Hlt & _)].
    + by apply failures_threads.
    + apply (f_equal length) in Hpost. rewrite length_drop in Hpost.
      change (length []) with 0%nat in Hpost. lia.
Qed.

Lemma handler_no_panic (v : Variant) (msg : string) (k : nat) :
  handlerFrom v msg k ≠ Panic.
Proof. destruct v, k as [|[|k]]; unfold handlerFrom, handler; discriminate. Qed.

Lemma handler_exit_last (v : Variant) (tid : nat) (msg : string) (k : nat) :
  EvExit tid 1 ∈ take k (handlerSteps v tid msg) →
  take k (handlerSteps v tid msg) = handlerSteps v tid msg.
Proof.
  destruct v, k as [|[|[|k]]]; simpl; rewrite ?take_nil; try done.
  all: rewrite ?elem_of_cons, ?elem_of_nil; intros H;
    repeat (destruct H as [H|H]; try discriminate H); try done.
Qed.

(** C6, amended.  When a remote call returns an error to the sequential
    program, the program prints the label of that call with the error and
    exits with status 1, and nothing else happens: no further remote call
    is issued (first part, for a whole run; second part, under the
    scheduler).  In either variant, under every schedule, the goroutine
    that is returned the error does nothing from then on but the steps of
    the handler (the message, in the concurrent variant one attempt to
    delete the resource group, the exit with status 1); once it has done
    them the process has ended with status 1, the exit being its last
    event; as long as the process has not ended, letting that goroutine
    run ends it with status 1; and when the process has ended, it has
    ended in one of two ways, never with status 0: on the exit of that
    goroutine at the end of its handler, or, in the concurrent variant
    only, on the other goroutine, which has exited with status 1 after a
    failed call of its own or has panicked (status 2), the handler of the
    first being cut short.  What the other goroutine does in the meantime
    is not restricted. *)
Theorem remote_error_fails_fast :
  (∀ w before tid c e after,
     trace (exec w [] (main Sequential)).2
     = before ++ EvReturn tid c (Some e) :: after →
     (exec w [] (main Sequential)).1 = Exited 1
     ∧ tid = 0
     ∧ after = [EvPrint 0 (failureMessage c e); EvExit 0 1])
  ∧ (∀ w sched before tid c e after,
       trace (log (run w sched (initial Sequential)))
       = before ++ EvReturn tid c (Some e) :: after →
       tid = 0 ∧ after `prefix_of` [EvPrint 0 (failureMessage c e); EvExit 0 1])
  ∧ (∀ v w sched before tid c e after,
       let m := run w sched (initial v) in
       let steps := handlerSteps v tid (failureMessage c e) in
       trace (log m) = before ++ EvReturn tid c (Some e) :: after →
       byThread tid after `prefix_of` steps
       ∧ (byThread tid after = steps →
            halted m = Some 1%Z ∧ last (trace (log m)) = Some (EvExit tid 1))
       ∧ (halted m = None →
            halted (run w (replicate (length steps - length (byThread tid after)) tid) m)
            = Some 1%Z)
       ∧ (∀ code, halted m = Some code →
            (code = 1%Z ∧ byThread tid after = steps
             ∧ last (trace (log m)) = Some (EvExit tid 1))
            ∨ (v = Concurrent
               ∧ ∃ other, other ≠ tid
                   ∧ ((code = 1%Z ∧ last (trace (log m)) = Some (EvExit other 1)
                       ∧ failures (byThread other (trace (log m))) ≠ [])
                      ∨ (code = 2%Z ∧ last (trace (log m)) = Some (EvPanic other)))))).
Proof.
  assert (Hseq : ∀ w before tid c e after,
            trace (exec w [] (main Sequential)).2
            = before ++ EvReturn tid c (Some e) :: after →
            (exec w [] (main Sequential)).1 = Exited 1
            ∧ tid = 0
            ∧ after = [EvPrint 0 (failureMessage c e); EvExit 0 1]).
  { intros w before tid c e after Htrace.
    destruct (exec_FailFast w (main Sequential) [] (FailFast_main Sequential))
      as (out & new & E & Hnew).
    rewrite app_nil_r in E. rewrite E in Htrace |- *. simpl in *.
    destruct Hnew as [Hnew|(c' & e' & older & -> & Hold & ->)].
    - exfalso. rewrite Forall_forall in Hnew.
      apply (Hnew (EvReturn tid c (Some e))); [|done].
      apply elem_of_reverse. unfold trace in Htrace. rewrite Htrace.
      apply elem_of_app. right. apply list_elem_of_here.
    - unfold trace in Htrace. rewrite !reverse_cons, <- !app_assoc in Htrace.
      simpl in Htrace.
      assert (H1 : Forall (λ ev, ¬ isFailure ev) (reverse older))
        by (by apply Forall_reverse).
      assert (H2 : Forall (λ ev, ¬ isFailure ev)
                     [EvPrint 0 (failureMessage c' e'); EvExit 0 1])
        by (repeat constructor; simpl; tauto).
      destruct (split_unique isFailure (reverse older) _ before after
                  (EvReturn 0 c' (Some e')) (EvReturn tid c (Some e)) H1 H2 I Htrace)
        as (_ & Hx & Ha).
      by simplify_eq. }
  split; [exact Hseq|]. split.
  - intros w sched before tid c e after Htrace.
    destruct (sequential_trace w sched) as [later Hlater].
    rewrite Htrace, <- app_assoc in Hlater. simpl in Hlater.
    apply Hseq in Hlater as (_ & Htid & Hafter).
    split; [done|]. rewrite <- Hafter. by apply prefix_app_r.
  - intros v w sched before tid c e after m steps Htrace.
    destruct (failsFast_after v m before after tid c e
                (FailFastMachine_run v w sched) Htrace)
      as (p & k & Hp & Hby & Hst).
    fold steps in Hby, Hst. rewrite Hby. split; [apply prefix_take|]. split; [|split].
    + intros Hall.
      destruct Hst as [[Hk _]|(_ & Hhl & Hhead)].
      * exfalso. apply (f_equal length) in Hall. rewrite length_take in Hall. lia.
      * split; [done|]. unfold trace. by rewrite last_reverse.
    + intros Hh. destruct Hst as [[Hk ->]|(_ & Hhl & _)]; [|congruence].
      rewrite length_take, Nat.min_l by lia.
      by apply handler_runs.
    + intros code Hcode.
      pose proof (Orderly_run v w sched) as Hinv. fold m in Hinv.
      pose proof (Orderly_bound v m Hinv) as [Hone Htwo].
      pose proof Hinv as (Hth & Hbound & Hend & _).
      assert (Hlast : ∀ ev, head (log m) = Some ev → last (trace (log m)) = Some ev).
      { intros ev Hev. unfold trace. by rewrite last_reverse. }
      assert (Hown : ∀ ev, eventTid ev = tid → head (log m) = Some ev →
                ev ≠ EvReturn tid c (Some e) → ev ∈ take k steps).
      { intros ev Htid Hev Hne. apply Hlast in Hev. rewrite Htrace in Hev.
        apply last_middle in Hev as [Heq|Hin]; [by subst ev|].
        rewrite <- Hby. by apply list_elem_of_filter. }
      assert (Hother : ∀ other, other ≠ tid → (other < length (threads m))%nat →
                v = Concurrent).
      { intros other Hne Hlt.
        assert (Htid : (tid < length (threads m))%nat) by (eapply lookup_lt_Some; eauto).
        destruct v; [specialize (Hone eq_refl); lia|done]. }
      destruct (Hend code Hcode)
        as [[-> H0]|[[-> (other & Hq & Hhead)]|[-> (other & Hq & Hhead)]]].
      * exfalso. apply (Orderly_returned v m Hinv) in H0.
        rewrite Htrace in H0. by apply failures_middle in H0.
      * destruct (decide (other = tid)) as [->|Hne].
        -- left. split; [done|].
           assert (Hin : EvExit tid 1 ∈ take k steps) by (by apply Hown).
           split; [by apply handler_exit_last|by apply Hlast].
        -- right. split; [apply (Hother other Hne); by eapply lookup_lt_Some|].
           exists other. split; [done|]. left. split; [done|].
           split; [by apply Hlast|].
           destruct (Hth other _ Hq)
             as [(rest & _ & Hscript & _)|(did & rest & c' & e' & _ & Hf & _)]; [done|].
           by rewrite Hf.
      * destruct (decide (other = tid)) as [->|Hne].
        -- exfalso. rewrite Hp in Hq. injection Hq as Hq.
           destruct Hst as [[_ ->]|(_ & Hhl & _)]; [|congruence].
           by apply handler_no_panic in Hq.
        -- right. split; [apply (Hother other Hne); by eapply lookup_lt_Some|].
           exists other. split; [done|]. right. split; [done|]. by apply Hlast.
Qed.

Lemma remote_error_fails_fast_witness :
  ((exec rejecting_network [] (main Sequential)).1 = Exited 1
   ∧ drop 6 (trace (exec rejecting_network [] (main Sequential)).2)
     = [EvPrint 0 (failureMessage theVirtualNetwork "quota exceeded"); EvExit 0 1])
  ∧ byThread 0 (drop 8 (trace (log (run rejecting_network late_goroutine
                                      (initial Concurrent)))))
    `prefix_of` handlerSteps Concurrent 0 (failureMessage theVirtualNetwork "quota exceeded")
  ∧ (halted (run rejecting_storage main_runs_on (initial Concurrent)) = Some 2%Z
     ∧ byThread 1 (drop 8 (trace (log (run rejecting_storage main_runs_on
                                         (initial Concurrent))))) = []
     ∧ ∃ other, other ≠ 1
         ∧ last (trace (log (run rejecting_storage main_runs_on (initial Concurrent))))
           = Some (EvPanic other)).
Proof.
  split; [|split].
  - assert (Hlg : trace (exec rejecting_network [] (main Sequential)).2
              = take 5 (trace (exec rejecting_network [] (main Sequential)).2)
                ++ EvReturn 0 theVirtualNetwork (Some "quota exceeded")
                   :: drop 6 (trace (exec rejecting_network [] (main Sequential)).2)).
    { vm_compute. reflexivity. }
    destruct (proj1 remote_error_fails_fast rejecting_network _ _ _ _ _ Hlg)
      as (Hout & _ & Hafter).
    split; [exact Hout | exact Hafter].
  - refine (proj1 (proj2 (proj2 remote_error_fails_fast) Concurrent rejecting_network
                     late_goroutine
                     (take 7 (trace (log (run rejecting_network late_goroutine
                                            (initial Concurrent)))))
                     0 theVirtualNetwork "quota exceeded" _ _)).
    vm_compute. reflexivity.
  - assert (Hcode : halted (run rejecting_storage main_runs_on (initial Concurrent))
                    = Some 2%Z) by (vm_compute; reflexivity).
    split; [exact Hcode|]. split; [vm_compute; reflexivity|].
    assert (Hlg : trace (log (run rejecting_storage main_runs_on (initial Concurrent)))
              = take 7 (trace (log (run rejecting_storage main_runs_on
                                      (initial Concurrent))))
                ++ EvReturn 1 theStorageAccount (Some "name taken")
                   :: drop 8 (trace (log (run rejecting_storage main_runs_on
                                            (initial Concurrent))))).
    { vm_compute. reflexivity. }
    destruct (proj2 (proj2 (proj2 (proj2 (proj2 remote_error_fails_fast) Concurrent
                                     rejecting_storage main_runs_on _ 1 theStorageAccount
                                     "name taken" _ Hlg))) 2%Z Hcode)
      as [(Hone & _)|(_ & other & Hne & [(Hone & _)|(_ & Hlast)])].
    + discriminate Hone.
    + discriminate Hone.
    + exists other. split; [exact Hne|exact Hlast].
Defined.

(** C6 as stated fails in the concurrent variant: when the creation of the
    virtual network fails before the goroutine of the storage account has
    issued its request, that request is issued after the error has been
    returned, next to the attempt to delete the resource group. *)
Lemma other_goroutine_calls_after_failure :
  let m := run rejecting_network late_goroutine (initial Concurrent) in
  trace (log m)
  = [EvPrint 0 ("Create resource group" +:+ nl);
     EvIssue 0 (GroupsCreateOrUpdate groupName westUS);
     EvReturn 0 (GroupsCreateOrUpdate groupName westUS) None;
     EvWgAdd 0 1;
     EvGo 0 1;
     EvPrint 0 ("Create virtual network" +:+ nl);
     EvIssue 0 theVirtualNetwork;
     EvReturn 0 theVirtualNetwork (Some "quota exceeded");
     EvPrint 1 ("Starting to create storage account..." +:+ nl);
     EvIssue 1 theStorageAccount;
     EvPrint 0 (failureMessage theVirtualNetwork "quota exceeded");
     EvIssue 0 (GroupsDelete groupName);
     EvExit 0 1]
  ∧ issued (drop 8 (trace (log m))) = [theStorageAccount; GroupsDelete groupName]
  ∧ halted m = Some 1%Z.
Proof. vm_compute. repeat split; reflexivity. Qed.

(** ** The sequential run against an obliging collaborator *)

(** The answer of the collaborator to the next call, which is not an
    error. *)
Ltac answer w Hok :=
  match goal with
  | |- context [w ?h ?c] =>
      let x := fresh "x" in
      let e := fresh "e" in
      let E := fresh "E" in
      let H := fresh "H" in
      destruct (w h c) as [x e] eqn:E;
      pose proof (Hok h c) as H; rewrite E in H; simpl in H; subst e; simpl
  end.

Section Obliging.
Context (v : Variant) (w : Oracle) (Hw : obliging w).

Lemma obliging_ok h c : (w h c).2 = None.
Proof. apply Hw. Qed.

Lemma createResourceGroup_succeeds h :
  ∃ new, exec w h (createResourceGroup v) = (Returned tt, new ++ h).
Proof.
  unfold createResourceGroup. unfold_bind. simpl. answer w obliging_ok.
  by eexists [_; _; _].
Qed.

Lemma createVirtualNetwork_succeeds h :
  ∃ new, exec w h (createVirtualNetwork v) = (Returned tt, new ++ h).
Proof.
  unfold createVirtualNetwork. unfold_bind. simpl. answer w obliging_ok.
  by eexists [_; _; _].
Qed.

Lemma createSubnets_succeeds h :
  ∃ new s0 s1 s2,
    exec w h (createSubnets v) = (Returned [s0; s1; s2], new ++ h)
    ∧ is_Some (sub_Name s0) ∧ is_Some (sub_Name s1) ∧ is_Some (sub_Name s2).
Proof.
  destruct Hw as (_ & Hsub & _).
  unfold createSubnets. unfold_bind. simpl. do 6 answer w obliging_ok.
  eexists [_; _; _; _; _; _; _; _; _; _; _; _; _; _; _; _], _, _, _.
  split; [reflexivity|].
  repeat split;
    match goal with
    | E : w ?h (SubnetsGet _ _ ?n) = (?x, None) |- is_Some (sub_Name ?x) =>
        pose proof (Hsub h n) as Hs; rewrite E in Hs; exact Hs
    end.
Qed.

Lemma createPIP_succeeds h pipName :
  ∃ new pip, exec w h (createPIP v pipName) = (Returned pip, new ++ h).
Proof.
  unfold createPIP. unfold_bind. simpl. do 2 answer w obliging_ok.
  by eexists [_; _; _; _; _; _], _.
Qed.

Lemma createNICs_succeeds h s0 s1 s2 pip :
  is_Some (sub_Name s0) → is_Some (sub_Name s1) → is_Some (sub_Name s2) →
  ∃ new nics,
    exec w h (createNICs v [s0; s1; s2] pip) = (Returned nics, new ++ h)
    ∧ Forall2 (λ n nic, nic_Name nic = Some n
                        ∧ ∃ h', (w h' (InterfacesGet groupName n)).1 = nic)
        nicNames nics.
Proof.
  destruct Hw as (_ & _ & Hnic).
  intros [n0 H0] [n1 H1] [n2 H2].
  unfold createNICs. unfold_bind. simpl. rewrite H0, H1, H2. simpl.
  do 6 answer w obliging_ok.
  eexists [_; _; _; _; _; _; _; _; _; _; _; _; _; _; _; _], _.
  split; [reflexivity|].
  repeat constructor;
    match goal with
    | E : w ?h (InterfacesGet _ ?n) = (?x, None) |- nic_Name ?x = Some ?n =>
        pose proof (Hnic h n) as Hs; rewrite E in Hs; exact Hs
    | E : w ?h (InterfacesGet _ ?n) = (?x, None) |- ∃ _, (w _ (InterfacesGet _ ?n)).1 = ?x =>
        exists h; by rewrite E
    end.
Qed.

Lemma createVM_succeeds h nirs :
  ∃ vm,
    exec w h (createVM v nirs)
    = (Returned tt,
       [EvReturn 0 (VirtualMachinesCreateOrUpdate groupName vmName vm) None;
        EvIssue 0 (VirtualMachinesCreateOrUpdate groupName vmName vm);
        EvPrint 0 ("Create VM with the assigned NIRs" +:+ nl)] ++ h)
    ∧ NetworkInterfaces vm = Some nirs
    ∧ OsDisk vm ≫= VhdURI = Some (vhdURI v).
Proof.
  unfold createVM. unfold_bind. simpl. answer w obliging_ok.
  eexists. split; [reflexivity|]. done.
Qed.
End Obliging.

Lemma createStorageAccount_succeeds (w : Oracle) (h : list Event) :
  obliging w →
  exec w h (createStorageAccount Sequential)
  = (Returned tt,
     [EvReturn 0 theStorageAccount None; EvIssue 0 theStorageAccount;
      EvPrint 0 ("Create storage account" +:+ nl)] ++ h).
Proof.
  intros Hw. unfold createStorageAccount. unfold_bind. simpl.
  answer w (obliging_ok w Hw). done.
Qed.

Lemma issued_trace_app (a b : list Event) :
  issued (trace (a ++ b)) = issued (trace b) ++ issued (trace a).
Proof. unfold issued, trace. by rewrite reverse_app, omap_app. Qed.

(** X19.  Against a collaborator that reports no error, names the
    subnets and returns every interface under its name, the sequential
    [main] requests the virtual machine after the storage account, with
    the disk at the blob address of that account, and with one reference
    for each of the three interfaces the collaborator returned, in the
    order nic1, nic2, nic3: each reference carries the ID the
    collaborator gave, and only the first is primary. *)
Theorem provisioning_end_to_end (w : Oracle) :
  obliging w →
  ∃ before vm after nics,
    issued (trace (exec w [] (main Sequential)).2)
    = before ++ VirtualMachinesCreateOrUpdate groupName vmName vm :: after
    ∧ theStorageAccount ∈ before
    ∧ OsDisk vm ≫= VhdURI
      = Some ("https://" +:+ accountName +:+ ".blob.core.windows.net/golangcontainer/"
              +:+ vmName +:+ ".vhd")
    ∧ Forall2 (λ n nic, ∃ h, (w h (InterfacesGet groupName n)).1 = nic) nicNames nics
    ∧ (λ nir, (nir_ID nir, primaryFlag nir)) <$> default [] (NetworkInterfaces vm)
      = zip (nic_ID <$> nics) [Some true; Some false; Some false].
Proof.
  intros Hw. unfold main. unfold_bind.
  rewrite exec_bind.
  destruct (createResourceGroup_succeeds Sequential w Hw []) as [new1 ->].
  rewrite exec_bind.
  destruct (createVirtualNetwork_succeeds Sequential w Hw (new1 ++ [])) as [new2 ->].
  rewrite exec_bind.
  destruct (createSubnets_succeeds Sequential w Hw (new2 ++ new1 ++ []))
    as (new3 & s0 & s1 & s2 & -> & H0 & H1 & H2).
  rewrite exec_bind.
  destruct (createPIP_succeeds Sequential w Hw (new3 ++ new2 ++ new1 ++ []) "pip1")
    as (new4 & pip1 & ->).
  rewrite exec_bind.
  destruct (createNICs_succeeds Sequential w Hw (new4 ++ new3 ++ new2 ++ new1 ++ [])
              s0 s1 s2 pip1 H0 H1 H2) as (new5 & nics & -> & Hnics).
  rewrite exec_bind, (createStorageAccount_succeeds w _ Hw).
  assert (Hnamed : Forall named nics).
  { apply Forall_forall. intros nic Hin.
    apply list_elem_of_lookup in Hin as [i Hi].
    destruct (Forall2_lookup_r _ _ _ _ _ Hnics Hi) as (n & _ & Hn & _).
    by exists n. }
  rewrite exec_bind.
  match goal with
  | |- context [exec w ?h (buildNIRs Sequential nics)] =>
      destruct (buildNIRs_Returned Sequential w nics h Hnamed) as [h6 E6];
      destruct (exec_extends w (buildNIRs Sequential nics) h) as (out6 & new6 & E6')
  end.
  rewrite E6' in E6. injection E6 as -> <-. rewrite E6'.
  rewrite exec_bind.
  match goal with
  | |- context [exec w ?h (createVM Sequential ?nirs)] =>
      destruct (createVM_succeeds Sequential w Hw h nirs) as (vm & -> & Hnirs & Huri)
  end.
  match goal with
  | |- context [exec w ?h ?rest] =>
      destruct (exec_extends w rest h) as (out & new & ->)
  end.
  cbn [snd].
  rewrite issued_trace_app, (issued_trace_app [_; _; _]), <- app_assoc.
  rewrite (issued_trace_app new6), (issued_trace_app [_; _; _]).
  eexists _, vm, _, nics. split; [reflexivity|]. split; [|split; [|split]].
  - apply elem_of_app. left. apply elem_of_app. right. apply list_elem_of_here.
  - exact Huri.
  - eapply Forall2_impl; [exact Hnics|]. simpl. by intros ? ? [_ ?].
  - rewrite Hnirs. simpl.
    inversion Hnics as [|? n0 ? ? [Hn0 _] Hnics1]; subst.
    inversion Hnics1 as [|? n1 ? ? [Hn1 _] Hnics2]; subst.
    inversion Hnics2 as [|? n2 ? ? [Hn2 _] Hnics3]; subst.
    inversion Hnics3; subst. simpl. unfold primaryFlag. simpl.
    rewrite Hn0, Hn1, Hn2. reflexivity.
Qed.

Lemma provisioning_end_to_end_witness :
  ∃ before vm after nics,
    issued (trace (exec faithful [] (main Sequential)).2)
    = before ++ VirtualMachinesCreateOrUpdate groupName vmName vm :: after
    ∧ theStorageAccount ∈ before
    ∧ OsDisk vm ≫= VhdURI
      = Some ("https://" +:+ accountName +:+ ".blob.core.windows.net/golangcontainer/"
              +:+ vmName +:+ ".vhd")
    ∧ Forall2 (λ n nic, ∃ h, (faithful h (InterfacesGet groupName n)).1 = nic) nicNames nics
    ∧ (λ nir, (nir_ID nir, primaryFlag nir)) <$> default [] (NetworkInterfaces vm)
      = zip (nic_ID <$> nics) [Some true; Some false; Some false].
Proof.
  apply (provisioning_end_to_end faithful). split; [|split].
  - intros h c. by destruct c.
  - intros h n. eexists. reflexivity.
  - intros h n. reflexivity.
Defined.
